(** * Harvest-and-dispatch pipeline: a shallow embedding

  The development embeds the JavaScript sources
    - [src/utils/emailCollector.js]  (class [EmailCollector]),
    - [src/utils/emailFilter.js]     ([filterInvalidEmails], [extractEmailFromUser]),
    - [src/utils/emailSender.js]     (classes [EmailSender] and [GitHubAPI]),
    - [src/routes/send.js]           ([detectSender] and the list that the bulk
                                      route hands to the dispatcher)
  as executable Rocq functions and proves the properties of the
  specification about them, and further properties of the code.

  Conventions of the embedding.
    - JavaScript strings are [string]s; the models of [toLowerCase], [trim]
      and of the character classes of regular expressions act on the ASCII
      range.
    - JavaScript numbers that the code manipulates are integers well below
      2^53, so they are [Z]; a number that may be [NaN] is a [number].
    - [undefined]/[null] fields are [None].
    - Everything the code obtains from the outside world (HTTP responses,
      SMTP results, the clock) comes from an environment record, and every
      observable effect (network call, timer, progress event) is appended
      to a trace.
    - The record store (the [Email] and [Repository] collections) answers
      through an oracle indexed by the number of earlier operations.
    - [console.log] output is not modelled. *)

From Stdlib Require Import Bool Arith ZArith List Lia.
From Stdlib Require Import Ascii String.
From Stdlib Require Import DecimalString.
From Stdlib Require Import Permutation.
Import ListNotations.

Local Open Scope string_scope.
Local Open Scope bool_scope.

(** ** JavaScript primitives *)

Module JS.

(** The double-quote character (used inside message texts). *)
Definition dquote : string := String (ascii_of_nat 34) "".

(** [p] is an initial segment of [s]. *)
Fixpoint isPrefix (p s : string) : bool :=
  match p, s with
  | EmptyString, _ => true
  | String a p', String b s' => Ascii.eqb a b && isPrefix p' s'
  | String _ _, EmptyString => false
  end.

(** [s.startsWith(p)] *)
Definition startsWith (s p : string) : bool := isPrefix p s.

(** [s.includes(p)] *)
Fixpoint includes (s p : string) : bool :=
  if isPrefix p s then true
  else match s with
       | EmptyString => false
       | String _ s' => includes s' p
       end.

(** No character of [s] is [c]. *)
Fixpoint lacks (c : ascii) (s : string) : bool :=
  match s with
  | EmptyString => true
  | String d s' => negb (Ascii.eqb d c) && lacks c s'
  end.

(** Truthiness of a value that is a string or [undefined]/[null]. *)
Definition truthy (v : option string) : bool :=
  match v with
  | Some (String _ _) => true
  | _ => false
  end.

(** [a || b] on such values, when [b] is a string. *)
Definition orElse (v : option string) (d : string) : string :=
  match v with
  | Some (String c s) => String c s
  | _ => d
  end.

(** [a || b] when [b] may itself be missing. *)
Definition orElseOpt (v w : option string) : option string :=
  if truthy v then v else w.

(** [s.split(sep)] for a one-character separator. *)
Fixpoint split (sep : ascii) (s : string) : list string :=
  match s with
  | EmptyString => [EmptyString]
  | String c s' =>
      if Ascii.eqb c sep then EmptyString :: split sep s'
      else match split sep s' with
           | [] => [String c EmptyString]
           | p :: ps => String c p :: ps
           end
  end.

(** White space of [\s] and of [trim], on the ASCII range. *)
Definition isSpace (c : ascii) : bool :=
  let n := nat_of_ascii c in
  (((9 <=? n) && (n <=? 13)) || (n =? 32))%nat.

Definition lowerChar (c : ascii) : ascii :=
  let n := nat_of_ascii c in
  if ((65 <=? n) && (n <=? 90))%nat then ascii_of_nat (n + 32) else c.

(** [s.toLowerCase()] *)
Fixpoint toLowerCase (s : string) : string :=
  match s with
  | EmptyString => EmptyString
  | String c s' => String (lowerChar c) (toLowerCase s')
  end.

Fixpoint trimStart (s : string) : string :=
  match s with
  | EmptyString => EmptyString
  | String c s' => if isSpace c then trimStart s' else s
  end.

Fixpoint trimEnd (s : string) : string :=
  match s with
  | EmptyString => EmptyString
  | String c s' =>
      match trimEnd s' with
      | EmptyString => if isSpace c then EmptyString else String c EmptyString
      | t => String c t
      end
  end.

(** [s.trim()] *)
Definition trim (s : string) : string := trimEnd (trimStart s).

(** [s] without its suffix [suf], when it ends with it. *)
Fixpoint stripSuffix (suf s : string) : option string :=
  if String.eqb s suf then Some EmptyString
  else match s with
       | EmptyString => None
       | String c s' =>
           match stripSuffix suf s' with
           | Some t => Some (String c t)
           | None => None
           end
       end.

(** [s.replace(/<suf>$/, '')] for a literal, non-empty [suf]. *)
Definition dropSuffix (suf s : string) : string :=
  match stripSuffix suf s with
  | Some t => t
  | None => s
  end.

(** [s] without its prefix [p], when it starts with it. *)
Fixpoint stripPrefix (p s : string) : option string :=
  match p, s with
  | EmptyString, _ => Some s
  | String a p', String b s' =>
      if Ascii.eqb a b then stripPrefix p' s' else None
  | String _ _, EmptyString => None
  end.

(** Decimal rendering of an integer inside a template literal. *)
Definition showZ (z : Z) : string := NilZero.string_of_int (Z.to_int z).
Definition showNat (n : nat) : string := showZ (Z.of_nat n).

(** A JavaScript number that is an integer or [NaN]. *)
Inductive number : Type :=
| NaN
| Num (z : Z).

Definition ltN (a b : number) : bool :=
  match a, b with
  | Num x, Num y => Z.ltb x y
  | _, _ => false
  end.

Definition leN (a b : number) : bool :=
  match a, b with
  | Num x, Num y => Z.leb x y
  | _, _ => false
  end.

Definition gtN (a b : number) : bool := ltN b a.

Definition subN (a b : number) : number :=
  match a, b with
  | Num x, Num y => Num (x - y)
  | _, _ => NaN
  end.

Definition addN (a b : number) : number :=
  match a, b with
  | Num x, Num y => Num (x + y)
  | _, _ => NaN
  end.

Definition mulN (a b : number) : number :=
  match a, b with
  | Num x, Num y => Num (x * y)
  | _, _ => NaN
  end.

(** [Math.max(a, b)]: [NaN] as soon as one argument is [NaN]. *)
Definition maxN (a b : number) : number :=
  match a, b with
  | Num x, Num y => Num (Z.max x y)
  | _, _ => NaN
  end.

(** Value of a digit character in radix 10 or 16. *)
Definition digitValue (radix : Z) (c : ascii) : option Z :=
  let n := Z.of_nat (nat_of_ascii c) in
  let v :=
    if (48 <=? n)%Z && (n <=? 57)%Z then Some (n - 48)%Z
    else if (97 <=? n)%Z && (n <=? 102)%Z then Some (n - 87)%Z
    else if (65 <=? n)%Z && (n <=? 70)%Z then Some (n - 55)%Z
    else None in
  match v with
  | Some d => if (d <? radix)%Z then Some d else None
  | None => None
  end.

(** Longest prefix of digits, accumulated left to right; [None] when the
    prefix is empty. *)
Fixpoint digitsPrefix (radix : Z) (acc : option Z) (s : string) : option Z :=
  match s with
  | EmptyString => acc
  | String c s' =>
      match digitValue radix c with
      | Some d =>
          digitsPrefix radix
            (Some (match acc with Some a => a * radix + d | None => d end)%Z) s'
      | None => acc
      end
  end.

Definition parseUnsigned (s : string) : number :=
  let '(radix, body) :=
    match s with
    | String "0" (String "x" r) => (16%Z, r)
    | String "0" (String "X" r) => (16%Z, r)
    | _ => (10%Z, s)
    end in
  match digitsPrefix radix None body with
  | Some v => Num v
  | None => NaN
  end.

(** [parseInt(s)] with no radix argument. *)
Definition parseIntStr (s : string) : number :=
  match trimStart s with
  | String "-" r =>
      match parseUnsigned r with
      | Num v => Num (- v)
      | NaN => NaN
      end
  | String "+" r => parseUnsigned r
  | t => parseUnsigned t
  end.

(** [parseInt(v)] when [v] may be [undefined]: the text "undefined" has no
    digit. *)
Definition parseInt (v : option string) : number :=
  match v with
  | Some s => parseIntStr s
  | None => NaN
  end.

(** A thrown [Error]: its message and, for system errors, its code. *)
Record Error : Type := mkError {
  message : string;
  code : option string
}.

Definition newError (msg : string) : Error :=
  {| message := msg; code := None |}.

(** [error.code === c] *)
Definition codeIs (c : option string) (s : string) : bool :=
  match c with
  | Some c' => String.eqb c' s
  | None => false
  end.

End JS.

(** ** [EmailCollector.parseRepository] *)

Module Repo.
Import JS.

Inductive Parsed : Type :=
| Parts (owner repo : option string)
| Invalid (e : Error).

(** Longest prefix without ['/'], and what follows it: the greedy class
    [[^\/]+]. *)
Fixpoint takeNonSlash (s : string) : string * string :=
  match s with
  | EmptyString => (EmptyString, EmptyString)
  | String c s' =>
      if Ascii.eqb c "/" then (EmptyString, s)
      else let '(a, b) := takeNonSlash s' in (String c a, b)
  end.

(** The pattern [github\.com\/([^\/]+)\/([^\/]+)] anchored at the start of
    [s]. Both groups are greedy and the character after the first group has
    to be ['/'], so no shorter first group can succeed. *)
Definition matchHere (s : string) : option (string * string) :=
  match stripPrefix "github.com/" s with
  | Some rest =>
      match takeNonSlash rest with
      | (EmptyString, _) => None
      | (owner, String "/" rest') =>
          match takeNonSlash rest' with
          | (EmptyString, _) => None
          | (repo, _) => Some (owner, repo)
          end
      | (_, _) => None
      end
  | None => None
  end.

(** [repoInput.match(/github\.com\/([^\/]+)\/([^\/]+)/)]: the leftmost
    position at which the pattern matches. *)
Fixpoint matchGithub (s : string) : option (string * string) :=
  match matchHere s with
  | Some m => Some m
  | None =>
      match s with
      | EmptyString => None
      | String _ s' => matchGithub s'
      end
  end.

(** A text that is empty or begins with ['/']: what may follow a path
    segment. *)
Definition segmentEnd (tail : string) : bool :=
  match tail with
  | EmptyString => true
  | String c _ => Ascii.eqb c "/"
  end.

Definition invalidFormat : string :=
  "Invalid repository format. Use " ++ dquote ++ "owner/repo" ++ dquote
    ++ " or full GitHub URL".

Definition parseRepository (repoInput : string) : Parsed :=
  if includes repoInput "/" then
    if startsWith repoInput "http" then
      match matchGithub repoInput with
      | Some (m1, m2) =>
          Parts (Some m1) (Some (dropSuffix "/" (dropSuffix ".git" m2)))
      | None => Parts None None
      end
    else
      let parts := split "/" repoInput in
      Parts (nth_error parts 0) (nth_error parts 1)
  else Invalid (newError invalidFormat).

End Repo.

(** ** [GitHubAPI]: the rate-limited, retrying client *)

Module GitHubAPI.
Import JS.

Local Open Scope Z_scope.

(** An HTTP response as the client looks at it: status, header lookup (names
    are lower-case), payload, and the [message] property of the payload when
    there is one ([response.data?.message]). *)
Record Response (Data : Type) : Type := mkResponse {
  status : Z;
  headers : string -> option string;
  data : Data;
  dataMessage : option string
}.
Arguments mkResponse {Data}.
Arguments status {Data}.
Arguments headers {Data}.
Arguments data {Data}.
Arguments dataMessage {Data}.

(** The error [axios.get] rejects with: [error.code], [error.message] and,
    when the server answered with a status outside 2xx, [error.response]. *)
Record AxiosError (Data : Type) : Type := mkAxiosError {
  errCode : option string;
  errMessage : string;
  response : option (Response Data)
}.
Arguments mkAxiosError {Data}.
Arguments errCode {Data}.
Arguments errMessage {Data}.
Arguments response {Data}.

Inductive Outcome (Data : Type) : Type :=
| Resolved (r : Response Data)
| Rejected (e : AxiosError Data).
Arguments Resolved {Data}.
Arguments Rejected {Data}.

(** The outside world: what the [n]-th call of [axios.get] (counted from 0)
    on a URL produces, and how the platform prints a date. *)
Record Env (Data : Type) : Type := mkEnv {
  server : nat -> string -> Outcome Data;
  toLocaleString : number -> string
}.
Arguments mkEnv {Data}.
Arguments server {Data}.
Arguments toLocaleString {Data}.

Inductive Event : Type :=
| Sleep (ms : Z)
| Get (url : string) (firedAt : Z).

(** The fields of a [GitHubAPI] object ([rateLimitRemaining],
    [rateLimitReset]) together with the clock ([Date.now()]), the number of
    calls of [axios.get] made so far and the trace of effects. *)
Record State : Type := mkState {
  rateLimitRemaining : number;
  rateLimitReset : number;
  now : Z;
  calls : nat;
  trace : list Event
}.

(** What [request] returns: [{data, headers, status}] or [response.data]. *)
Inductive Returned (Data : Type) : Type :=
| FullResponse (r : Response Data)
| DataOnly (d : Data).
Arguments FullResponse {Data}.
Arguments DataOnly {Data}.

Inductive Result (A : Type) : Type :=
| Ok (a : A)
| Throw (e : Error).
Arguments Ok {A}.
Arguments Throw {A}.

Definition baseURL : string := "https://api.github.com".

(** [new GitHubAPI(token)] created at time [t]. *)
Definition constructor (t : Z) : State :=
  {| rateLimitRemaining := Num 5000;
     rateLimitReset := Num (t + 3600000);
     now := t;
     calls := 0%nat;
     trace := [] |}.

(** The delay a timer really uses: below one millisecond it is one. *)
Definition timerDelay (ms : Z) : Z := if ms <? 1 then 1 else ms.

(** [await new Promise(resolve => setTimeout(resolve, ms))]: the clock moves
    on by the delay. *)
Definition sleep (ms : Z) (st : State) : State :=
  {| rateLimitRemaining := rateLimitRemaining st;
     rateLimitReset := rateLimitReset st;
     now := now st + timerDelay ms;
     calls := calls st;
     trace := trace st ++ [Sleep (timerDelay ms)] |}.

Definition setRemaining (r : number) (st : State) : State :=
  {| rateLimitRemaining := r;
     rateLimitReset := rateLimitReset st;
     now := now st;
     calls := calls st;
     trace := trace st |}.

Definition setReset (r : number) (st : State) : State :=
  {| rateLimitRemaining := rateLimitRemaining st;
     rateLimitReset := r;
     now := now st;
     calls := calls st;
     trace := trace st |}.

Definition fire (url : string) (st : State) : State :=
  {| rateLimitRemaining := rateLimitRemaining st;
     rateLimitReset := rateLimitReset st;
     now := now st;
     calls := S (calls st);
     trace := trace st ++ [Get url (now st)] |}.

(** [this.rateLimitReset > Date.now() + 1000] *)
Definition hasValidRateLimitInfo (st : State) : bool :=
  gtN (rateLimitReset st) (Num (now st + 1000)).

(** The check made before the call of [axios.get]. *)
Definition preRequestWait (st : State) : State :=
  if leN (rateLimitRemaining st) (Num 10) && hasValidRateLimitInfo st then
    match maxN (Num 0) (subN (rateLimitReset st) (Num (now st))) with
    | Num waitTime =>
        if (0 <? waitTime) && (waitTime <? 3600000)
        then setRemaining (Num 5000) (sleep (waitTime + 2000) st)
        else st
    | NaN => st
    end
  else st.

(** The update of the counters from the headers of a successful response. *)
Definition updateRateLimit {Data} (r : Response Data) (st : State) : State :=
  let st1 :=
    if truthy (headers r "x-ratelimit-remaining")
    then setRemaining (parseInt (headers r "x-ratelimit-remaining")) st
    else st in
  if truthy (headers r "x-ratelimit-reset")
  then setReset (mulN (parseInt (headers r "x-ratelimit-reset")) (Num 1000)) st1
  else st1.

Definition isNetworkError {Data} (e : AxiosError Data) : bool :=
  codeIs (errCode e) "ECONNRESET"
  || codeIs (errCode e) "ETIMEDOUT"
  || codeIs (errCode e) "ENOTFOUND"
  || codeIs (errCode e) "ECONNREFUSED"
  || includes (errMessage e) "ECONNRESET"
  || includes (errMessage e) "ETIMEDOUT"
  || includes (errMessage e) "socket hang up"
  || includes (errMessage e) "timeout".

(** [Math.min(2000 * Math.pow(2, 3 - retries), 10000)] as the timer uses it.
    For [retries > 3] the power is a fraction and the timer truncates the
    delay to an integer. *)
Definition backoffDelay (retries : nat) : Z :=
  Z.min (if (retries <=? 3)%nat
         then 2000 * 2 ^ (3 - Z.of_nat retries)
         else 2000 / 2 ^ (Z.of_nat retries - 3))
        10000.

(** [error.response.status === 403 &&
     (remaining === '0' || parseInt(remaining) <= 0)] *)
Definition isRateLimitResponse {Data} (r : Response Data) : bool :=
  let remaining := headers r "x-ratelimit-remaining" in
  (status r =? 403)
  && (match remaining with Some s => String.eqb s "0" | None => false end
      || leN (parseInt remaining) (Num 0)).

(** [parseInt(error.response.headers['x-ratelimit-reset']) * 1000] *)
Definition resetTimeOf {Data} (r : Response Data) : number :=
  mulN (parseInt (headers r "x-ratelimit-reset")) (Num 1000).

(** [Math.max(0, resetTime - Date.now())] *)
Definition waitTimeOf {Data} (r : Response Data) (st : State) : number :=
  maxN (Num 0) (subN (resetTimeOf r) (Num (now st))).

Definition rateLimitError {Data} (env : Env Data) (r : Response Data) : Error :=
  newError ("GitHub API rate limit exceeded. Reset at "
            ++ toLocaleString env (resetTimeOf r)
            ++ ". Please wait and try again.").

Definition apiError {Data} (e : AxiosError Data) (r : Response Data) : Error :=
  newError ("GitHub API error: " ++ showZ (status r) ++ " - "
            ++ orElse (dataMessage r) (errMessage e)).

Definition networkError {Data} (e : AxiosError Data) : Error :=
  newError ("Network error after retries: " ++ orElse (errCode e) (errMessage e)).

(** The error object itself, thrown again. *)
Definition rethrown {Data} (e : AxiosError Data) : Error :=
  {| message := errMessage e; code := errCode e |}.

(** The error the [catch] block ends with when it does not retry. *)
Definition failure {Data} (env : Env Data) (e : AxiosError Data) : Error :=
  match response e with
  | Some r => if isRateLimitResponse r then rateLimitError env r else apiError e r
  | None => if isNetworkError e then networkError e else rethrown e
  end.

(** [request(endpoint, retries, returnFullResponse)]. The recursion is on the
    number of retries that are left. *)
Fixpoint request {Data} (env : Env Data) (endpoint : string) (retries : nat)
    (returnFullResponse : bool) (st : State) : State * Result (Returned Data) :=
  let url := (baseURL ++ endpoint)%string in
  let st1 := preRequestWait st in
  let st2 := fire url st1 in
  match server env (calls st1) url with
  | Resolved r =>
      (updateRateLimit r st2,
       Ok (if returnFullResponse then FullResponse r else DataOnly (data r)))
  | Rejected e =>
      match retries with
      | O => (st2, Throw (failure env e))
      | S fewer =>
          if isNetworkError e
          then request env endpoint fewer returnFullResponse
                 (sleep (backoffDelay retries) st2)
          else
            match response e with
            | Some r =>
                if isRateLimitResponse r then
                  match waitTimeOf r st2 with
                  | Num waitTime =>
                      if waitTime <? 3600000
                      then request env endpoint fewer returnFullResponse
                             (setRemaining (Num 5000) (sleep (waitTime + 2000) st2))
                      else (st2, Throw (failure env e))
                  | NaN => (st2, Throw (failure env e))
                  end
                else (st2, Throw (failure env e))
            | None => (st2, Throw (failure env e))
            end
      end
  end.

(** [hasNextPage(linkHeader)] for a header value that is a string or is
    missing: the test of [/rel=["']next["']/i]. Either quote may be single or
    double, and lower-casing the header leaves quotes and the equals sign as
    they are. *)
Definition hasNextPage (linkHeader : option string) : bool :=
  match linkHeader with
  | Some (String c l) =>
      let link := toLowerCase (String c l) in
      let quote := dquote in
      existsb (fun pattern => includes link pattern)
        [ "rel=" ++ quote ++ "next" ++ quote;
          "rel=" ++ quote ++ "next'";
          "rel='next" ++ quote;
          "rel='next'" ]%string
  | _ => false
  end.

(** Longest prefix without ['>'], and what follows it: the greedy class
    [[^>]+]. *)
Fixpoint takeNonGt (s : string) : string * string :=
  match s with
  | EmptyString => (EmptyString, EmptyString)
  | String c s' =>
      if Ascii.eqb c ">" then (EmptyString, s)
      else let '(a, b) := takeNonGt s' in (String c a, b)
  end.

(** [\s*rel=["']next["']] at the start of [s], letters in either case. *)
Definition relNext (s : string) : bool :=
  let rest := toLowerCase (trimStart s) in
  let quote := dquote in
  existsb (fun pattern => isPrefix pattern rest)
    [ "rel=" ++ quote ++ "next" ++ quote;
      "rel=" ++ quote ++ "next'";
      "rel='next" ++ quote;
      "rel='next'" ]%string.

(** The pattern [<([^>]+)>;\s*rel=["']next["']] anchored at the start of
    [s]. The group cannot end before the first ['>'], and the white space
    cannot end before the first character that is none, so there is one way
    to match. What [takeNonGt] leaves is empty or begins with the ['>'] that
    ends the group. *)
Definition nextHere (s : string) : option string :=
  match s with
  | String c rest =>
      if Ascii.eqb c "<" then
        match takeNonGt rest with
        | (String a url, String _ (String d after)) =>
            if Ascii.eqb d ";" && relNext after then Some (String a url) else None
        | _ => None
        end
      else None
  | EmptyString => None
  end.

(** [link.match(/<([^>]+)>;\s*rel=["']next["']/i)]: the group of the
    leftmost match. *)
Fixpoint nextMatch (s : string) : option string :=
  match nextHere s with
  | Some url => Some url
  | None =>
      match s with
      | EmptyString => None
      | String _ s' => nextMatch s'
      end
  end.

(** [getNextPageUrl(linkHeader)] for a header value that is a string or is
    missing. *)
Definition getNextPageUrl (linkHeader : option string) : option string :=
  match linkHeader with
  | Some (String c l) => nextMatch (String c l)
  | _ => None
  end.

(** A Link header in the format that the comment of [hasNextPage] gives,
    [<url>; rel="next", <url>; rel="prev"], written from its links, each a
    URL with its relation. *)
Definition linkValue (l : string * string) : string :=
  "<" ++ fst l ++ ">; rel=" ++ dquote ++ snd l ++ dquote.

Fixpoint linkHeaderOf (links : list (string * string)) : string :=
  match links with
  | [] => EmptyString
  | l :: rest =>
      match rest with
      | [] => linkValue l
      | _ :: _ => linkValue l ++ ", " ++ linkHeaderOf rest
      end
  end.

(** A link whose URL is not empty and has no angle bracket, and whose
    relation has no angle bracket and no quote. *)
Definition wfLink (l : string * string) : bool :=
  negb (String.eqb (fst l) EmptyString)
  && lacks "<" (fst l) && lacks ">" (fst l)
  && lacks "<" (snd l) && lacks (ascii_of_nat 34) (snd l) && lacks "'" (snd l).

(** The relation of the link is [next], in any case of the letters. *)
Definition isNextLink (l : string * string) : bool :=
  String.eqb "next" (toLowerCase (snd l)).

(** What [getContributorsWithPagination] hands to the collector; the link
    header and the URL of the next page, which are only logged, are left
    out. *)
Record ContributorsPage (Data : Type) : Type := mkContributorsPage {
  pageContributors : Data;
  pageHasNext : bool
}.
Arguments mkContributorsPage {Data}.
Arguments pageContributors {Data}.
Arguments pageHasNext {Data}.

Definition contributorsEndpoint (owner repo : string) (page perPage : nat) : string :=
  ("/repos/" ++ owner ++ "/" ++ repo ++ "/contributors?page=" ++ showNat page
     ++ "&per_page=" ++ showNat perPage ++ "&anon=1")%string.

(** [getContributorsWithPagination(owner, repo, page, perPage)] *)
Definition getContributorsWithPagination {Data} (env : Env Data)
    (owner repo : string) (page perPage : nat) (st : State)
    : State * Result (ContributorsPage Data) :=
  match request env (contributorsEndpoint owner repo page perPage) 3 true st with
  | (st', Ok (FullResponse r)) =>
      (st', Ok {| pageContributors := data r;
                  pageHasNext := hasNextPage (headers r "link") |})
  | (st', Ok (DataOnly d)) =>
      (st', Ok {| pageContributors := d; pageHasNext := false |})
  | (st', Throw e) => (st', Throw e)
  end.

(** An effect of a request for [url]: a call of [axios.get] on that URL, or
    a timer of at least one millisecond. *)
Definition madeFor (url : string) (ev : Event) : Prop :=
  match ev with
  | Get u _ => u = url
  | Sleep ms => 1 <= ms
  end.

(** The calls of [axios.get] in a trace, and the timers. *)
Definition gets (tr : list Event) : list Event :=
  filter (fun ev => match ev with Get _ _ => true | Sleep _ => false end) tr.

Definition sleeps (tr : list Event) : list Z :=
  flat_map (fun ev => match ev with Sleep ms => [ms] | Get _ _ => [] end) tr.

End GitHubAPI.

(** ** [emailFilter.js] *)

Module Filter.
Import JS.

(** Some character of [s] is white space. *)
Fixpoint hasSpace (s : string) : bool :=
  match s with
  | EmptyString => false
  | String c s' => isSpace c || hasSpace s'
  end.

(** A dot that has at least one character after it. *)
Fixpoint dotThenMore (s : string) : bool :=
  match s with
  | EmptyString => false
  | String c s' =>
      (Ascii.eqb c "." && negb (String.eqb s' EmptyString)) || dotThenMore s'
  end.

(** [/^[^\s@]+@[^\s@]+\.[^\s@]+$/.test(email)]: no white space, exactly one
    at sign with something before it, and after it a dot that is neither the
    first nor the last character. *)
Definition emailRegex (email : string) : bool :=
  negb (hasSpace email)
  && match split "@" email with
     | [String _ _; String _ domain] => dotThenMore domain
     | _ => false
     end.

Definition anyIncluded (s : string) (patterns : list string) : bool :=
  existsb (fun p => includes s p) patterns.

Definition NOREPLY_PATTERN : list string :=
  ["noreply@"; "users.noreply.github.com"].
Definition EXAMPLE_PATTERN : list string :=
  ["example.com"; "test.com"; "sample.com"; "demo.com"].
Definition GENERIC_PATTERN : list string :=
  ["admin@"; "info@"; "contact@"; "hello@"; "noreply@"; "no-reply@"; "donotreply@"].
Definition TEST_PATTERN : list string :=
  ["test@"; "testing@"; "dev@"; "development@"; "staging@"; "qa@"].
Definition TEMP_PATTERN : list string :=
  ["temp@"; "temporary@"; "tmp@"; "temp-"; "tmp-"].
Definition GITHUB_PATTERN : list string :=
  ["github.com"; "github.local"; "ghp_"; "users.noreply"].
Definition INVALID_PATTERN : list string :=
  ["localhost"; "invalid"; "fake"; "placeholder"].

Definition genericNames : list string :=
  ["example"; "test"; "sample"; "demo"; "admin"; "postmaster"; "noreply"; "no-reply"].

(** [filterInvalidEmails(email)] for a string or a missing value. The
    patterns are alternations of literal texts, tested on the lower-cased
    address. *)
Definition filterInvalidEmails (email : option string) : bool :=
  match email with
  | Some (String c e) =>
      let email := String c e in
      if negb (emailRegex email) then false
      else
        let lowerEmail := trim (toLowerCase email) in
        if anyIncluded lowerEmail NOREPLY_PATTERN then false
        else if anyIncluded lowerEmail EXAMPLE_PATTERN then false
        else if anyIncluded lowerEmail GENERIC_PATTERN then false
        else if anyIncluded lowerEmail TEST_PATTERN then false
        else if anyIncluded lowerEmail TEMP_PATTERN then false
        else if anyIncluded lowerEmail GITHUB_PATTERN then false
        else if anyIncluded lowerEmail INVALID_PATTERN then false
        else
          let emailName := hd EmptyString (split "@" lowerEmail) in
          negb (existsb (String.eqb emailName) genericNames)
  | _ => false
  end.

(** The texts that make [filterInvalidEmails] reject an address that has
    them somewhere, all pattern lists together. *)
Definition blockedPatterns : list string :=
  (NOREPLY_PATTERN ++ EXAMPLE_PATTERN ++ GENERIC_PATTERN ++ TEST_PATTERN
     ++ TEMP_PATTERN ++ GITHUB_PATTERN ++ INVALID_PATTERN)%list.

(** The local part of an address: [address.split('@')[0]]. *)
Definition localPart (address : string) : string :=
  hd EmptyString (split "@" address).

(** A harvested address with what is known about its owner. *)
Record EmailData : Type := mkEmailData {
  email : string;
  name : string;
  username : string;
  repository : string
}.

Definition setRepository (r : string) (d : EmailData) : EmailData :=
  {| email := email d; name := name d; username := username d; repository := r |}.

(** A user profile of the remote API. *)
Record User : Type := mkUser {
  userLogin : option string;
  userEmail : option string;
  userName : option string
}.

(** [extractEmailFromUser(user)]; the [repository] field is set by the
    caller. *)
Definition extractEmailFromUser (user : option User) : option EmailData :=
  match user with
  | None => None
  | Some u =>
      if negb (truthy (userEmail u)) then None
      else if filterInvalidEmails (userEmail u) then
        Some {| email := trim (toLowerCase (orElse (userEmail u) ""));
                name := orElse (userName u) (orElse (userLogin u) "");
                username := orElse (userLogin u) "";
                repository := "" |}
      else None
  end.

End Filter.

(** ** [EmailCollector]: the two harvesting passes and their merge *)

Module Collector.
Import JS Filter.
Local Open Scope nat_scope.

(** An entry of the contributors list; anonymous entries have no [login]. *)
Record Contributor : Type := mkContributor {
  login : option string;
  contributorEmail : option string;
  contributorName : option string
}.

(** An entry of the commits list: [commit.commit?.author] and
    [commit.author?.login]. *)
Record Author : Type := mkAuthor {
  authorEmail : option string;
  authorName : option string
}.

Record Commit : Type := mkCommit {
  commitAuthor : option Author;
  authorLogin : option string
}.

(** What [getContributorsWithPagination] resolves with. [contributors] is
    [None] when the payload is not an array. *)
Record Page : Type := mkPage {
  contributors : option (list Contributor);
  hasNextPage : bool
}.

Inductive Fetched (A : Type) : Type :=
| Got (a : A)
| Failed (e : Error).
Arguments Got {A}.
Arguments Failed {A}.

(** The API client as the collector sees it. Each method gets the number of
    earlier calls of the same method, so that a call may be answered
    differently each time. *)
Record Api : Type := mkApi {
  getContributorsWithPagination :
    nat -> string -> string -> nat -> nat -> Fetched Page;
  getUser : nat -> string -> Fetched (option User);
  getCommits : nat -> string -> string -> nat -> Fetched (option (list Commit))
}.

Inductive Event : Type :=
| CallContributors (page perPage : nat)
| CallUser (userLogin : string)
| CallCommits (page : nat)
| Progress (stage : string) (numbers : list (string * nat))
| Sleep (ms : Z).

(** Call counters and the trace. *)
Record World : Type := mkWorld {
  contributorCalls : nat;
  userCalls : nat;
  commitCalls : nat;
  trace : list Event
}.

Definition newWorld : World :=
  {| contributorCalls := 0; userCalls := 0; commitCalls := 0; trace := [] |}.

Definition emit (events : list Event) (w : World) : World :=
  {| contributorCalls := contributorCalls w; userCalls := userCalls w;
     commitCalls := commitCalls w; trace := (trace w ++ events)%list |}.

Definition countContributorCall (w : World) : World :=
  {| contributorCalls := S (contributorCalls w); userCalls := userCalls w;
     commitCalls := commitCalls w; trace := trace w |}.

Definition countUserCall (w : World) : World :=
  {| contributorCalls := contributorCalls w; userCalls := S (userCalls w);
     commitCalls := commitCalls w; trace := trace w |}.

Definition countCommitCall (w : World) : World :=
  {| contributorCalls := contributorCalls w; userCalls := userCalls w;
     commitCalls := S (commitCalls w); trace := trace w |}.

(** [`${owner}/${repo}`] *)
Definition repositoryNameOf (owner repo : string) : string :=
  owner ++ "/" ++ repo.

(** *** The contributors pass *)

Definition maxConsecutiveErrors : nat := 3.
Definition maxPages : nat := 1000.
Definition maxConsecutiveEmptyPages : nat := 3.

(** The body of [batch.map(async (contributor) => ...)]: it never throws. *)
Definition processContributor (api : Api) (repositoryName : string)
    (c : Contributor) (w : World) : option EmailData * World :=
  match login c with
  | Some (String a l) =>
      let userLogin := String a l in
      let w1 := countUserCall (emit [CallUser userLogin] w) in
      match getUser api (userCalls w) userLogin with
      | Got user =>
          match extractEmailFromUser user with
          | Some emailData => (Some (setRepository repositoryName emailData), w1)
          | None => (None, w1)
          end
      | Failed _ => (None, w1)
      end
  | _ =>
      match contributorEmail c with
      | Some (String a e) =>
          let emailData :=
            {| email := trim (toLowerCase (String a e));
               name := orElse (contributorName c) "Anonymous Contributor";
               username := "";
               repository := repositoryName |} in
          if filterInvalidEmails (Some (email emailData))
          then (Some emailData, w)
          else (None, w)
      | _ => (None, w)
      end
  end.

(** [await Promise.all(batch.map(...))] followed by
    [results.filter(e => e !== null)]. *)
Fixpoint processBatch (api : Api) (repositoryName : string)
    (batch : list Contributor) (w : World) : list EmailData * World :=
  match batch with
  | [] => ([], w)
  | c :: rest =>
      let '(r, w1) := processContributor api repositoryName c w in
      let '(rs, w2) := processBatch api repositoryName rest w1 in
      (match r with Some d => d :: rs | None => rs end, w2)
  end.

(** [array.slice(i, j)] *)
Definition slice {A} (i j : nat) (l : list A) : list A :=
  firstn (j - i) (skipn i l).

(** The loop [for (let i = 0; i < contributors.length; i += batchSize)] of
    one page, started at [i]; a fuel of [contributors.length] is never used
    up. *)
Fixpoint processPage (api : Api) (repositoryName : string)
    (cs : list Contributor) (page totalFetched fuel i : nat)
    (emails : list EmailData) (w : World) : list EmailData * World :=
  let batchSize := 5 in
  if i <? List.length cs then
    match fuel with
    | O => (emails, w)
    | S fuel' =>
        let batch := slice i (i + batchSize) cs in
        let '(results, w1) := processBatch api repositoryName batch w in
        let emails1 := (emails ++ results)%list in
        let w2 :=
          emit [Progress "contributors"
                  [("batch", i / batchSize + 1); ("page", page);
                   ("collected", List.length emails1);
                   ("totalFetched", totalFetched)]] w1 in
        processPage api repositoryName cs page totalFetched fuel'
          (i + batchSize) emails1 w2
    end
  else (emails, w).

(** The variables of [collectFromContributors]. *)
Record ContributorsState : Type := mkContributorsState {
  emails : list EmailData;
  page : nat;
  hasMore : bool;
  totalContributorsFetched : nat;
  consecutiveErrors : nat;
  consecutiveEmptyPages : nat;
  world : World
}.

Inductive Step (S : Type) : Type :=
| Continue (st : S)
| Break (st : S)
| Throws (e : Error) (st : S).
Arguments Continue {S}.
Arguments Break {S}.
Arguments Throws {S}.

(** One iteration of [while (hasMore && page <= maxPages)]. *)
Definition contributorsStep (api : Api) (owner repo : string)
    (st : ContributorsState) : Step ContributorsState :=
  let repositoryName := repositoryNameOf owner repo in
  let w0 :=
    countContributorCall (emit [CallContributors (page st) 100] (world st)) in
  match getContributorsWithPagination api (contributorCalls (world st))
          owner repo (page st) 100 with
  | Got pg =>
      if maxPages <=? page st then
        Break {| emails := emails st; page := page st; hasMore := false;
                 totalContributorsFetched := totalContributorsFetched st;
                 consecutiveErrors := consecutiveErrors st;
                 consecutiveEmptyPages := consecutiveEmptyPages st;
                 world := w0 |}
      else
        let cs := match contributors pg with Some l => l | None => [] end in
        let contributorCount := List.length cs in
        let empties :=
          if contributorCount =? 0 then S (consecutiveEmptyPages st) else 0 in
        let fetched :=
          if contributorCount =? 0 then totalContributorsFetched st
          else totalContributorsFetched st + contributorCount in
        let w1 :=
          emit [Progress "contributors"
                  [("page", page st); ("total", contributorCount);
                   ("totalFetched", fetched)]] w0 in
        let '(emails1, w2) :=
          if 0 <? contributorCount
          then processPage api repositoryName cs (page st) fetched
                 contributorCount 0 (emails st) w1
          else (emails st, w1) in
        let stop := maxConsecutiveEmptyPages <=? empties in
        let page1 :=
          if stop then page st
          else if hasNextPage pg then S (page st)
          else if contributorCount =? 0 then S (page st)
          else if contributorCount <? 100 then S (page st)
          else S (page st) in
        Continue {| emails := emails1; page := page1;
                    hasMore := if stop then false else hasMore st;
                    totalContributorsFetched := fetched;
                    consecutiveErrors := 0;
                    consecutiveEmptyPages := empties;
                    world := emit [Sleep 500%Z] w2 |}
  | Failed e =>
      let errors := S (consecutiveErrors st) in
      if includes (message e) "rate limit" then
        Throws e {| emails := emails st; page := page st; hasMore := hasMore st;
                    totalContributorsFetched := totalContributorsFetched st;
                    consecutiveErrors := errors;
                    consecutiveEmptyPages := consecutiveEmptyPages st;
                    world := w0 |}
      else if maxConsecutiveErrors <=? errors then
        Continue {| emails := emails st; page := page st; hasMore := false;
                    totalContributorsFetched := totalContributorsFetched st;
                    consecutiveErrors := errors;
                    consecutiveEmptyPages := consecutiveEmptyPages st;
                    world := w0 |}
      else
        Continue {| emails := emails st; page := page st; hasMore := hasMore st;
                    totalContributorsFetched := totalContributorsFetched st;
                    consecutiveErrors := errors;
                    consecutiveEmptyPages := consecutiveEmptyPages st;
                    world := emit [Sleep 2000%Z] w0 |}
  end.

(** How a pass ends: it returns, it throws, or the fuel of the model runs
    out (which the properties below exclude). *)
Inductive Pass (S : Type) : Type :=
| Finished (st : S)
| Threw (e : Error) (st : S)
| OutOfFuel.
Arguments Finished {S}.
Arguments Threw {S}.
Arguments OutOfFuel {S}.

Fixpoint contributorsLoop (api : Api) (owner repo : string) (fuel : nat)
    (st : ContributorsState) : Pass ContributorsState :=
  if hasMore st && (page st <=? maxPages) then
    match fuel with
    | O => OutOfFuel
    | S fuel' =>
        match contributorsStep api owner repo st with
        | Continue st' => contributorsLoop api owner repo fuel' st'
        | Break st' => Finished st'
        | Throws e st' => Threw e st'
        end
    end
  else Finished st.

Definition contributorsStart (w : World) : ContributorsState :=
  {| emails := []; page := 1; hasMore := true;
     totalContributorsFetched := 0; consecutiveErrors := 0;
     consecutiveEmptyPages := 0;
     world := emit [Progress "contributors" [("page", 1)]] w |}.

(** [collectFromContributors(owner, repo)]; the list it returns is
    [emails] of the final state. *)
Definition collectFromContributors (api : Api) (owner repo : string)
    (w : World) : Pass ContributorsState :=
  contributorsLoop api owner repo (3 * maxPages + 1) (contributorsStart w).

(** *** The commits pass *)

(** [isValidEmail(email)] *)
Definition isValidEmail (email : string) : bool :=
  match email with
  | EmptyString => false
  | _ =>
      negb (anyIncluded (toLowerCase email)
              ["noreply"; "no-reply"; "example"; "test"; "github.com"])
  end.

(** The variables of [collectFromCommits]. *)
Record CommitsState : Type := mkCommitsState {
  commitEmails : list EmailData;
  commitPage : nat;
  commitHasMore : bool;
  totalCommits : nat;
  commitErrors : nat;
  commitWorld : World
}.

(** The body of [for (const commit of commits)], on the part of the page
    that is left; the loop breaks once [maxCommits] commits are counted. *)
Fixpoint processCommits (repositoryName : string) (maxCommits : nat)
    (commits : list Commit) (emails : list EmailData) (total : nat)
    : list EmailData * nat :=
  match commits with
  | [] => (emails, total)
  | commit :: rest =>
      if maxCommits <=? total then (emails, total)
      else
        let found :=
          match commitAuthor commit with
          | Some author =>
              match authorEmail author with
              | Some (String c e) =>
                  let emailData :=
                    {| email := trim (toLowerCase (String c e));
                       name := orElse (authorName author)
                                 (orElse (authorLogin commit) "");
                       username := orElse (authorLogin commit) "";
                       repository := "" |} in
                  if isValidEmail (email emailData)
                  then [setRepository repositoryName emailData]
                  else []
              | _ => []
              end
          | None => []
          end in
        processCommits repositoryName maxCommits rest
          (emails ++ found)%list (S total)
  end.

(** The test for a transient network error in [collectFromCommits]. *)
Definition isTransientError (e : Error) (errorMessage : string) : bool :=
  includes errorMessage "ECONNRESET"
  || includes errorMessage "ETIMEDOUT"
  || includes errorMessage "ENOTFOUND"
  || includes errorMessage "ECONNREFUSED"
  || includes errorMessage "socket hang up"
  || existsb (codeIs (code e)) ["ECONNRESET"; "ETIMEDOUT"; "ENOTFOUND"; "ECONNREFUSED"].

(** [Math.min(2000 * Math.pow(2, consecutiveErrors - 1), 30000)] *)
Definition commitBackoff (errors : nat) : Z :=
  Z.min (2000 * 2 ^ (Z.of_nat errors - 1)) 30000.

(** One iteration of [while (hasMore && totalCommits < maxCommits)]. *)
Definition commitsStep (api : Api) (owner repo : string) (maxCommits : nat)
    (st : CommitsState) : Step CommitsState :=
  let repositoryName := repositoryNameOf owner repo in
  let w0 := countCommitCall (emit [CallCommits (commitPage st)] (commitWorld st)) in
  match getCommits api (commitCalls (commitWorld st)) owner repo (commitPage st) with
  | Got payload =>
      match payload with
      | Some (c :: cs) =>
          let commits := c :: cs in
          let w1 :=
            emit [Progress "commits"
                    [("page", commitPage st); ("total", List.length commits)]] w0 in
          let '(emails1, total1) :=
            processCommits repositoryName maxCommits commits
              (commitEmails st) (totalCommits st) in
          let short := List.length commits <? 100 in
          Continue {| commitEmails := emails1;
                      commitPage := if short then commitPage st
                                    else S (commitPage st);
                      commitHasMore := if short then false else commitHasMore st;
                      totalCommits := total1;
                      commitErrors := 0;
                      commitWorld := emit [Sleep 500%Z] w1 |}
      | _ =>
          Break {| commitEmails := commitEmails st; commitPage := commitPage st;
                   commitHasMore := false; totalCommits := totalCommits st;
                   commitErrors := commitErrors st; commitWorld := w0 |}
      end
  | Failed e =>
      let errors := S (commitErrors st) in
      let errorMessage := orElse (Some (message e)) "Error" in
      if includes errorMessage "rate limit" then
        Throws e {| commitEmails := commitEmails st; commitPage := commitPage st;
                    commitHasMore := commitHasMore st;
                    totalCommits := totalCommits st;
                    commitErrors := errors; commitWorld := w0 |}
      else if maxConsecutiveErrors <=? errors then
        Continue {| commitEmails := commitEmails st; commitPage := commitPage st;
                    commitHasMore := false; totalCommits := totalCommits st;
                    commitErrors := errors; commitWorld := w0 |}
      else if isTransientError e errorMessage then
        Continue {| commitEmails := commitEmails st; commitPage := commitPage st;
                    commitHasMore := commitHasMore st;
                    totalCommits := totalCommits st;
                    commitErrors := errors;
                    commitWorld := emit [Sleep (commitBackoff errors)] w0 |}
      else
        Continue {| commitEmails := commitEmails st;
                    commitPage := S (commitPage st);
                    commitHasMore := commitHasMore st;
                    totalCommits := totalCommits st;
                    commitErrors := errors;
                    commitWorld := emit [Sleep 2000%Z] w0 |}
  end.

Fixpoint commitsLoop (api : Api) (owner repo : string) (maxCommits fuel : nat)
    (st : CommitsState) : Pass CommitsState :=
  if commitHasMore st && (totalCommits st <? maxCommits) then
    match fuel with
    | O => OutOfFuel
    | S fuel' =>
        match commitsStep api owner repo maxCommits st with
        | Continue st' => commitsLoop api owner repo maxCommits fuel' st'
        | Break st' => Finished st'
        | Throws e st' => Threw e st'
        end
    end
  else Finished st.

Definition commitsStart (w : World) : CommitsState :=
  {| commitEmails := []; commitPage := 1; commitHasMore := true;
     totalCommits := 0; commitErrors := 0;
     commitWorld := emit [Progress "commits" [("page", 1)]] w |}.

(** [collectFromCommits(owner, repo, maxCommits)]; the list it returns is
    [commitEmails] of the final state. *)
Definition collectFromCommits (api : Api) (owner repo : string)
    (maxCommits : nat) (w : World) : Pass CommitsState :=
  commitsLoop api owner repo maxCommits (3 * maxCommits + 1) (commitsStart w).

(** *** The merge *)

(** A [Map] keyed by address: its entries in insertion order. *)
Definition EmailMap : Type := list (string * EmailData).

Fixpoint mapHas (key : string) (m : EmailMap) : bool :=
  match m with
  | [] => false
  | (k, _) :: rest => String.eqb k key || mapHas key rest
  end.

(** [emailMap.set(key, value)]: an existing entry keeps its place and gets
    the new value, a new entry goes to the end. *)
Fixpoint mapSet (key : string) (value : EmailData) (m : EmailMap) : EmailMap :=
  match m with
  | [] => [(key, value)]
  | (k, v) :: rest =>
      if String.eqb k key then (k, value) :: rest
      else (k, v) :: mapSet key value rest
  end.

(** [Array.from(emailMap.values())] *)
Definition mapValues (m : EmailMap) : list EmailData := map snd m.

(** [contributorEmails.forEach(email => emailMap.set(email.email, email))] *)
Definition addContributorEmails (contributorEmails : list EmailData)
    (m : EmailMap) : EmailMap :=
  fold_left (fun acc d => mapSet (email d) d acc) contributorEmails m.

(** [commitEmails.forEach(email => { if (!emailMap.has(email.email))
    emailMap.set(email.email, email); })] *)
Definition addCommitEmails (commitEmails : list EmailData)
    (m : EmailMap) : EmailMap :=
  fold_left (fun acc d => if mapHas (email d) acc then acc
                          else mapSet (email d) d acc)
    commitEmails m.

(** *** [collectFromRepository] *)

Record Options : Type := mkOptions {
  includeContributors : option bool;
  includeCommits : option bool;
  maxCommits : option nat
}.

(** [options.x !== false] *)
Definition notFalse (v : option bool) : bool :=
  match v with
  | Some false => false
  | _ => true
  end.

(** [n || d] for a count. *)
Definition natOr (v : option nat) (d : nat) : nat :=
  match v with
  | Some (S n) => S n
  | _ => d
  end.

(** How an [undefined] value is printed inside a template literal. *)
Definition printed (v : option string) : string :=
  match v with
  | Some s => s
  | None => "undefined"
  end.

(** What a run has gathered when it turns to the record store:
    [allEmails], [validEmails] and the final world. *)
Record Collected : Type := mkCollected {
  repositoryName : string;
  allEmails : list EmailData;
  validEmails : list EmailData;
  finalWorld : World
}.

Inductive Run : Type :=
| Completed (c : Collected)
| Rejected (e : Error)
| Stuck.

(** The contributors part of [collectFromRepository], with its
    [try]/[catch]. *)
Definition contributorsPart (api : Api) (owner repo : string) (w : World)
    : option (EmailMap * list EmailData * World) :=
  match collectFromContributors api owner repo w with
  | Finished st =>
      let emailMap := addContributorEmails (emails st) [] in
      let allEmails := mapValues emailMap in
      Some (emailMap, allEmails,
            emit [Progress "contributors-complete"
                    [("found", List.length (emails st));
                     ("collected", List.length allEmails)]] (world st))
  | Threw e st => Some ([], [], emit [Progress "error" []] (world st))
  | OutOfFuel => None
  end.

(** The commits part, with its [try]/[catch]. *)
Definition commitsPart (api : Api) (owner repo : string) (limit : nat)
    (emailMap : EmailMap) (allEmails : list EmailData) (w : World)
    : option (EmailMap * list EmailData * World) :=
  match collectFromCommits api owner repo limit w with
  | Finished st =>
      let emailMap1 := addCommitEmails (commitEmails st) emailMap in
      let allEmails1 := mapValues emailMap1 in
      Some (emailMap1, allEmails1,
            emit [Progress "commits-complete"
                    [("found", List.length (commitEmails st));
                     ("collected", List.length allEmails1)]] (commitWorld st))
  | Threw e st => Some (emailMap, allEmails, emit [Progress "error" []] (commitWorld st))
  | OutOfFuel => None
  end.

(** [collectFromRepository(repoInput, options)] up to the point where the
    valid addresses are handed to the record store. *)
Definition collectFromRepository (api : Api) (repoInput : string)
    (options : Options) : Run :=
  match Repo.parseRepository repoInput with
  | Repo.Invalid e => Rejected e
  | Repo.Parts owner repo =>
      let owner := printed owner in
      let repo := printed repo in
      let w0 := emit [Progress "start" []] newWorld in
      let afterContributors :=
        if notFalse (includeContributors options)
        then contributorsPart api owner repo w0
        else Some ([], [], w0) in
      match afterContributors with
      | None => Stuck
      | Some (emailMap, allEmails, w1) =>
          let afterCommits :=
            if notFalse (includeCommits options)
            then commitsPart api owner repo (natOr (maxCommits options) 1000)
                   emailMap allEmails w1
            else Some (emailMap, allEmails, w1) in
          match afterCommits with
          | None => Stuck
          | Some (_, allEmails2, w2) =>
              let valid :=
                filter (fun d => filterInvalidEmails (Some (email d))) allEmails2 in
              Completed
                {| repositoryName := repositoryNameOf owner repo;
                   allEmails := allEmails2;
                   validEmails := valid;
                   finalWorld :=
                     emit [Progress "filtering" [("collected", List.length valid)];
                           Progress "saving" [("count", List.length valid)]] w2 |}
          end
      end
  end.

(** Why the contributors pass has stopped. *)
Definition stopReason (st : ContributorsState) : Prop :=
  consecutiveEmptyPages st = maxConsecutiveEmptyPages
  \/ page st = maxPages
  \/ consecutiveErrors st = maxConsecutiveErrors.

(** What holds of the variables of the pass at the head of its loop. *)
Definition passInvariant (st : ContributorsState) : Prop :=
  page st <= maxPages
  /\ (hasMore st = true ->
      consecutiveEmptyPages st < maxConsecutiveEmptyPages
      /\ consecutiveErrors st < maxConsecutiveErrors)
  /\ (hasMore st = false -> stopReason st).

(** A bound on the number of iterations that are left. *)
Definition passMeasure (st : ContributorsState) : nat :=
  if hasMore st
  then 3 * (S maxPages - page st) - consecutiveErrors st
  else 0.

(** A bound on the number of iterations of the commits pass that are
    left. *)
Definition commitsMeasure (limit : nat) (st : CommitsState) : nat :=
  if commitHasMore st
  then 3 * (limit - totalCommits st) - commitErrors st
  else 0.

(** [contributors?.length || 0] *)
Definition contributorCountOf (pg : Page) : nat :=
  match contributors pg with
  | Some l => List.length l
  | None => 0
  end.

(** [emailMap.get(key)] *)
Fixpoint mapGet (key : string) (m : EmailMap) : option EmailData :=
  match m with
  | [] => None
  | (k, v) :: rest => if String.eqb k key then Some v else mapGet key rest
  end.

(** [email.toLowerCase().trim()] *)
Definition normalize (address : string) : string := trim (toLowerCase address).

(** A record whose address is in normal form. *)
Definition normalized (d : EmailData) : Prop := normalize (email d) = email d.

(** A map in which every record sits under its own address. *)
Definition keyed (m : EmailMap) : Prop :=
  Forall (fun kv => email (snd kv) = fst kv) m.

(** The record of a list that has a given address: the first one, and the
    last one. *)
Definition firstWith (key : string) (l : list EmailData) : option EmailData :=
  find (fun d => String.eqb (email d) key) l.

Definition lastWith (key : string) (l : list EmailData) : option EmailData :=
  find (fun d => String.eqb (email d) key) (rev l).

(** What holds of [emailMap] and [allEmails] throughout a run. *)
Definition merged (m : EmailMap) (all : list EmailData) : Prop :=
  all = mapValues m
  /\ NoDup (map fst m)
  /\ keyed m
  /\ Forall normalized all.

(** The pages of a trace that were asked of the contributors endpoint and
    of the commits endpoint. *)
Definition contributorPagesOf (tr : list Event) : list nat :=
  flat_map (fun ev => match ev with CallContributors p _ => [p] | _ => [] end) tr.

Definition commitPagesOf (tr : list Event) : list nat :=
  flat_map (fun ev => match ev with CallCommits p => [p] | _ => [] end) tr.

(** The logins of a trace that were looked up. *)
Definition usersOf (tr : list Event) : list string :=
  flat_map (fun ev => match ev with CallUser l => [l] | _ => [] end) tr.

(** Between two worlds the commits endpoint was not called. *)
Definition commitsUntouched (w w' : World) : Prop :=
  commitCalls w' = commitCalls w
  /\ commitPagesOf (trace w') = commitPagesOf (trace w).

(** Between two worlds neither the contributors endpoint nor the users
    endpoint was called. *)
Definition contributorsUntouched (w w' : World) : Prop :=
  contributorCalls w' = contributorCalls w
  /\ userCalls w' = userCalls w
  /\ contributorPagesOf (trace w') = contributorPagesOf (trace w)
  /\ usersOf (trace w') = usersOf (trace w).

(** Page numbers in which each one is the one before it or the next one;
    [prev] stands before the first. *)
Fixpoint stepwise (prev : nat) (pages : list nat) : Prop :=
  match pages with
  | [] => True
  | p :: rest => (p = prev \/ p = S prev) /\ stepwise p rest
  end.

(** Pages asked in order: nothing, or page 1 first and then stepwise. *)
Definition inOrder (pages : list nat) : Prop :=
  match pages with
  | [] => True
  | p :: rest => p = 1 /\ stepwise 1 rest
  end.

(** What is said of a record of the commits pass. *)
Definition commitRecord (repositoryName : string) (d : EmailData) : Prop :=
  isValidEmail (email d) = true /\ repository d = repositoryName.

(** What is said of a record of the contributors pass. *)
Definition contributorRecord (repositoryName : string) (d : EmailData) : Prop :=
  filterInvalidEmails (Some (email d)) = true /\ repository d = repositoryName.

(** The loop [while (hasMore && page <= maxPages)] of the contributors pass,
    told without fuel: from the variables at the head of the loop to the way
    the pass ends. The loop is left when its condition fails, at a [break],
    or by an error that is thrown; otherwise the next iteration starts from
    what the last one has left. *)
Inductive contributorsRun (api : Api) (owner repo : string)
    : ContributorsState -> Pass ContributorsState -> Prop :=
| RunExit (st : ContributorsState) :
    hasMore st && (page st <=? maxPages) = false ->
    contributorsRun api owner repo st (Finished st)
| RunContinue (st st' : ContributorsState) (r : Pass ContributorsState) :
    hasMore st && (page st <=? maxPages) = true ->
    contributorsStep api owner repo st = Continue st' ->
    contributorsRun api owner repo st' r ->
    contributorsRun api owner repo st r
| RunBreak (st st' : ContributorsState) :
    hasMore st && (page st <=? maxPages) = true ->
    contributorsStep api owner repo st = Break st' ->
    contributorsRun api owner repo st (Finished st')
| RunThrow (st st' : ContributorsState) (e : Error) :
    hasMore st && (page st <=? maxPages) = true ->
    contributorsStep api owner repo st = Throws e st' ->
    contributorsRun api owner repo st (Threw e st').

End Collector.

(** ** [EmailSender]: template rendering and the bulk dispatcher *)

Module Sender.
Import JS.
Local Open Scope nat_scope.

(** *** [renderTemplate] *)

(** The [variables] object: its own keys in insertion order, each with its
    value ([None] for [undefined] or [null]). *)
Definition Variables : Type := list (string * option string).

(** The text of [`{{${key}}}`], from which [new RegExp(..., 'g')] is built.
    For a key made of letters, such as the four keys of the dispatcher, the
    regular expression matches exactly this text, and this is how the text
    is used below; a key with a character that has a meaning of its own in a
    regular expression (a digit after the braces, a dot, a parenthesis) is
    outside what is modelled here. *)
Definition placeholder (key : string) : string := "{{" ++ key ++ "}}".

(** The replacement text of [String.prototype.replace] for a pattern without
    capture groups: [$$] is a dollar sign, [$&] the matched text, [$`] the
    part of the subject before the match and [$'] the part after it; every
    other character stands for itself. *)
Fixpoint expand (replacement matched before after : string) : string :=
  match replacement with
  | EmptyString => EmptyString
  | String c r =>
      if Ascii.eqb c "$" then
        match r with
        | String d r' =>
            if Ascii.eqb d "$" then String "$" (expand r' matched before after)
            else if Ascii.eqb d "&" then matched ++ expand r' matched before after
            else if Ascii.eqb d "`" then before ++ expand r' matched before after
            else if Ascii.eqb d "'" then after ++ expand r' matched before after
            else String c (expand r matched before after)
        | EmptyString => String c EmptyString
        end
      else String c (expand r matched before after)
  end.

(** Left-to-right scan of [s.replace(new RegExp(p, 'g'), replacement)] for a
    literal, non-empty [p]; [before] is the part of the subject already
    scanned. Each step consumes at least one character, so a fuel above the
    length of [s] is never used up. *)
Fixpoint replaceLoop (fuel : nat) (p replacement before s : string) : string :=
  match fuel with
  | O => s
  | S fuel' =>
      match stripPrefix p s with
      | Some after =>
          expand replacement p before after
            ++ replaceLoop fuel' p replacement (before ++ p) after
      | None =>
          match s with
          | EmptyString => EmptyString
          | String c s' =>
              String c (replaceLoop fuel' p replacement
                          (before ++ String c EmptyString) s')
          end
      end
  end.

Definition replaceAll (p replacement s : string) : string :=
  replaceLoop (S (String.length s)) p replacement EmptyString s.

(** [renderTemplate(template, variables)], for variables whose keys are made
    of letters (see [placeholder]): the keys are taken in the order of the
    object, which for such keys is the order of insertion. *)
Definition renderTemplate (template : string) (variables : Variables) : string :=
  fold_left
    (fun rendered kv =>
       replaceAll (placeholder (fst kv)) (orElse (snd kv) "") rendered)
    variables template.

(** A template seen as text pieces and placeholders. *)
Inductive Segment : Type :=
| Lit (s : string)
| Hole (key : string).

Fixpoint flatten (t : list Segment) : string :=
  match t with
  | [] => EmptyString
  | Lit s :: rest => s ++ flatten rest
  | Hole key :: rest => placeholder key ++ flatten rest
  end.

(** Text in which an opening brace is always followed by a character that
    is not an opening brace. *)
Fixpoint plainText (s : string) : bool :=
  match s with
  | EmptyString => true
  | String c s' =>
      (if Ascii.eqb c "{"
       then match s' with
            | EmptyString => false
            | String d _ => negb (Ascii.eqb d "{")
            end
       else true)
      && plainText s'
  end.

(** No brace at all. *)
Fixpoint braceFree (s : string) : bool :=
  match s with
  | EmptyString => true
  | String c s' =>
      negb (Ascii.eqb c "{") && negb (Ascii.eqb c "}") && braceFree s'
  end.

(** No dollar sign. *)
Fixpoint dollarFree (s : string) : bool :=
  match s with
  | EmptyString => true
  | String c s' => negb (Ascii.eqb c "$") && dollarFree s'
  end.

(** An ASCII letter. *)
Definition isLetter (c : ascii) : bool :=
  let n := nat_of_ascii c in
  ((65 <=? n) && (n <=? 90)) || ((97 <=? n) && (n <=? 122)).

Fixpoint letters (s : string) : bool :=
  match s with
  | EmptyString => true
  | String c s' => isLetter c && letters s'
  end.

(** A key made of letters, and of at least one. *)
Definition letterKey (key : string) : bool :=
  match key with
  | EmptyString => false
  | String _ _ => letters key
  end.

Definition wfSegment (seg : Segment) : bool :=
  match seg with
  | Lit s => plainText s
  | Hole key => braceFree key
  end.

(** A variable whose key is made of letters and whose value has no dollar
    sign and no two opening braces in a row. *)
Definition wfBinding (kv : string * option string) : bool :=
  letterKey (fst kv)
  && plainText (orElse (snd kv) "")
  && dollarFree (orElse (snd kv) "").

(** [variables[key]] with the distinction between a key that is absent and
    a key whose value is missing. *)
Fixpoint lookupVar (key : string) (variables : Variables) : option (option string) :=
  match variables with
  | [] => None
  | (k, v) :: rest => if String.eqb k key then Some v else lookupVar key rest
  end.

(** What a placeholder becomes: the value of its key, the empty text when
    the value is missing, itself when the key is not in [variables]. *)
Definition fill (variables : Variables) (seg : Segment) : Segment :=
  match seg with
  | Lit s => Lit s
  | Hole key =>
      match lookupVar key variables with
      | Some v => Lit (orElse v "")
      | None => Hole key
      end
  end.

(** What the replacement of one key does to a placeholder. *)
Definition fillOne (key v : string) (seg : Segment) : Segment :=
  match seg with
  | Lit s => Lit s
  | Hole key' => if String.eqb key key' then Lit v else Hole key'
  end.

(** *** [sendEmail] and [sendBulkEmails] *)

(** An element of the [emails] array: an address, or an object with the
    fields [email], [name], [username] and [repository]. *)
Record Contact : Type := mkContact {
  contactEmail : option string;
  contactName : option string;
  contactUsername : option string;
  contactRepository : option string
}.

Inductive EmailItem : Type :=
| Address (s : string)
| Entry (o : Contact).

(** The value of [emailItem.email || emailItem]. *)
Inductive Addr : Type :=
| AddrText (s : string)
| AddrObject (o : Contact).

Record MailOptions : Type := mkMailOptions {
  from : string;
  to : string;
  subject : string;
  html : string;
  attachments : list string;
  text : option string
}.

(** What [transporter.sendMail] does: it resolves with [info] or rejects. *)
Inductive SendMailResult : Type :=
| Delivered (messageId response : option string)
| Refused (e : Error).

(** The outside world of a sender: its formatted [from] field, the result of
    [transporter.verify()] ([None] when the connection is fine, the message
    of the error otherwise) and the result of the [n]-th call of
    [transporter.sendMail] (counted from 0). *)
Record Env : Type := mkEnv {
  sender : string;
  verifyError : option string;
  sendMail : nat -> MailOptions -> SendMailResult
}.

(** One element of [results.sent] or [results.failed]. *)
Record Outcome : Type := mkOutcome {
  email : Addr;
  success : bool;
  messageId : option string;
  response : option string;
  error : option string;
  errorCode : option string
}.

(** The text of a progress event, up to its numbers. *)
Inductive Message : Type :=
| Verifying
| Verified
| VerifyFailed (errorMsg : string)
| Starting
| SendingBatch (batchNumber totalBatches first last : nat)
| BatchComplete (batchNumber : nat)
| Completed.

(** Effects of a dispatch. A progress event carries [sent], [failed] and
    [total]; its [percentage] is a rounded floating-point quotient and is
    left out. [Settled] marks the point where
    [await Promise.all(promises)] yields the results of a batch. *)
Inductive Event : Type :=
| Progress (message : Message) (sent failed total : nat)
| Mail (n : nat) (options : MailOptions)
| Settled (batchResults : list Outcome)
| Sleep (ms : nat)
| Close.

Record Options : Type := mkOptions {
  batchSize : option nat;
  delay : option nat;
  optAttachments : option (list string)
}.

(** [results] together with the number of mails handed to the transport and
    the trace. *)
Record State : Type := mkState {
  sent : list Outcome;
  failed : list Outcome;
  mails : nat;
  trace : list Event
}.

Record Summary : Type := mkSummary {
  summarySent : list Outcome;
  summaryFailed : list Outcome;
  total : nat
}.

Inductive Result : Type :=
| Returned (r : Summary) (tr : list Event)
| Thrown (e : Error) (tr : list Event)
| Diverged.

(** [n || d] for a count. *)
Definition natOr (v : option nat) (d : nat) : nat :=
  match v with
  | Some (S n) => S n
  | _ => d
  end.

(** The error text [sendEmail] reports for an error code. *)
Definition describe (e : Error) : string :=
  if codeIs (code e) "EAUTH"
  then "Authentication failed. Check your SMTP credentials."
  else if codeIs (code e) "ECONNECTION"
  then "Connection failed. Check your SMTP settings and network connection."
  else if codeIs (code e) "ETIMEDOUT"
  then "Connection timeout. Check your network connection and firewall settings."
  else if codeIs (code e) "ECONNREFUSED"
  then "Connection refused. Check if SMTP host and port are correct."
  else if codeIs (code e) "ENOTFOUND"
  then "SMTP host not found. Please verify the hostname is correct."
  else message e.

(** [sendEmail(to, subject, html, text, attachments)]: it never throws. *)
Definition sendEmail (env : Env) (n : nat) (addr subj body : string)
    (txt : option string) (atts : list string) : MailOptions * Outcome :=
  let mailOptions :=
    {| from := sender env; to := addr; subject := subj; html := body;
       attachments := atts;
       text := if truthy txt then txt else None |} in
  (mailOptions,
   match sendMail env n mailOptions with
   | Delivered mid resp =>
       {| email := AddrText addr; success := true;
          messageId := mid; response := resp;
          error := None; errorCode := None |}
   | Refused e =>
       {| email := AddrText addr; success := false;
          messageId := None; response := None;
          error := Some (describe e); errorCode := code e |}
   end).

Definition emailAddressOf (item : EmailItem) : Addr :=
  match item with
  | Address s => AddrText s
  | Entry o =>
      match contactEmail o with
      | Some (String c s) => AddrText (String c s)
      | _ => AddrObject o
      end
  end.

Definition fieldsOf (item : EmailItem) : Contact :=
  match item with
  | Address _ => mkContact None None None None
  | Entry o => o
  end.

(** The variables handed to [renderTemplate] for one recipient. *)
Definition variablesOf (addr : string) (item : EmailItem) : Variables :=
  let o := fieldsOf item in
  [ ("email", Some addr);
    ("name", Some (orElse (contactName o) (orElse (contactUsername o) "Contributor")));
    ("username", Some (orElse (contactUsername o) ""));
    ("repository", Some (orElse (contactRepository o) "")) ].

Definition invalidAddress (a : Addr) : Outcome :=
  {| email := a; success := false; messageId := None; response := None;
     error := Some "Invalid email address"; errorCode := None |}.

(** The body of [batch.map(async (emailItem) => ...)] for one element; [n]
    is the number of mails handed to the transport so far. *)
Definition sendItem (env : Env) (subj htmlTemplate : string)
    (textTemplate : option string) (opts : Options) (n : nat)
    (item : EmailItem) : Outcome * nat * list Event :=
  match emailAddressOf item with
  | AddrText EmptyString => (invalidAddress (AddrText "unknown"), n, [])
  | AddrObject o => (invalidAddress (AddrObject o), n, [])
  | AddrText addr =>
      let variables := variablesOf addr item in
      let body := renderTemplate htmlTemplate variables in
      let txt :=
        match textTemplate with
        | Some (String c t) => Some (renderTemplate (String c t) variables)
        | _ => None
        end in
      let '(mailOptions, result) :=
        sendEmail env n addr subj body txt
          (match optAttachments opts with Some a => a | None => [] end) in
      (result, S n, [Mail n mailOptions])
  end.

(** All elements of a batch, in order. *)
Fixpoint sendBatch (env : Env) (subj htmlTemplate : string)
    (textTemplate : option string) (opts : Options) (n : nat)
    (batch : list EmailItem) : list Outcome * nat * list Event :=
  match batch with
  | [] => ([], n, [])
  | item :: rest =>
      let '(r, n1, ev1) := sendItem env subj htmlTemplate textTemplate opts n item in
      let '(rs, n2, ev2) := sendBatch env subj htmlTemplate textTemplate opts n1 rest in
      (r :: rs, n2, (ev1 ++ ev2)%list)
  end.

(** [array.slice(i, j)] *)
Definition slice {A} (i j : nat) (l : list A) : list A :=
  firstn (j - i) (skipn i l).

(** [batchResults.forEach(result => ...)] *)
Definition collect (batchResults : list Outcome) (st : State) : State :=
  fold_left
    (fun acc r =>
       if success r
       then {| sent := (sent acc ++ [r])%list; failed := failed acc;
               mails := mails acc; trace := trace acc |}
       else {| sent := sent acc; failed := (failed acc ++ [r])%list;
               mails := mails acc; trace := trace acc |})
    batchResults st.

Definition emit (events : list Event) (st : State) : State :=
  {| sent := sent st; failed := failed st; mails := mails st;
     trace := (trace st ++ events)%list |}.

Definition setMails (n : nat) (st : State) : State :=
  {| sent := sent st; failed := failed st; mails := n; trace := trace st |}.

(** [Math.ceil(a / b)] for positive [b]. *)
Definition ceilDiv (a b : nat) : nat := (a + b - 1) / b.

(** The loop [for (let i = 0; i < emails.length; i += batchSize)], started
    at [i]. *)
Fixpoint batchLoop (env : Env) (emails : list EmailItem) (subj htmlTemplate : string)
    (textTemplate : option string) (opts : Options) (fuel i : nat)
    (st : State) : option State :=
  let size := natOr (batchSize opts) 5 in
  let wait := natOr (delay opts) 1000 in
  let len := List.length emails in
  if i <? len then
    match fuel with
    | O => None
    | S fuel' =>
        let batch := slice i (i + size) emails in
        let batchNumber := i / size + 1 in
        let st1 :=
          emit [Progress (SendingBatch batchNumber (ceilDiv len size)
                            (i + 1) (Nat.min (i + size) len))
                  (List.length (sent st)) (List.length (failed st)) len] st in
        let '(batchResults, n, events) :=
          sendBatch env subj htmlTemplate textTemplate opts (mails st1) batch in
        let st2 := emit (events ++ [Settled batchResults])%list (setMails n st1) in
        let st3 := collect batchResults st2 in
        let st4 :=
          emit [Progress (BatchComplete batchNumber)
                  (List.length (sent st3)) (List.length (failed st3)) len] st3 in
        let st5 := if i + size <? len then emit [Sleep wait] st4 else st4 in
        batchLoop env emails subj htmlTemplate textTemplate opts fuel' (i + size) st5
    end
  else Some st.

(** [sendBulkEmails(emails, subject, htmlTemplate, textTemplate, options)] *)
Definition sendBulkEmails (env : Env) (emails : list EmailItem)
    (subj htmlTemplate : string) (textTemplate : option string)
    (opts : Options) : Result :=
  let len := List.length emails in
  let st0 :=
    {| sent := []; failed := []; mails := 0;
       trace := [Progress Verifying 0 0 len] |} in
  match verifyError env with
  | Some msg =>
      let errorMsg := "Failed to verify SMTP connection: " ++ msg in
      Thrown (newError errorMsg)
        (trace (emit [Progress (VerifyFailed errorMsg) 0 0 len] st0))
  | None =>
      let st1 := emit [Progress Verified 0 0 len; Progress Starting 0 0 len] st0 in
      match batchLoop env emails subj htmlTemplate textTemplate opts len 0 st1 with
      | Some st2 =>
          let st3 :=
            emit [Progress Completed (List.length (sent st2))
                    (List.length (failed st2)) len; Close] st2 in
          Returned {| summarySent := sent st3; summaryFailed := failed st3;
                      total := len |} (trace st3)
      | None => Diverged
      end
  end.

(** The results of the batches of a trace, the timers, and the mails. *)
Definition batchesOf (tr : list Event) : list (list Outcome) :=
  flat_map (fun ev => match ev with Settled rs => [rs] | _ => [] end) tr.

Definition sleepsOf (tr : list Event) : list nat :=
  flat_map (fun ev => match ev with Sleep ms => [ms] | _ => [] end) tr.

(** The outcomes of a list of elements handled one after the other, and the
    number of mails handed to the transport afterwards. *)
Definition outcomesFrom (env : Env) (subj htmlTemplate : string)
    (textTemplate : option string) (opts : Options) (n : nat)
    (items : list EmailItem) : list Outcome :=
  fst (fst (sendBatch env subj htmlTemplate textTemplate opts n items)).

Definition mailsAfter (env : Env) (subj htmlTemplate : string)
    (textTemplate : option string) (opts : Options) (n : nat)
    (items : list EmailItem) : nat :=
  snd (fst (sendBatch env subj htmlTemplate textTemplate opts n items)).

(** A list of batches of a fixed size: every batch but the last has exactly
    [size] elements, the last one has between 1 and [size]. *)
Fixpoint chunked {A} (size : nat) (batches : list (list A)) : Prop :=
  match batches with
  | [] => True
  | b :: more =>
      match more with
      | [] => 1 <= List.length b <= size
      | _ :: _ => List.length b = size
      end /\ chunked size more
  end.

(** The [email] field of the outcome of an element. *)
Definition outcomeAddr (item : EmailItem) : Addr :=
  match emailAddressOf item with
  | AddrText EmptyString => AddrText "unknown"
  | a => a
  end.

(** The mails of a trace, each with its number. *)
Definition mailsOf (tr : list Event) : list (nat * MailOptions) :=
  flat_map (fun ev => match ev with Mail n m => [(n, m)] | _ => [] end) tr.

(** The elements of a list that have an address, each with its address and
    the body rendered for it. *)
Definition deliveries (htmlTemplate : string) (emails : list EmailItem)
    : list (string * string) :=
  flat_map
    (fun item =>
       match emailAddressOf item with
       | AddrText (String c a) =>
           [(String c a,
             renderTemplate htmlTemplate (variablesOf (String c a) item))]
       | _ => []
       end)
    emails.



(** A progress event of a dispatch of [len] elements: it reports [len] as
    the total and no more than [len] elements as handled. *)
Definition progressOk (len : nat) (ev : Event) : Prop :=
  match ev with
  | Progress _ s f t => t = len /\ s + f <= len
  | _ => True
  end.

End Sender.

(** ** [EmailCollector.saveEmails] and the end of a run *)

Module Persist.
Import JS Filter.
Local Open Scope nat_scope.

(** An error of the record store: its message and, when it has a numeric
    one, its code (11000 for a duplicate key). *)
Record StoreError : Type := mkStoreError {
  storeMessage : string;
  storeCode : option Z
}.

(** What [Email.findOne] does: it resolves with a document, with [null], or
    it rejects. *)
Inductive Lookup : Type :=
| Found
| NotFound
| LookupFailed (e : StoreError).

(** The record store as the collector sees it. Each operation gets the
    number of earlier operations, so that an operation may be answered
    differently each time. *)
Record Store : Type := mkStore {
  findOne : nat -> string -> Lookup;
  save : nat -> EmailData -> option StoreError;
  findOneAndUpdate : nat -> string -> nat -> option StoreError
}.

Inductive Event : Type :=
| FindOne (address : string)
| Save (d : EmailData)
| Upsert (repositoryName : string) (totalEmails : nat).

(** The number of store operations made so far, and their log. *)
Record State : Type := mkState {
  ops : nat;
  log : list Event
}.

Definition start : State := {| ops := 0; log := [] |}.

Definition record (ev : Event) (st : State) : State :=
  {| ops := S (ops st); log := (log st ++ [ev])%list |}.

(** [{ saved, duplicates, errors }]; a saved document stands for the record
    it was made of. *)
Record SaveResult : Type := mkSaveResult {
  saved : list EmailData;
  duplicates : list string;
  errors : list (string * string)
}.

Definition pushSaved (d : EmailData) (r : SaveResult) : SaveResult :=
  {| saved := (saved r ++ [d])%list; duplicates := duplicates r; errors := errors r |}.

Definition pushDuplicate (address : string) (r : SaveResult) : SaveResult :=
  {| saved := saved r; duplicates := (duplicates r ++ [address])%list;
     errors := errors r |}.

Definition pushError (address message : string) (r : SaveResult) : SaveResult :=
  {| saved := saved r; duplicates := duplicates r;
     errors := (errors r ++ [(address, message)])%list |}.

(** [error.code === 11000] *)
Definition isDuplicateKey (e : StoreError) : bool :=
  match storeCode e with
  | Some c => Z.eqb c 11000
  | None => false
  end.

(** The [catch] block of the loop. *)
Definition caught (d : EmailData) (e : StoreError) (r : SaveResult) : SaveResult :=
  if isDuplicateKey e then pushDuplicate (email d) r
  else pushError (email d) (storeMessage e) r.

(** The loop [for (const emailData of emailList)]. *)
Fixpoint saveLoop (store : Store) (emailList : list EmailData)
    (r : SaveResult) (st : State) : SaveResult * State :=
  match emailList with
  | [] => (r, st)
  | emailData :: rest =>
      let st1 := record (FindOne (email emailData)) st in
      match findOne store (ops st) (email emailData) with
      | Found => saveLoop store rest (pushDuplicate (email emailData) r) st1
      | LookupFailed e => saveLoop store rest (caught emailData e r) st1
      | NotFound =>
          let st2 := record (Save emailData) st1 in
          match save store (ops st1) emailData with
          | None => saveLoop store rest (pushSaved emailData r) st2
          | Some e => saveLoop store rest (caught emailData e r) st2
          end
      end
  end.

(** [saveEmails(emailList)] *)
Definition saveEmails (store : Store) (emailList : list EmailData) (st : State)
    : SaveResult * State :=
  saveLoop store emailList {| saved := []; duplicates := []; errors := [] |} st.

(** What [collectFromRepository] returns. *)
Record Report : Type := mkReport {
  reportRepository : string;
  totalCollected : nat;
  reportValidEmails : nat;
  reportSaved : nat;
  reportDuplicates : nat;
  reportErrors : nat;
  reportEmails : list EmailData
}.

Inductive Failure : Type :=
| InvalidInput (e : Error)
| StoreFailure (e : StoreError).

Inductive Outcome : Type :=
| Returned (r : Report) (w : Collector.World) (st : State)
| Rejected (f : Failure)
| Stuck.

(** [collectFromRepository(repoInput, options)] as a whole: the collection,
    then [saveEmails], the update of the repository record, the last
    progress event and the report. An error of the update is not caught. *)
Definition collectFromRepository (api : Collector.Api) (store : Store)
    (repoInput : string) (options : Collector.Options) : Outcome :=
  match Collector.collectFromRepository api repoInput options with
  | Collector.Rejected e => Rejected (InvalidInput e)
  | Collector.Stuck => Stuck
  | Collector.Completed c =>
      let validEmails := Collector.validEmails c in
      let '(result, st1) := saveEmails store validEmails start in
      let st2 :=
        record (Upsert (Collector.repositoryName c) (List.length validEmails)) st1 in
      match findOneAndUpdate store (ops st1) (Collector.repositoryName c)
              (List.length validEmails) with
      | Some e => Rejected (StoreFailure e)
      | None =>
          Returned
            {| reportRepository := Collector.repositoryName c;
               totalCollected := List.length (Collector.allEmails c);
               reportValidEmails := List.length validEmails;
               reportSaved := List.length (saved result);
               reportDuplicates := List.length (duplicates result);
               reportErrors := List.length (errors result);
               reportEmails := saved result |}
            (Collector.emit
               [Collector.Progress "complete"
                  [("saved", List.length (saved result));
                   ("duplicates", List.length (duplicates result))]]
               (Collector.finalWorld c))
            st2
      end
  end.

(** The addresses that were looked up, and the records handed to [save]. *)
Definition lookupsOf (l : list Event) : list string :=
  flat_map (fun ev => match ev with FindOne a => [a] | _ => [] end) l.

Definition savesOf (l : list Event) : list EmailData :=
  flat_map (fun ev => match ev with Save d => [d] | _ => [] end) l.

End Persist.

(** ** [routes/send.js]: the sender type and the list handed to the dispatcher *)

Module Route.
Import JS Filter Sender.
Local Open Scope nat_scope.

(** [detectSender(smtpConfig)], as a function of [smtpConfig.host]. *)
Definition detectSender (smtpHost : option string) : string :=
  let host := toLowerCase (orElse smtpHost "") in
  if includes host "outlook" || includes host "office365" || includes host "hotmail"
  then "outlook"
  else if includes host "gmail" || includes host "google"
  then "gmail"
  else "gmail".

(** The values of the [enum] of the [sender] fields of the schemas. *)
Definition senderEnum : list string := ["outlook"; "gmail"].

(** [typeof e === 'string' ? e.trim() : (e.email || '').trim()] for an
    element of [customEmails]. *)
Definition customAddress (e : EmailItem) : string :=
  match e with
  | Address s => trim s
  | Entry o => trim (orElse (contactEmail o) "")
  end.

(** [{ email: e, name: '', username: '', repository: 'custom' }] *)
Definition customEntry (e : string) : EmailItem :=
  Entry {| contactEmail := Some e; contactName := Some "";
           contactUsername := Some ""; contactRepository := Some "custom" |}.

(** The list made of [customEmails]: the addresses, trimmed, those that are
    not empty and pass [filterInvalidEmails], each as an object. *)
Definition customList (customEmails : list EmailItem) : list EmailItem :=
  map customEntry
    (filter (fun e => truthy (Some e) && filterInvalidEmails (Some e))
       (map customAddress customEmails)).

(** The test of the last filter of the route:
    [emailAddress && filterInvalidEmails(emailAddress)] for
    [emailAddress = e.email || e]. An object is no string, so the filter
    rejects it. *)
Definition validItem (e : EmailItem) : bool :=
  match emailAddressOf e with
  | AddrText s => truthy (Some s) && filterInvalidEmails (Some s)
  | AddrObject _ => false
  end.

Definition validItems (emails : list EmailItem) : list EmailItem :=
  filter validItem emails.

(** [{ batchSize: batchSize || 5, delay: delay || 1000 }] *)
Definition bulkOptions (batchSize delay : option nat) : Options :=
  {| batchSize := Some (natOr batchSize 5);
     delay := Some (natOr delay 1000);
     optAttachments := None |}.

(** The text of the [bulk-send-error] event that the [catch] handler of
    the route makes of the message of an error. *)
Definition bulkSendError (message : string) : string :=
  if includes message "SMTP connection"
  then "Failed to verify SMTP connection. Please check your SMTP configuration."
  else if includes message "authentication" || includes message "EAUTH"
  then "SMTP authentication failed. Please check your email and password."
  else if includes message "timeout" || includes message "ETIMEDOUT"
  then "Connection timeout. Please check your network connection and SMTP settings."
  else message.

(** The address of an element that has one. *)
Definition addressOf (e : EmailItem) : string :=
  match emailAddressOf e with
  | AddrText s => s
  | AddrObject _ => EmptyString
  end.

End Route.

(** ** Concrete environments used in the examples *)

Module Fixtures.
Import JS GitHubAPI.
Local Open Scope Z_scope.

(** Rate-limit headers of a response. *)
Definition rateHeaders (remaining reset : string) : string -> option string :=
  fun name =>
    if String.eqb name "x-ratelimit-remaining" then Some remaining
    else if String.eqb name "x-ratelimit-reset" then Some reset
    else None.

Definition printDate (n : number) : string :=
  match n with
  | Num z => showZ z
  | NaN => "Invalid Date"
  end.

Definition okResponse : Response unit :=
  mkResponse 200 (rateHeaders "4999" "3700") tt None.

(** A server that always answers. *)
Definition envOk : Env unit := mkEnv (fun _ _ => Resolved okResponse) printDate.

(** A connection that is reset on every attempt. *)
Definition connReset : AxiosError unit :=
  mkAxiosError (Some "ECONNRESET") "read ECONNRESET" None.

Definition envReset : Env unit := mkEnv (fun _ _ => Rejected connReset) printDate.

(** A server that answers 429 with an exhausted quota. *)
Definition tooMany : Response unit :=
  mkResponse 429 (rateHeaders "0" "10") tt (Some "API rate limit exceeded").

Definition tooManyError : AxiosError unit :=
  mkAxiosError (Some "ERR_BAD_REQUEST") "Request failed with status code 429"
    (Some tooMany).

Definition env429 : Env unit := mkEnv (fun _ _ => Rejected tooManyError) printDate.

(** A server that answers 403 with an exhausted quota once, then answers. *)
Definition forbidden : Response unit :=
  mkResponse 403 (rateHeaders "0" "10") tt (Some "API rate limit exceeded").

Definition forbiddenError : AxiosError unit :=
  mkAxiosError (Some "ERR_BAD_REQUEST") "Request failed with status code 403"
    (Some forbidden).

Definition env403 : Env unit :=
  mkEnv (fun n _ => if Nat.eqb n 0 then Rejected forbiddenError
                    else Resolved okResponse) printDate.

(** A server that answers 404. *)
Definition notFound : Response unit :=
  mkResponse 404 (fun _ => None) tt (Some "Not Found").

Definition notFoundError : AxiosError unit :=
  mkAxiosError (Some "ERR_BAD_REQUEST") "Request failed with status code 404"
    (Some notFound).

Definition env404 : Env unit := mkEnv (fun _ _ => Rejected notFoundError) printDate.

(** A client whose quota is almost used up and whose reset lies [ahead]
    milliseconds in the future. *)
Definition lowQuota (ahead : Z) : State :=
  {| rateLimitRemaining := Num 5;
     rateLimitReset := Num (1000000 + ahead);
     now := 1000000;
     calls := 0%nat;
     trace := [] |}.

End Fixtures.

Module CollectorFixtures.
Import JS Filter Collector.
Local Open Scope nat_scope.

(** An anonymous contributor with an address of its own. *)
Definition anonymous (n : nat) : Contributor :=
  {| login := None;
     contributorEmail := Some ("Dev" ++ showNat n ++ "@Site.org ");
     contributorName := None |}.

Definition fullPage : list Contributor := map anonymous (seq 0 100).

Definition noUser : nat -> string -> Fetched (option User) :=
  fun _ _ => Got None.

Definition twoCommits : list Commit :=
  [ {| commitAuthor := Some {| authorEmail := Some "Dev1@Site.org";
                               authorName := Some "Dev One" |};
       authorLogin := Some "dev1" |};
    {| commitAuthor := Some {| authorEmail := Some "zed@site.org";
                               authorName := Some "Zed" |};
       authorLogin := None |} ].

(** Two full pages of contributors, then empty pages, without any
    pagination link; one short page of commits. *)
Definition twoFullPages : Api :=
  {| getContributorsWithPagination :=
       fun n _ _ _ _ =>
         Got {| contributors :=
                  Some (if n <? 2 then fullPage else []);
                hasNextPage := false |};
     getUser := noUser;
     getCommits := fun _ _ _ _ => Got (Some twoCommits) |}.



Definition defaults : Options :=
  {| includeContributors := None; includeCommits := None; maxCommits := None |}.



(** One address as the contributors pass and as the commits pass report
    it. *)
Definition janeContributor : EmailData :=
  {| email := "jane@site.org"; name := "Jane Doe"; username := "jane";
     repository := "octo/repo" |}.

Definition janeCommit : EmailData :=
  {| email := "jane@site.org"; name := "jane"; username := "";
     repository := "octo/repo" |}.

Definition contributorsOnly : Options :=
  {| includeContributors := None; includeCommits := Some false; maxCommits := None |}.

Definition commitsOnly : Options :=
  {| includeContributors := Some false; includeCommits := None; maxCommits := Some 50 |}.

(** One page with a contributor whose profile has a public address, one
    anonymous contributor and one whose address is a no-reply address. *)
Definition smallPage : list Contributor :=
  [ {| login := Some "jane"; contributorEmail := None; contributorName := None |};
    anonymous 7;
    {| login := None; contributorEmail := Some "noreply@site.org";
       contributorName := None |} ].

Definition smallRepo : Api :=
  {| getContributorsWithPagination :=
       fun n _ _ _ _ =>
         Got {| contributors := Some (if n =? 0 then smallPage else []);
                hasNextPage := false |};
     getUser :=
       fun _ l =>
         Got (Some {| userLogin := Some l; userEmail := Some "Jane.Doe@Site.org";
                      userName := Some "Jane Doe" |});
     getCommits := fun _ _ _ _ => Got (Some twoCommits) |}.

End CollectorFixtures.

Module SenderFixtures.
Import JS Sender.
Local Open Scope nat_scope.

(** A transport that is verified and delivers every mail but the fourth. *)
Definition transport : Env :=
  {| sender := "me@site.org";
     verifyError := None;
     sendMail :=
       fun n _ =>
         if n =? 3
         then Refused {| message := "Greeting never received";
                         code := Some "ETIMEDOUT" |}
         else Delivered (Some ("id-" ++ showNat n)) (Some "250 OK") |}.

Definition twelve : list EmailItem :=
  map (fun n => Address ("user" ++ showNat n ++ "@site.org")) (seq 0 12).

Definition batchesOfFive : Options :=
  {| batchSize := Some 5; delay := None; optAttachments := None |}.

(** A transport whose verification fails with an authentication error. *)
Definition badLogin : Env :=
  {| sender := "me@site.org";
     verifyError := Some "Invalid login: 535 authentication failed (EAUTH)";
     sendMail := fun _ _ => Delivered None None |}.

End SenderFixtures.

Module PersistFixtures.
Import JS Filter Persist.
Local Open Scope nat_scope.

(** A store that saves the first record, loses the race for the second
    (duplicate key on save), fails to save the third and has the fourth
    already. *)
Definition busyStore : Store :=
  {| findOne := fun n _ => if n =? 6 then Found else NotFound;
     save :=
       fun n _ =>
         if n =? 3 then Some {| storeMessage := "E11000 duplicate key error";
                                storeCode := Some 11000%Z |}
         else if n =? 5 then Some {| storeMessage := "validation failed";
                                     storeCode := None |}
         else None;
     findOneAndUpdate := fun _ _ _ => None |}.

Definition record_ (n : nat) : EmailData :=
  {| email := "user" ++ showNat n ++ "@site.org"; name := ""; username := "";
     repository := "octo/repo" |}.

Definition fiveRecords : list EmailData := map record_ (seq 0 5).

End PersistFixtures.

(** * Properties *)

(** ** [parseRepository] *)

Example parse_owner_repo :
  Repo.parseRepository "octocat/hello"
  = Repo.Parts (Some "octocat") (Some "hello").
Proof. reflexivity. Qed.

Example parse_url :
  Repo.parseRepository "https://github.com/octocat/hello.git"
  = Repo.Parts (Some "octocat") (Some "hello").
Proof. reflexivity. Qed.

Example parse_url_deeper :
  Repo.parseRepository "http://github.com/octocat/hello/issues/3"
  = Repo.Parts (Some "octocat") (Some "hello").
Proof. reflexivity. Qed.

Example parse_no_slash :
  Repo.parseRepository "octocat" = Repo.Invalid (JS.newError Repo.invalidFormat).
Proof. reflexivity. Qed.

(** A string contains ['/'] exactly when [includes] says so. *)
Lemma includes_slash_spec (s : string) :
  JS.includes s "/" = true <-> exists a b, s = a ++ String "/" b.
Proof.
  induction s as [|c s IH]; cbn [JS.includes JS.isPrefix].
  - split; [discriminate|]. intros (a & b & H). destruct a; discriminate.
  - destruct (Ascii.eqb_spec "/" c) as [<-|Hc]; cbn [andb].
    + split; [|reflexivity]. intros _. exists "", s. reflexivity.
    + rewrite IH. split.
      * intros (a & b & ->). exists (String c a), b. reflexivity.
      * intros (a & b & H). destruct a as [|c' a]; cbn in H.
        -- injection H as H _. congruence.
        -- injection H as _ H. eauto.
Qed.

Lemma stripPrefix_isPrefix (p s t : string) :
  JS.stripPrefix p s = Some t -> JS.isPrefix p s = true.
Proof.
  revert s. induction p as [|a p IH]; intros [|b s]; cbn; try congruence.
  destruct (Ascii.eqb a b); [apply IH | discriminate].
Qed.

(** A pattern match needs an occurrence of the host name. *)
Lemma matchGithub_needs_host (s : string) :
  JS.includes s "github.com/" = false -> Repo.matchGithub s = None.
Proof.
  induction s as [|c s IH]; intros H.
  - reflexivity.
  - cbn [JS.includes] in H.
    destruct (JS.isPrefix "github.com/" (String c s)) eqn:Hp; [discriminate|].
    cbn [Repo.matchGithub].
    assert (Hm : Repo.matchHere (String c s) = None).
    { unfold Repo.matchHere.
      destruct (JS.stripPrefix "github.com/" (String c s)) eqn:Hs; [|reflexivity].
      apply stripPrefix_isPrefix in Hs. congruence. }
    rewrite Hm. auto.
Qed.

(** C10. [parseRepository] throws its invalid-format error exactly for the
    inputs that contain no ['/']; an input that starts with "http", contains a
    ['/'] and does not match the pattern [github.com/<owner>/<repo>] is
    accepted, and both [owner] and [repo] of the returned object are
    [undefined]. *)
Theorem parseRepository_invalid_only_without_slash :
  (forall s e, Repo.parseRepository s = Repo.Invalid e ->
               JS.includes s "/" = false /\ e = JS.newError Repo.invalidFormat)
  /\ (forall s, JS.includes s "/" = false ->
                Repo.parseRepository s = Repo.Invalid (JS.newError Repo.invalidFormat))
  /\ (forall s, JS.startsWith s "http" = true ->
                JS.includes s "/" = true ->
                Repo.matchGithub s = None ->
                Repo.parseRepository s = Repo.Parts None None).
Proof.
  unfold Repo.parseRepository. repeat split.
  - destruct (JS.includes s "/"); [|reflexivity].
    destruct (JS.startsWith s "http"); [|discriminate].
    destruct (Repo.matchGithub s) as [[? ?]|]; discriminate.
  - destruct (JS.includes s "/"); [|congruence].
    destruct (JS.startsWith s "http"); [|discriminate].
    destruct (Repo.matchGithub s) as [[? ?]|]; discriminate.
  - intros s ->. reflexivity.
  - intros s Hh Hs Hm. rewrite Hs, Hh, Hm. reflexivity.
Qed.

Lemma parseRepository_invalid_only_without_slash_witness :
  Repo.parseRepository "https://gitlab.com/octocat/hello" = Repo.Parts None None
  /\ Repo.parseRepository "octocat" = Repo.Invalid (JS.newError Repo.invalidFormat)
  /\ JS.includes "octocat" "/" = false.
Proof.
  destruct parseRepository_invalid_only_without_slash as (H1 & H2 & H3).
  split; [|split].
  - apply H3; reflexivity.
  - apply H2; reflexivity.
  - apply (H1 "octocat" (JS.newError Repo.invalidFormat)). reflexivity.
Defined.

(** ** [GitHubAPI.request] *)

Section RequestFacts.
Import JS GitHubAPI.
Local Open Scope Z_scope.
Local Open Scope list_scope.

Context {Data : Type}.
Variable env : Env Data.

(** One unfolding of [request], for any number of retries. *)
Lemma request_eq (endpoint : string) (retries : nat) (full : bool) (st : State) :
  request env endpoint retries full st =
  let url := (baseURL ++ endpoint)%string in
  let st1 := preRequestWait st in
  let st2 := fire url st1 in
  match server env (calls st1) url with
  | Resolved r =>
      (updateRateLimit r st2,
       Ok (if full then FullResponse r else DataOnly (data r)))
  | Rejected e =>
      match retries with
      | O => (st2, Throw (failure env e))
      | S fewer =>
          if isNetworkError e
          then request env endpoint fewer full (sleep (backoffDelay retries) st2)
          else
            match response e with
            | Some r =>
                if isRateLimitResponse r then
                  match waitTimeOf r st2 with
                  | Num waitTime =>
                      if waitTime <? 3600000
                      then request env endpoint fewer full
                             (setRemaining (Num 5000) (sleep (waitTime + 2000) st2))
                      else (st2, Throw (failure env e))
                  | NaN => (st2, Throw (failure env e))
                  end
                else (st2, Throw (failure env e))
            | None => (st2, Throw (failure env e))
            end
      end
  end.
Proof. destruct retries; reflexivity. Qed.

(** The trace only grows, and the first thing [request] adds after its
    pre-request wait is the call itself. *)
Lemma request_trace_first_get (endpoint : string) (retries : nat) (full : bool)
    (st : State) :
  exists rest,
    trace (fst (request env endpoint retries full st))
    = trace (preRequestWait st)
        ++ Get (baseURL ++ endpoint)%string (now (preRequestWait st)) :: rest.
Proof.
  assert (Hgrow : forall k s, exists more,
             trace (fst (request env endpoint k full s)) = trace s ++ more).
  { induction k as [|k IH]; intros s; rewrite request_eq; cbv zeta.
    - destruct (server env _ _) as [r|e]; cbn [fst].
      + unfold updateRateLimit, preRequestWait.
        repeat match goal with
               | |- context [if ?b then _ else _] => destruct b
               | |- context [match ?x with Num _ => _ | NaN => _ end] => destruct x
               end; cbn; rewrite <- ?app_assoc; eauto.
      + unfold preRequestWait.
        repeat match goal with
               | |- context [if ?b then _ else _] => destruct b
               | |- context [match ?x with Num _ => _ | NaN => _ end] => destruct x
               end; cbn; rewrite <- ?app_assoc; eauto.
    - assert (Hpre : exists m, trace (fire (baseURL ++ endpoint) (preRequestWait s))
                               = trace s ++ m).
      { unfold preRequestWait.
        repeat match goal with
               | |- context [if ?b then _ else _] => destruct b
               | |- context [match ?x with Num _ => _ | NaN => _ end] => destruct x
               end; cbn; rewrite <- ?app_assoc; eauto. }
      destruct Hpre as [m Hm].
      destruct (server env _ _) as [r|e]; cbn [fst].
      + unfold updateRateLimit.
        repeat match goal with
               | |- context [if ?b then _ else _] => destruct b
               end; cbn [trace setReset setRemaining]; rewrite Hm; eauto.
      + destruct (isNetworkError e).
        * destruct (IH (sleep (backoffDelay (S k))
                          (fire (baseURL ++ endpoint)%string (preRequestWait s))))
            as [m' ->].
          cbn [trace sleep]. rewrite Hm, <- !app_assoc. eauto.
        * destruct (response e) as [r|]; cbn [fst]; [|rewrite Hm; eauto].
          destruct (isRateLimitResponse r); cbn [fst]; [|rewrite Hm; eauto].
          destruct (waitTimeOf r _) as [|w]; cbn [fst]; [rewrite Hm; eauto|].
          destruct (w <? 3600000); cbn [fst]; [|rewrite Hm; eauto].
          match goal with
          | |- context [request env endpoint k full ?s'] =>
              destruct (IH s') as [m' ->]
          end.
          cbn [trace sleep setRemaining]. rewrite Hm, <- !app_assoc. eauto. }
  rewrite request_eq; cbv zeta.
  destruct (server env _ _) as [r|e]; cbn [fst].
  - exists []. unfold updateRateLimit.
    repeat match goal with
           | |- context [if ?b then _ else _] => destruct b
           end; reflexivity.
  - destruct retries as [|k]; cbn [fst]; [exists []; reflexivity|].
    destruct (isNetworkError e).
    + match goal with
      | |- context [request env endpoint k full ?s'] =>
          destruct (Hgrow k s') as [m' ->]
      end.
      cbn [trace sleep fire]. rewrite <- !app_assoc. cbn [app]. eauto.
    + destruct (response e) as [r|]; cbn [fst]; [|exists []; reflexivity].
      destruct (isRateLimitResponse r); cbn [fst]; [|exists []; reflexivity].
      destruct (waitTimeOf r _) as [|w]; cbn [fst]; [exists []; reflexivity|].
      destruct (w <? 3600000); cbn [fst]; [|exists []; reflexivity].
      match goal with
      | |- context [request env endpoint k full ?s'] =>
          destruct (Hgrow k s') as [m' ->]
      end.
      cbn [trace sleep fire setRemaining]. rewrite <- !app_assoc. cbn [app]. eauto.
Qed.

End RequestFacts.

Section RequestPolicy.
Import JS GitHubAPI.
Local Open Scope Z_scope.
Local Open Scope list_scope.

(** When the pre-request check blocks: the quota is at most 10 and the reset
    time lies more than one second and less than one hour ahead. *)
Lemma preRequestWait_blocks (st : State) (remaining reset : Z) :
  rateLimitRemaining st = Num remaining ->
  rateLimitReset st = Num reset ->
  remaining <= 10 -> now st + 1000 < reset -> reset - now st < 3600000 ->
  preRequestWait st
  = setRemaining (Num 5000) (sleep (reset - now st + 2000) st).
Proof.
  intros Hrem Hres H1 H2 H3. unfold preRequestWait, hasValidRateLimitInfo.
  rewrite Hrem, Hres. cbn [leN gtN ltN subN maxN].
  assert (E1 : (remaining <=? 10) = true) by (apply Z.leb_le; lia).
  assert (E2 : (now st + 1000 <? reset) = true) by (apply Z.ltb_lt; lia).
  rewrite E1, E2. cbn [andb].
  assert (E3 : (0 <? Z.max 0 (reset - now st)) = true) by (apply Z.ltb_lt; lia).
  assert (E4 : (Z.max 0 (reset - now st) <? 3600000) = true) by (apply Z.ltb_lt; lia).
  rewrite E3, E4. cbn [andb]. f_equal. f_equal. lia.
Qed.

(** ... and when it does not. *)
Lemma preRequestWait_passes (st : State) :
  (forall remaining reset,
      rateLimitRemaining st = Num remaining ->
      rateLimitReset st = Num reset ->
      ~ (remaining <= 10 /\ now st + 1000 < reset /\ reset - now st < 3600000)) ->
  preRequestWait st = st.
Proof.
  intros H. unfold preRequestWait, hasValidRateLimitInfo.
  destruct (rateLimitRemaining st) as [|remaining] eqn:Hrem; [reflexivity|].
  destruct (rateLimitReset st) as [|reset] eqn:Hres;
    cbn [leN gtN ltN subN maxN]; [rewrite andb_false_r; reflexivity|].
  specialize (H remaining reset eq_refl eq_refl).
  destruct (remaining <=? 10) eqn:E1; [|reflexivity].
  destruct (now st + 1000 <? reset) eqn:E2; [|reflexivity].
  cbn [andb].
  destruct (0 <? Z.max 0 (reset - now st)) eqn:E3; [|reflexivity].
  destruct (Z.max 0 (reset - now st) <? 3600000) eqn:E4; [|reflexivity].
  exfalso. apply H.
  apply Z.leb_le in E1. apply Z.ltb_lt in E2, E3, E4. lia.
Qed.

(** C4 (as the code has it). Before issuing a request the client blocks if
    and only if the tracked remaining quota is at most 10 and the tracked
    reset time is more than one second in the future and less than one hour
    away. When it blocks, it sleeps until the reset time plus a buffer of two
    seconds, sets the remaining count to 5000 and only then fires the
    request; otherwise the request fires at once with the counters as they
    were. A new client (5000 remaining, reset one hour ahead) never blocks,
    and with 5 remaining and a reset 10 seconds ahead the request fires at
    the reset time plus two seconds. *)
Theorem request_blocks_on_low_quota :
  (forall st remaining reset,
      rateLimitRemaining st = Num remaining ->
      rateLimitReset st = Num reset ->
      remaining <= 10 -> now st + 1000 < reset -> reset - now st < 3600000 ->
      preRequestWait st
      = setRemaining (Num 5000) (sleep (reset - now st + 2000) st)
      /\ forall Data (env : Env Data) endpoint retries full, exists rest,
           trace (fst (request env endpoint retries full st))
           = trace st ++ Sleep (reset - now st + 2000)
               :: Get (baseURL ++ endpoint)%string (reset + 2000) :: rest)
  /\ (forall st,
         (forall remaining reset,
             rateLimitRemaining st = Num remaining ->
             rateLimitReset st = Num reset ->
             ~ (remaining <= 10 /\ now st + 1000 < reset
                /\ reset - now st < 3600000)) ->
         preRequestWait st = st
         /\ forall Data (env : Env Data) endpoint retries full, exists rest,
              trace (fst (request env endpoint retries full st))
              = trace st ++ Get (baseURL ++ endpoint)%string (now st) :: rest)
  /\ (forall t, preRequestWait (constructor t) = constructor t)
  /\ (forall st, rateLimitRemaining st = Num 5 ->
                 rateLimitReset st = Num (now st + 10000) ->
        forall Data (env : Env Data) endpoint retries full, exists rest,
          trace (fst (request env endpoint retries full st))
          = trace st ++ Sleep 12000
              :: Get (baseURL ++ endpoint)%string (now st + 10000 + 2000) :: rest).
Proof.
  assert (Hblock : forall st remaining reset,
      rateLimitRemaining st = Num remaining ->
      rateLimitReset st = Num reset ->
      remaining <= 10 -> now st + 1000 < reset -> reset - now st < 3600000 ->
      preRequestWait st
      = setRemaining (Num 5000) (sleep (reset - now st + 2000) st)
      /\ forall Data (env : Env Data) endpoint retries full, exists rest,
           trace (fst (request env endpoint retries full st))
           = trace st ++ Sleep (reset - now st + 2000)
               :: Get (baseURL ++ endpoint)%string (reset + 2000) :: rest).
  { intros st remaining reset Hrem Hres H1 H2 H3.
    pose proof (preRequestWait_blocks st remaining reset Hrem Hres H1 H2 H3) as Hw.
    split; [exact Hw|].
    intros Data env endpoint retries full.
    destruct (request_trace_first_get env endpoint retries full st) as [rest Hr].
    exists rest. rewrite Hr, Hw. cbn [trace now setRemaining sleep].
    unfold timerDelay.
    assert (E : (reset - now st + 2000 <? 1) = false) by (apply Z.ltb_ge; lia).
    rewrite E, <- app_assoc. cbn [app].
    replace (now st + (reset - now st + 2000)) with (reset + 2000) by lia.
    reflexivity. }
  split; [exact Hblock|]. split; [|split].
  - intros st H. pose proof (preRequestWait_passes st H) as Hw.
    split; [exact Hw|].
    intros Data env endpoint retries full.
    destruct (request_trace_first_get env endpoint retries full st) as [rest Hr].
    exists rest. rewrite Hr, Hw. reflexivity.
  - intros t. apply preRequestWait_passes. cbn. intros remaining reset H1 H2.
    injection H1 as <-. lia.
  - intros st Hrem Hres Data env endpoint retries full.
    destruct (Hblock st 5 (now st + 10000) Hrem Hres) as [_ H]; try lia.
    destruct (H Data env endpoint retries full) as [rest Hr].
    exists rest. rewrite Hr.
    replace (now st + 10000 - now st + 2000) with 12000 by lia. reflexivity.
Qed.

Lemma request_blocks_on_low_quota_witness :
  exists rest,
    trace (fst (request Fixtures.envOk "/user" 3 false (Fixtures.lowQuota 10000)))
    = trace (Fixtures.lowQuota 10000) ++ Sleep 12000
        :: Get (baseURL ++ "/user")%string (1000000 + 10000 + 2000) :: rest.
Proof.
  destruct request_blocks_on_low_quota as (_ & _ & _ & H).
  apply (H (Fixtures.lowQuota 10000)); reflexivity.
Defined.

(** C4, as stated, fails: with 5 requests remaining and a reset time half a
    second ahead (strictly in the future, less than one hour away) the
    client does not wait; the request fires at once. *)
Lemma request_does_not_block_within_one_second :
  let st := Fixtures.lowQuota 500 in
  rateLimitRemaining st = Num 5
  /\ rateLimitReset st = Num (now st + 500)
  /\ preRequestWait st = st
  /\ trace (fst (request Fixtures.envOk "/user" 3 false st))
     = [Get "https://api.github.com/user" (now st)].
Proof. cbv zeta. repeat split. Qed.

Example hasNextPage_examples :
  hasNextPage None = false
  /\ hasNextPage (Some "") = false
  /\ hasNextPage (Some "<https://api.github.com/repositories/1/contributors?page=2>; rel='next'")
     = true
  /\ hasNextPage (Some "<https://api.github.com/repositories/1/contributors?page=1>; rel='prev'")
     = false.
Proof. repeat split. Qed.

(** The message of the rate-limit error is the one the collector looks
    for. *)
Lemma includes_app_l (a b p : string) :
  includes a p = true -> includes (a ++ b)%string p = true.
Proof.
  assert (Hpre : forall p a b, isPrefix p a = true -> isPrefix p (a ++ b)%string = true).
  { clear. induction p as [|c p IH]; intros [|d a] b; cbn; try congruence.
    intros H. apply andb_prop in H as [-> H]. cbn. auto. }
  induction a as [|c a IH]; cbn [includes append].
  - destruct (isPrefix p "") eqn:E; [|discriminate].
    intros _. destruct p; [|discriminate]. destruct b; reflexivity.
  - destruct (isPrefix p (String c a)) eqn:E.
    + intros _. change (String c (a ++ b)%string) with (String c a ++ b)%string.
      rewrite (Hpre _ _ _ E). reflexivity.
    + intros H. rewrite (IH H). destruct (isPrefix p (String c (a ++ b))); reflexivity.
Qed.

Lemma rateLimitError_message {Data} (env : Env Data) (r : Response Data) :
  includes (message (rateLimitError env r)) "rate limit" = true.
Proof.
  unfold rateLimitError, newError. cbn [message].
  apply includes_app_l. reflexivity.
Qed.

(** An error response that is neither a network error nor a rate-limit
    error is thrown at once. *)
Lemma request_plain_api_error {Data} (env : Env Data) endpoint retries full st e r :
  server env (calls (preRequestWait st)) (baseURL ++ endpoint)%string
  = Rejected e ->
  isNetworkError e = false ->
  response e = Some r ->
  isRateLimitResponse r = false ->
  request env endpoint retries full st
  = (fire (baseURL ++ endpoint)%string (preRequestWait st), Throw (apiError e r)).
Proof.
  intros Hsrv Hnet Hresp Hrl. rewrite request_eq. cbv zeta. rewrite Hsrv.
  assert (Hf : failure env e = apiError e r).
  { unfold failure. rewrite Hresp, Hrl. reflexivity. }
  rewrite Hf. destruct retries as [|fewer]; [reflexivity|].
  rewrite Hnet, Hresp, Hrl. reflexivity.
Qed.

(** C3 (as the code has it). A failed request that is not retried as a
    network error and carries a response is a rate-limit error exactly when
    its status is 403 and the remaining-quota header is "0" or parses to an
    integer that is at most 0. For such an error the client computes the wait
    until the reset time; while a retry is left and the wait is under one
    hour it sleeps for the wait plus two seconds, sets the remaining count to
    5000 and retries with one retry fewer; otherwise it throws the rate-limit
    error. Any other status, 429 included, is thrown as a plain API error. *)
Theorem request_rate_limit_classification :
  forall Data (env : Env Data) endpoint retries full st e r,
    server env (calls (preRequestWait st)) (baseURL ++ endpoint)%string
    = Rejected e ->
    isNetworkError e = false ->
    response e = Some r ->
    let st2 := fire (baseURL ++ endpoint)%string (preRequestWait st) in
    (isRateLimitResponse r = true <->
       status r = 403
       /\ (headers r "x-ratelimit-remaining" = Some "0"%string
           \/ exists z, parseInt (headers r "x-ratelimit-remaining") = Num z
                        /\ z <= 0))
    /\ (isRateLimitResponse r = true ->
        waitTimeOf r st2 = maxN (Num 0) (subN (resetTimeOf r) (Num (now st2)))
        /\ (forall fewer w,
               retries = S fewer -> waitTimeOf r st2 = Num w -> w < 3600000 ->
               request env endpoint retries full st
               = request env endpoint fewer full
                   (setRemaining (Num 5000) (sleep (w + 2000) st2)))
        /\ (retries = O \/ waitTimeOf r st2 = NaN
            \/ (exists w, waitTimeOf r st2 = Num w /\ 3600000 <= w) ->
            request env endpoint retries full st
            = (st2, Throw (rateLimitError env r))))
    /\ (isRateLimitResponse r = false ->
        request env endpoint retries full st = (st2, Throw (apiError e r))).
Proof.
  intros Data env endpoint retries full st e r Hsrv Hnet Hresp st2.
  split; [|split].
  - unfold isRateLimitResponse. rewrite andb_true_iff, orb_true_iff, Z.eqb_eq.
    split; intros [H1 H2]; (split; [exact H1|]).
    + destruct H2 as [H2|H2].
      * left. destruct (headers r "x-ratelimit-remaining") as [h|]; [|discriminate].
        apply String.eqb_eq in H2. congruence.
      * right. destruct (parseInt _) as [|z]; [discriminate|].
        exists z. split; [reflexivity|]. apply Z.leb_le. exact H2.
    + destruct H2 as [H2|(z & Hz & Hle)].
      * left. rewrite H2. reflexivity.
      * right. rewrite Hz. apply Z.leb_le. exact Hle.
  - intros Hrl. split; [reflexivity|]. split.
    + intros fewer w -> Hw Hlt. rewrite request_eq. cbv zeta.
      rewrite Hsrv, Hnet, Hresp, Hrl. fold st2. rewrite Hw.
      assert (E : (w <? 3600000) = true) by (apply Z.ltb_lt; lia).
      rewrite E. reflexivity.
    + intros H. rewrite request_eq. cbv zeta. rewrite Hsrv. fold st2.
      assert (Hf : failure env e = rateLimitError env r).
      { unfold failure. rewrite Hresp, Hrl. reflexivity. }
      rewrite Hf. destruct retries as [|fewer]; [reflexivity|].
      rewrite Hnet, Hresp, Hrl.
      destruct H as [H|[H|(w & Hw & Hge)]]; [discriminate| |].
      * rewrite H. reflexivity.
      * rewrite Hw.
        assert (E : (w <? 3600000) = false) by (apply Z.ltb_ge; lia).
        rewrite E. reflexivity.
  - intros Hrl. subst st2. apply request_plain_api_error; assumption.
Qed.

Lemma request_rate_limit_classification_witness :
  isRateLimitResponse Fixtures.forbidden = true
  /\ request Fixtures.env403 "/user" 3 false (constructor 0)
     = request Fixtures.env403 "/user" 2 false
         (setRemaining (Num 5000)
            (sleep (10000 + 2000)
               (fire "https://api.github.com/user" (constructor 0)))).
Proof.
  destruct (request_rate_limit_classification unit Fixtures.env403 "/user" 3 false
              (constructor 0) Fixtures.forbiddenError Fixtures.forbidden
              eq_refl eq_refl eq_refl) as (_ & H & _).
  split; [reflexivity|].
  destruct (H eq_refl) as (_ & Hretry & _).
  apply (Hretry 2%nat 10000); [reflexivity | reflexivity | lia].
Defined.

(** C3, as stated, fails: a 429 response whose remaining-quota header is 0
    is not classified as a rate-limit error. With three retries left and a
    reset ten seconds ahead the client neither waits nor retries; it throws
    the plain API error after a single call. *)
Lemma request_429_is_not_rate_limited :
  status Fixtures.tooMany = 429
  /\ headers Fixtures.tooMany "x-ratelimit-remaining" = Some "0"%string
  /\ isNetworkError Fixtures.tooManyError = false
  /\ isRateLimitResponse Fixtures.tooMany = false
  /\ request Fixtures.env429 "/user" 3 false (constructor 0)
     = (fire "https://api.github.com/user" (constructor 0),
        Throw (newError "GitHub API error: 429 - API rate limit exceeded")).
Proof. repeat split. Qed.

Lemma preRequestWait_enough_quota (st : State) :
  leN (rateLimitRemaining st) (Num 10) = false -> preRequestWait st = st.
Proof. intros H. unfold preRequestWait. rewrite H. reflexivity. Qed.

Lemma backoffDelay_bound (retries : nat) : backoffDelay retries <= 10000.
Proof. unfold backoffDelay. apply Z.le_min_r. Qed.

(** A network error with a retry left: the same request once more, after
    the backoff delay. *)
Lemma request_network_retry {Data} (env : Env Data) endpoint fewer full st e :
  server env (calls (preRequestWait st)) (baseURL ++ endpoint)%string
  = Rejected e ->
  isNetworkError e = true ->
  request env endpoint (S fewer) full st
  = request env endpoint fewer full
      (sleep (backoffDelay (S fewer))
         (fire (baseURL ++ endpoint)%string (preRequestWait st))).
Proof.
  intros Hsrv Hnet. rewrite request_eq. cbv zeta. rewrite Hsrv, Hnet. reflexivity.
Qed.

(** C5. A transient network error (error code ECONNRESET, ETIMEDOUT,
    ENOTFOUND or ECONNREFUSED, or a message that mentions a socket hang-up or
    a timeout) makes the client send the same request again while retries are
    left; the budget is three retries, the delays before them are 2, 4 and 8
    seconds, and no delay exceeds 10 seconds. When all four attempts fail the
    client throws a network error. An error response that is neither a
    network error nor a rate-limit error is thrown after a single call,
    without any retry and without any delay. *)
Theorem request_network_retry_policy :
  (forall Data (msg : string) (resp : option (Response Data)) (c : string),
      In c ["ECONNRESET"; "ETIMEDOUT"; "ENOTFOUND"; "ECONNREFUSED"]%string ->
      isNetworkError (mkAxiosError (Some c) msg resp) = true)
  /\ (forall Data (c : option string) (resp : option (Response Data)),
        isNetworkError (mkAxiosError c "socket hang up" resp) = true
        /\ isNetworkError (mkAxiosError c "timeout of 60000ms exceeded" resp) = true)
  /\ (forall Data (env : Env Data) endpoint fewer full st e,
        server env (calls (preRequestWait st)) (baseURL ++ endpoint)%string
        = Rejected e ->
        isNetworkError e = true ->
        request env endpoint (S fewer) full st
        = request env endpoint fewer full
            (sleep (backoffDelay (S fewer))
               (fire (baseURL ++ endpoint)%string (preRequestWait st))))
  /\ (backoffDelay 3 = 2000 /\ backoffDelay 2 = 4000 /\ backoffDelay 1 = 8000
      /\ forall retries, backoffDelay retries <= 10000)
  /\ (forall Data (env : Env Data) endpoint full st e,
        (forall n, (calls st <= n < calls st + 4)%nat ->
                   server env n (baseURL ++ endpoint)%string = Rejected e) ->
        isNetworkError e = true ->
        response e = None ->
        leN (rateLimitRemaining st) (Num 10) = false ->
        let url := (baseURL ++ endpoint)%string in
        request env endpoint 3 full st
        = ({| rateLimitRemaining := rateLimitRemaining st;
              rateLimitReset := rateLimitReset st;
              now := now st + 14000;
              calls := calls st + 4;
              trace := trace st
                       ++ [Get url (now st); Sleep 2000;
                           Get url (now st + 2000); Sleep 4000;
                           Get url (now st + 6000); Sleep 8000;
                           Get url (now st + 14000)] |},
           Throw (networkError e)))
  /\ (forall Data (env : Env Data) endpoint retries full st e r,
        server env (calls (preRequestWait st)) (baseURL ++ endpoint)%string
        = Rejected e ->
        isNetworkError e = false ->
        response e = Some r ->
        isRateLimitResponse r = false ->
        request env endpoint retries full st
        = (fire (baseURL ++ endpoint)%string (preRequestWait st),
           Throw (apiError e r))).
Proof.
  split; [|split; [|split; [|split; [|split]]]].
  - intros Data msg resp c Hc. unfold isNetworkError. cbn [errCode errMessage].
    cbn in Hc. destruct Hc as [<-|[<-|[<-|[<-|[]]]]]; reflexivity.
  - intros Data c resp. unfold isNetworkError. cbn [errCode errMessage].
    split; rewrite !orb_true_iff; [left; right | right]; reflexivity.
  - intros Data env endpoint fewer full st e Hsrv Hnet.
    exact (request_network_retry env endpoint fewer full st e Hsrv Hnet).
  - repeat split. apply backoffDelay_bound.
  - intros Data env endpoint full st e Hall Hnet Hresp Hq url.
    assert (Hstep : forall k s,
               (calls st <= calls s < calls st + 4)%nat ->
               rateLimitRemaining s = rateLimitRemaining st ->
               request env endpoint (S k) full s
               = request env endpoint k full
                   (sleep (backoffDelay (S k)) (fire url s))).
    { intros k s Hc Hr.
      assert (Hp : preRequestWait s = s)
        by (apply preRequestWait_enough_quota; rewrite Hr; exact Hq).
      rewrite (request_network_retry env endpoint k full s e).
      - rewrite Hp. reflexivity.
      - rewrite Hp. apply Hall; exact Hc.
      - exact Hnet. }
    rewrite Hstep by (cbn; auto; lia).
    rewrite Hstep by (cbn; auto; lia).
    rewrite Hstep by (cbn; auto; lia).
    rewrite request_eq. cbv zeta.
    rewrite preRequestWait_enough_quota by exact Hq.
    cbn [calls sleep fire]. rewrite Hall by lia.
    unfold failure. rewrite Hresp, Hnet.
    f_equal. unfold fire, sleep; cbn [rateLimitRemaining rateLimitReset now calls trace].
    change (timerDelay (backoffDelay 3)) with 2000.
    change (timerDelay (backoffDelay 2)) with 4000.
    change (timerDelay (backoffDelay 1)) with 8000.
    f_equal; [lia | lia |].
    rewrite <- !app_assoc. cbn [app].
    replace (now st + 2000 + 4000) with (now st + 6000) by lia.
    replace (now st + 6000 + 8000) with (now st + 14000) by lia.
    reflexivity.
  - intros Data env endpoint retries full st e r Hsrv Hnet Hresp Hrl.
    apply request_plain_api_error; assumption.
Qed.

Lemma request_network_retry_policy_witness :
  request Fixtures.envReset "/user" 3 false (constructor 0)
  = ({| rateLimitRemaining := Num 5000;
        rateLimitReset := Num 3600000;
        now := 14000;
        calls := 4;
        trace := [Get "https://api.github.com/user" 0; Sleep 2000;
                  Get "https://api.github.com/user" 2000; Sleep 4000;
                  Get "https://api.github.com/user" 6000; Sleep 8000;
                  Get "https://api.github.com/user" 14000] |},
     Throw (newError "Network error after retries: ECONNRESET"))
  /\ request Fixtures.env404 "/user" 3 false (constructor 0)
     = (fire "https://api.github.com/user" (constructor 0),
        Throw (newError "GitHub API error: 404 - Not Found")).
Proof.
  destruct request_network_retry_policy as (_ & _ & _ & _ & Hfail & Hother).
  split.
  - apply (Hfail unit Fixtures.envReset "/user" false (constructor 0)
             Fixtures.connReset); try reflexivity.
  - apply (Hother unit Fixtures.env404 "/user" 3%nat false (constructor 0)
             Fixtures.notFoundError Fixtures.notFound); reflexivity.
Defined.

End RequestPolicy.

(** ** The bulk dispatcher *)

Section DispatchFacts.
Import JS Sender.
Local Open Scope nat_scope.
Local Open Scope list_scope.

Variable env : Env.
Variables subj htmlTemplate : string.
Variable textTemplate : option string.
Variable opts : Options.

Let run := sendBatch env subj htmlTemplate textTemplate opts.
Let outcomes := outcomesFrom env subj htmlTemplate textTemplate opts.
Let after := mailsAfter env subj htmlTemplate textTemplate opts.

Lemma natOr_pos (v : option nat) (d : nat) : 0 < d -> 0 < natOr v d.
Proof. destruct v as [[|n]|]; cbn; lia. Qed.

Lemma sendItem_addr (n : nat) (item : EmailItem) :
  email (fst (fst (sendItem env subj htmlTemplate textTemplate opts n item)))
  = outcomeAddr item.
Proof.
  unfold sendItem, outcomeAddr, sendEmail.
  destruct (emailAddressOf item) as [[|c a]|o]; cbn; try reflexivity.
  destruct (sendMail env n _); reflexivity.
Qed.

Lemma sendItem_events (n : nat) (item : EmailItem) :
  let ev := snd (sendItem env subj htmlTemplate textTemplate opts n item) in
  batchesOf ev = [] /\ sleepsOf ev = [].
Proof.
  unfold sendItem. destruct (emailAddressOf item) as [[|c a]|o]; cbn; auto.
Qed.

Lemma run_app (n : nat) (a b : list EmailItem) :
  outcomes n (a ++ b) = outcomes n a ++ outcomes (after n a) b
  /\ after n (a ++ b) = after (after n a) b.
Proof.
  subst outcomes after. unfold outcomesFrom, mailsAfter.
  revert n. induction a as [|x a IH]; intros n; cbn [app sendBatch].
  - split; reflexivity.
  - destruct (sendItem env subj htmlTemplate textTemplate opts n x) as [[r n1] e1].
    specialize (IH n1).
    destruct (sendBatch env subj htmlTemplate textTemplate opts n1 (a ++ b))
      as [[rs n2] e2].
    destruct (sendBatch env subj htmlTemplate textTemplate opts n1 a)
      as [[rs' n2'] e2'].
    cbn [fst snd] in *. destruct IH as [-> ->]. split; reflexivity.
Qed.

Lemma outcomes_length (n : nat) (l : list EmailItem) :
  List.length (outcomes n l) = List.length l.
Proof.
  subst outcomes. unfold outcomesFrom.
  revert n. induction l as [|x l IH]; intros n; cbn [sendBatch]; [reflexivity|].
  destruct (sendItem env subj htmlTemplate textTemplate opts n x) as [[r n1] e1].
  specialize (IH n1).
  destruct (sendBatch env subj htmlTemplate textTemplate opts n1 l) as [[rs n2] e2].
  cbn [fst List.length] in *. congruence.
Qed.

Lemma outcomes_addr (n : nat) (l : list EmailItem) :
  map email (outcomes n l) = map outcomeAddr l.
Proof.
  subst outcomes. unfold outcomesFrom.
  revert n. induction l as [|x l IH]; intros n; cbn [sendBatch]; [reflexivity|].
  pose proof (sendItem_addr n x) as Hx.
  destruct (sendItem env subj htmlTemplate textTemplate opts n x) as [[r n1] e1].
  specialize (IH n1).
  destruct (sendBatch env subj htmlTemplate textTemplate opts n1 l) as [[rs n2] e2].
  cbn [fst map] in *. congruence.
Qed.

Lemma run_events (n : nat) (l : list EmailItem) :
  batchesOf (snd (run n l)) = [] /\ sleepsOf (snd (run n l)) = [].
Proof.
  subst run. revert n. induction l as [|x l IH]; intros n; cbn [sendBatch].
  - split; reflexivity.
  - pose proof (sendItem_events n x) as Hx.
    destruct (sendItem env subj htmlTemplate textTemplate opts n x) as [[r n1] e1].
    specialize (IH n1).
    destruct (sendBatch env subj htmlTemplate textTemplate opts n1 l) as [[rs n2] e2].
    cbn [snd] in *. unfold batchesOf, sleepsOf in *.
    rewrite !flat_map_app. destruct Hx as [-> ->], IH as [-> ->]. split; reflexivity.
Qed.

Lemma collect_spec (rs : list Outcome) (st : State) :
  sent (collect rs st) = sent st ++ filter success rs
  /\ failed (collect rs st) = failed st ++ filter (fun r => negb (success r)) rs
  /\ mails (collect rs st) = mails st
  /\ trace (collect rs st) = trace st.
Proof.
  unfold collect. revert st.
  induction rs as [|r rs IH]; intros st; cbn [fold_left filter].
  - rewrite !app_nil_r. repeat split.
  - destruct (success r); cbn [negb];
      match goal with |- context [fold_left _ rs ?s] => destruct (IH s) as (H1 & H2 & H3 & H4) end;
      rewrite H1, H2, H3, H4; cbn [sent failed mails trace];
      rewrite <- ?app_assoc; repeat split.
Qed.

Variable emails : list EmailItem.

Let size := natOr (batchSize opts) 5.
Let wait := natOr (delay opts) 1000.
Let len := List.length emails.

(** The loop started at index [i] with enough fuel: it ends, its batches
    are the remaining outcomes cut into chunks, and it sleeps between
    consecutive batches only. *)
Lemma batchLoop_spec (fuel : nat) :
  forall (i : nat) (st : State),
    len - i <= fuel ->
    exists st' batches,
      batchLoop env emails subj htmlTemplate textTemplate opts fuel i st = Some st'
      /\ sent st' = sent st ++ filter success (outcomes (mails st) (skipn i emails))
      /\ failed st'
         = failed st
             ++ filter (fun r => negb (success r))
                  (outcomes (mails st) (skipn i emails))
      /\ batchesOf (trace st') = batchesOf (trace st) ++ batches
      /\ List.concat batches = outcomes (mails st) (skipn i emails)
      /\ chunked size batches
      /\ (len <= i -> batches = [])
      /\ (i < len -> batches <> [])
      /\ sleepsOf (trace st')
         = sleepsOf (trace st) ++ repeat wait (List.length batches - 1).
Proof.
  assert (Hsize : 0 < size) by (apply natOr_pos; lia).
  induction fuel as [|fuel IH]; intros i st Hfuel.
  - assert (Hi : len <= i) by lia.
    exists st, []. cbn [batchLoop]. fold len.
    assert (E : (i <? len) = false) by (apply Nat.ltb_ge; exact Hi).
    rewrite E. rewrite (skipn_all2 emails) by exact Hi.
    cbn. rewrite !app_nil_r. repeat split; try reflexivity; lia.
  - cbn [batchLoop]. fold len size wait.
    destruct (i <? len) eqn:E.
    2:{ apply Nat.ltb_ge in E. exists st, [].
        rewrite (skipn_all2 emails) by exact E.
        cbn. rewrite !app_nil_r. repeat split; try reflexivity; lia. }
    apply Nat.ltb_lt in E.
    set (rest := skipn i emails).
    assert (Hbatch : slice i (i + size) emails = firstn size rest).
    { unfold slice. replace (i + size - i) with size by lia. reflexivity. }
    rewrite Hbatch. cbn [mails emit].
    pose proof (run_events (mails st) (firstn size rest)) as [Hev1 Hev2].
    pose proof (run_app (mails st) (firstn size rest) (skipn size rest)) as [Happ1 Happ2].
    rewrite firstn_skipn in Happ1, Happ2.
    pose proof (outcomes_length (mails st) (firstn size rest)) as Hlen.
    subst run outcomes after. unfold outcomesFrom, mailsAfter in *.
    destruct (sendBatch env subj htmlTemplate textTemplate opts (mails st)
                (firstn size rest)) as [[rs n] ev] eqn:Hrun.
    cbn [fst snd] in *.
    match goal with
    | |- context [batchLoop _ _ _ _ _ _ fuel (i + size) ?s] => set (st5 := s)
    end.
    destruct (IH (i + size) st5 ltac:(lia)) as (st' & bs & Hloop & Hs & Hf & Hb & Hc & Hch & Hnil & Hcons & Hsl).
    exists st', (rs :: bs).
    assert (Hskip : skipn (i + size) emails = skipn size rest).
    { unfold rest. rewrite skipn_skipn. f_equal. lia. }
    rewrite Hskip in Hs, Hf, Hc.
    match type of Hloop with
    | batchLoop _ _ _ _ _ _ _ _ ?s = _ =>
        destruct (collect_spec rs
                    (emit (ev ++ [Settled rs])
                       (setMails n
                          (emit [Progress (SendingBatch (i / size + 1) (ceilDiv len size)
                                             (i + 1) (Nat.min (i + size) len))
                                   (List.length (sent st)) (List.length (failed st)) len]
                             st))))
          as (C1 & C2 & C3 & C4)
    end.
    assert (Hst5 : sent st5 = sent st ++ filter success rs
                   /\ failed st5 = failed st ++ filter (fun r => negb (success r)) rs
                   /\ mails st5 = n
                   /\ batchesOf (trace st5) = batchesOf (trace st) ++ [rs]
                   /\ sleepsOf (trace st5)
                      = sleepsOf (trace st)
                          ++ (if i + size <? len then [wait] else [])).
    { subst st5. unfold batchesOf, sleepsOf in *.
      destruct (i + size <? len); cbn [emit sent failed mails trace setMails];
        rewrite ?C1, ?C2, ?C3, ?C4; cbn [emit sent failed mails trace setMails];
        rewrite !flat_map_app, Hev1, Hev2; cbn [flat_map app];
        rewrite ?app_nil_r; repeat split; reflexivity. }
    destruct Hst5 as (S1 & S2 & S3 & S4 & S5).
    rewrite S1 in Hs. rewrite S2 in Hf. rewrite S3 in Hs, Hf, Hc.
    rewrite S4 in Hb. rewrite S5 in Hsl.
    split; [exact Hloop|].
    fold rest. rewrite Happ1, !filter_app.
    split; [rewrite Hs, <- app_assoc; reflexivity|].
    split; [rewrite Hf, <- app_assoc; reflexivity|].
    split; [rewrite Hb, <- app_assoc; reflexivity|].
    split; [cbn [List.concat]; rewrite Hc; reflexivity|].
    assert (Hrs : List.length rs = Nat.min size (len - i)).
    { rewrite Hlen, length_firstn. unfold rest. rewrite length_skipn. reflexivity. }
    split.
    { cbn [chunked]. split; [|exact Hch].
      destruct bs as [|b bs']; [lia|].
      destruct (Nat.lt_ge_cases (i + size) len) as [Hlt|Hge]; [lia|].
      specialize (Hnil Hge). discriminate. }
    split; [intros; lia|]. split; [discriminate|].
    rewrite Hsl, <- app_assoc. f_equal.
    replace (List.length (rs :: bs) - 1) with (List.length bs)
      by (cbn [List.length]; lia).
    destruct (i + size <? len) eqn:E2.
    + apply Nat.ltb_lt in E2. specialize (Hcons E2).
      destruct bs as [|b bs']; [congruence|].
      replace (List.length (b :: bs') - 1) with (List.length bs')
        by (cbn [List.length]; lia).
      reflexivity.
    + apply Nat.ltb_ge in E2. rewrite (Hnil E2). reflexivity.
Qed.




End DispatchFacts.

Section DispatchClaims.
Import JS Sender.
Local Open Scope nat_scope.
Local Open Scope list_scope.

Lemma filter_split_length {A} (f : A -> bool) (l : list A) :
  List.length (filter f l) + List.length (filter (fun x => negb (f x)) l)
  = List.length l.
Proof.
  induction l as [|x l IH]; cbn [filter]; [reflexivity|].
  destruct (f x); cbn [negb List.length]; lia.
Qed.


(** The whole dispatch, when the connection is verified. *)
Lemma sendBulkEmails_spec (env : Env) (emails : list EmailItem)
    (subj htmlTemplate : string) (textTemplate : option string) (opts : Options) :
  verifyError env = None ->
  exists summary tr,
    sendBulkEmails env emails subj htmlTemplate textTemplate opts
    = Returned summary tr
    /\ total summary = List.length emails
    /\ summarySent summary
       = filter success (outcomesFrom env subj htmlTemplate textTemplate opts 0 emails)
    /\ summaryFailed summary
       = filter (fun r => negb (success r))
           (outcomesFrom env subj htmlTemplate textTemplate opts 0 emails)
    /\ List.concat (batchesOf tr)
       = outcomesFrom env subj htmlTemplate textTemplate opts 0 emails
    /\ chunked (natOr (batchSize opts) 5) (batchesOf tr)
    /\ sleepsOf tr
       = repeat (natOr (delay opts) 1000) (List.length (batchesOf tr) - 1).
Proof.
  intros Hv. unfold sendBulkEmails. rewrite Hv.
  match goal with
  | |- context [batchLoop _ _ _ _ _ _ _ 0 ?s] => set (st1 := s)
  end.
  destruct (batchLoop_spec env subj htmlTemplate textTemplate opts emails
              (List.length emails) 0 st1 ltac:(lia))
    as (st2 & bs & Hloop & Hs & Hf & Hb & Hc & Hch & _ & _ & Hsl).
  rewrite Hloop. cbn [skipn] in *.
  subst st1. cbn [sent failed mails trace emit app] in *.
  eexists _, _. split; [reflexivity|].
  cbn [total summarySent summaryFailed emit sent failed trace].
  unfold batchesOf, sleepsOf in *. rewrite !flat_map_app.
  rewrite Hb, Hsl. cbn [flat_map app]. rewrite !app_nil_r.
  repeat split; assumption.
Qed.




(** C9. When the connection is verified the summary partitions the input:
    there is exactly one outcome per input element, in input order; [sent]
    holds the successful outcomes and [failed] the others, so that
    [sent.length + failed.length = total = emails.length]. A failed send
    removes nothing and stops nothing. *)
Theorem sendBulkEmails_summary_partitions_input :
  forall (env : Env) (emails : list EmailItem) (subj htmlTemplate : string)
         (textTemplate : option string) (opts : Options),
    verifyError env = None ->
    exists summary tr,
      sendBulkEmails env emails subj htmlTemplate textTemplate opts
      = Returned summary tr
      /\ let all := outcomesFrom env subj htmlTemplate textTemplate opts 0 emails in
         map email all = map outcomeAddr emails
         /\ summarySent summary = filter success all
         /\ summaryFailed summary = filter (fun r => negb (success r)) all
         /\ List.length (summarySent summary) + List.length (summaryFailed summary)
            = total summary
         /\ total summary = List.length emails.
Proof.
  intros env emails subj htmlTemplate textTemplate opts Hv.
  destruct (sendBulkEmails_spec env emails subj htmlTemplate textTemplate opts Hv)
    as (summary & tr & Hrun & Ht & Hs & Hf & _).
  exists summary, tr. split; [exact Hrun|]. cbv zeta.
  split; [apply outcomes_addr|]. split; [exact Hs|]. split; [exact Hf|].
  split; [|exact Ht].
  rewrite Hs, Hf, Ht, filter_split_length. apply outcomes_length.
Qed.

Lemma sendBulkEmails_summary_partitions_input_witness :
  exists summary tr,
    sendBulkEmails SenderFixtures.transport SenderFixtures.twelve
      "Hello" "Hi {{name}}" None SenderFixtures.batchesOfFive
    = Returned summary tr
    /\ List.length (summarySent summary) + List.length (summaryFailed summary)
       = total summary
    /\ total summary = 12.
Proof.
  destruct (sendBulkEmails_summary_partitions_input SenderFixtures.transport
              SenderFixtures.twelve "Hello" "Hi {{name}}" None
              SenderFixtures.batchesOfFive eq_refl)
    as (summary & tr & Hrun & _ & _ & _ & Hsum & Htotal).
  exists summary, tr. split; [exact Hrun|]. split; [exact Hsum | exact Htotal].
Defined.

End DispatchClaims.

(** ** Template rendering *)

Section RenderFacts.
Import JS Sender.
Local Open Scope nat_scope.

Lemma append_assoc (a b c : string) : ((a ++ b) ++ c = a ++ (b ++ c))%string.
Proof. induction a as [|x a IH]; cbn; [reflexivity | now rewrite IH]. Qed.

Lemma append_nil_r (a : string) : (a ++ "")%string = a.
Proof. induction a as [|x a IH]; cbn; [reflexivity | now rewrite IH]. Qed.

Lemma length_append (a b : string) :
  String.length (a ++ b) = String.length a + String.length b.
Proof. induction a as [|x a IH]; cbn; [reflexivity | now rewrite IH]. Qed.

Lemma stripPrefix_append (p r : string) : stripPrefix p (p ++ r) = Some r.
Proof.
  induction p as [|x p IH]; cbn; [reflexivity|].
  rewrite Ascii.eqb_refl. exact IH.
Qed.

Lemma stripPrefix_length (p s r : string) :
  stripPrefix p s = Some r -> String.length s = String.length p + String.length r.
Proof.
  revert s. induction p as [|a p IH]; intros [|b s]; cbn [stripPrefix String.length];
    try discriminate.
  - intros H. injection H as <-. reflexivity.
  - intros H. injection H as <-. reflexivity.
  - destruct (Ascii.eqb a b); [|discriminate]. intros H. rewrite (IH _ H). reflexivity.
Qed.

(** The scan does not depend on its fuel once the fuel exceeds the length
    of the text. *)
Lemma replaceLoop_fuel (p replacement : string) :
  p <> EmptyString ->
  forall (fuel fuel' : nat) (before s : string),
    String.length s < fuel -> String.length s < fuel' ->
    replaceLoop fuel p replacement before s
    = replaceLoop fuel' p replacement before s.
Proof.
  intros Hp. induction fuel as [|fuel IH]; intros fuel' before s H1 H2; [lia|].
  destruct fuel' as [|fuel']; [lia|]. cbn [replaceLoop].
  destruct (stripPrefix p s) as [after|] eqn:E.
  - apply stripPrefix_length in E.
    assert (0 < String.length p) by (destruct p; [congruence | cbn; lia]).
    f_equal. apply IH; lia.
  - destruct s as [|c s]; [reflexivity|]. cbn [String.length] in *.
    f_equal. apply IH; lia.
Qed.

(** A replacement text without dollar sign stands for itself. *)
Lemma expand_dollarFree (v matched before after : string) :
  dollarFree v = true -> expand v matched before after = v.
Proof.
  induction v as [|c v IH]; cbn [dollarFree expand]; [reflexivity|].
  intros H. apply andb_prop in H as [Hc Hv].
  apply negb_true_iff in Hc. rewrite Hc, (IH Hv). reflexivity.
Qed.

(** No placeholder starts at a character that is not an opening brace, nor
    at an opening brace that is followed by something else. *)
Lemma placeholder_no_match (key : string) (c : ascii) (rest : string) :
  (if Ascii.eqb c "{"
   then match rest with
        | EmptyString => false
        | String d _ => negb (Ascii.eqb d "{")
        end
   else true) = true ->
  stripPrefix (placeholder key) (String c rest) = None.
Proof.
  unfold placeholder. cbn [append stripPrefix].
  rewrite (Ascii.eqb_sym "{" c).
  destruct (Ascii.eqb c "{"); [|reflexivity].
  destruct rest as [|d rest]; [discriminate|].
  rewrite (Ascii.eqb_sym "{" d). intros H. apply negb_true_iff in H.
  rewrite H. reflexivity.
Qed.

(** Scanning plain text copies it. *)
Lemma replaceLoop_plain (key v : string) (s : string) :
  plainText s = true ->
  forall (rest before : string) (fuel : nat),
    String.length (s ++ rest) < fuel ->
    replaceLoop fuel (placeholder key) v before (s ++ rest)
    = (s ++ replaceLoop (fuel - String.length s) (placeholder key) v
              (before ++ s) rest)%string.
Proof.
  induction s as [|c s IH]; intros Hp rest before fuel Hfuel.
  - cbn [append String.length]. rewrite Nat.sub_0_r, append_nil_r. reflexivity.
  - cbn [plainText] in Hp. apply andb_prop in Hp as [Hc Hs].
    destruct fuel as [|fuel]; [lia|].
    cbn [append replaceLoop String.length].
    rewrite placeholder_no_match.
    + cbn [append String.length] in Hfuel.
      rewrite (IH Hs rest (before ++ String c "")%string fuel) by lia.
      rewrite append_assoc. reflexivity.
    + destruct (Ascii.eqb c "{"); [|reflexivity].
      destruct s as [|d s]; [discriminate|]. exact Hc.
Qed.

(** A placeholder of another key is not a match. *)
Lemma other_key_no_match (key key' rest : string) :
  braceFree key = true -> braceFree key' = true -> key <> key' ->
  stripPrefix (placeholder key) (placeholder key' ++ rest) = None.
Proof.
  unfold placeholder. cbn [append stripPrefix]. rewrite !Ascii.eqb_refl.
  revert key'. induction key as [|c key IH]; intros [|c' key'] Hk Hk' Hne;
    cbn [append stripPrefix braceFree] in *.
  - congruence.
  - apply andb_prop in Hk' as [Hc _]. apply andb_prop in Hc as [_ Hc].
    apply negb_true_iff in Hc. rewrite (Ascii.eqb_sym "}" c'), Hc. reflexivity.
  - apply andb_prop in Hk as [Hc _]. apply andb_prop in Hc as [_ Hc].
    apply negb_true_iff in Hc. rewrite Hc. reflexivity.
  - destruct (Ascii.eqb_spec c c') as [->|Hcc]; [|reflexivity].
    apply andb_prop in Hk as [_ Hk]. apply andb_prop in Hk' as [_ Hk'].
    apply IH; [assumption | assumption | congruence].
Qed.

Lemma braceFree_plain_tail (key : string) :
  braceFree key = true -> plainText (key ++ "}}") = true.
Proof.
  induction key as [|c key IH]; cbn [append braceFree plainText]; [reflexivity|].
  intros H. apply andb_prop in H as [Hc Hk]. apply andb_prop in Hc as [Hc _].
  apply negb_true_iff in Hc. rewrite Hc, (IH Hk). reflexivity.
Qed.

(** The text of a placeholder after its first brace is plain. *)
Lemma placeholder_tail_plain (key : string) :
  braceFree key = true -> plainText (String "{" (key ++ "}}")) = true.
Proof.
  intros H. cbn [plainText]. rewrite (braceFree_plain_tail key H), andb_true_r.
  cbn. destruct key as [|c key]; [reflexivity|].
  cbn [braceFree append] in *. apply andb_prop in H as [Hc _].
  apply andb_prop in Hc as [Hc _]. exact Hc.
Qed.

Lemma placeholder_length (key : string) :
  String.length (placeholder key) = 4 + String.length key.
Proof.
  unfold placeholder. cbn [append String.length]. rewrite length_append.
  cbn [String.length]. lia.
Qed.

Lemma placeholder_cons (key rest : string) :
  (placeholder key ++ rest)%string
  = String "{" (String "{" (key ++ "}}") ++ rest)%string.
Proof. reflexivity. Qed.

(** One [replace] over a well-formed template, for any fuel above the
    length of the template. *)
Lemma replaceLoop_flatten (key v : string) :
  braceFree key = true -> dollarFree v = true ->
  forall (t : list Segment),
    forallb wfSegment t = true ->
    forall (before : string) (fuel : nat),
      String.length (flatten t) < fuel ->
      replaceLoop fuel (placeholder key) v before (flatten t)
      = flatten (map (fillOne key v) t).
Proof.
  intros Hkey Hv. induction t as [|seg t IH]; intros Hwf before fuel Hfuel.
  - destruct fuel; reflexivity.
  - cbn [forallb] in Hwf. apply andb_prop in Hwf as [Hseg Hwf].
    destruct seg as [s|key']; cbn [flatten map fillOne wfSegment] in *.
    + rewrite length_append in Hfuel.
      rewrite replaceLoop_plain by (rewrite ?length_append; auto; lia).
      rewrite IH by (auto; lia). reflexivity.
    + rewrite length_append, placeholder_length in Hfuel.
      destruct fuel as [|fuel]; [lia|]. cbn [replaceLoop flatten].
      destruct (String.eqb_spec key key') as [<-|Hne].
      * rewrite stripPrefix_append, (expand_dollarFree v _ _ _ Hv).
        rewrite IH by (auto; lia). reflexivity.
      * rewrite (other_key_no_match key key' (flatten t) Hkey Hseg Hne).
        rewrite !placeholder_cons. cbv iota.
        rewrite (replaceLoop_plain key v _ (placeholder_tail_plain key' Hseg))
          by (rewrite length_append; cbn [String.length];
              rewrite length_append; cbn [String.length]; lia).
        rewrite IH
          by (auto; cbn [String.length]; rewrite length_append;
              cbn [String.length]; lia).
        reflexivity.
Qed.

Lemma fillOne_wf (key v : string) (t : list Segment) :
  plainText v = true ->
  forallb wfSegment t = true ->
  forallb wfSegment (map (fillOne key v) t) = true.
Proof.
  intros Hv. induction t as [|seg t IH]; cbn [map forallb]; [reflexivity|].
  intros H. apply andb_prop in H as [Hseg Ht]. rewrite (IH Ht), andb_true_r.
  destruct seg as [s|key']; cbn [fillOne]; [exact Hseg|].
  destruct (String.eqb key key'); [exact Hv | exact Hseg].
Qed.

Lemma fill_cons (key : string) (v : option string) (rest : Variables)
    (seg : Segment) :
  fill rest (fillOne key (orElse v "") seg) = fill ((key, v) :: rest) seg.
Proof.
  destruct seg as [s|key']; cbn [fillOne fill lookupVar]; [reflexivity|].
  destruct (String.eqb key key'); reflexivity.
Qed.

Lemma letters_braceFree (key : string) :
  letters key = true -> braceFree key = true.
Proof.
  induction key as [|c key IH]; cbn [letters braceFree]; [reflexivity|].
  intros H. apply andb_prop in H as [Hc Hkey]. rewrite (IH Hkey), andb_true_r.
  destruct (Ascii.eqb_spec c "{") as [->|_]; [discriminate Hc|].
  destruct (Ascii.eqb_spec c "}") as [->|_]; [discriminate Hc|].
  reflexivity.
Qed.

Lemma letterKey_braceFree (key : string) :
  letterKey key = true -> braceFree key = true.
Proof.
  destruct key as [|c key]; [discriminate|]. apply letters_braceFree.
Qed.

(** Rendering a well-formed template with well-formed variables fills its
    placeholders. *)
Lemma renderTemplate_flatten (variables : Variables) :
  forallb wfBinding variables = true ->
  forall (t : list Segment),
    forallb wfSegment t = true ->
    renderTemplate (flatten t) variables = flatten (map (fill variables) t).
Proof.
  unfold renderTemplate.
  induction variables as [|[key v] rest IH]; intros Hvars t Ht.
  - cbn [fold_left]. f_equal. induction t as [|[s|k] t IHt]; cbn [map fill lookupVar].
    + reflexivity.
    + cbn [forallb] in Ht. apply andb_prop in Ht as [_ Ht]. now rewrite <- IHt.
    + cbn [forallb] in Ht. apply andb_prop in Ht as [_ Ht]. now rewrite <- IHt.
  - cbn [forallb] in Hvars. apply andb_prop in Hvars as [Hb Hrest].
    unfold wfBinding in Hb. cbn [fst snd] in Hb.
    apply andb_prop in Hb as [Hb Hdollar]. apply andb_prop in Hb as [Hkey Hplain].
    apply letterKey_braceFree in Hkey.
    cbn [fold_left fst snd]. unfold replaceAll.
    rewrite (replaceLoop_flatten key (orElse v "") Hkey Hdollar t Ht) by lia.
    rewrite (IH Hrest) by (apply fillOne_wf; assumption).
    rewrite map_map. f_equal. apply map_ext. intros seg. apply fill_cons.
Qed.

Example render_known_unknown_missing :
  renderTemplate "Hi {{name}} <{{email}}>, see {{link}}"
    [("email", Some "jane@site.org"); ("name", None)]
  = "Hi  <jane@site.org>, see {{link}}".
Proof. reflexivity. Qed.

(** What rendering does get right. Take a template made of text pieces, in
    which an opening brace is never followed by another one, and of
    placeholders whose keys contain no brace; take variables whose keys are
    made of letters and whose values contain no dollar sign and are such
    text themselves. Rendering replaces every placeholder whose key is a key
    of the variables object by the value of that key, and by the empty
    string when that value is undefined, null or empty; a placeholder whose
    key is not a key of the object is left as it is. The dispatcher always
    passes the four keys [email], [name], [username] and [repository], where
    a missing name falls back to the username and then to "Contributor", and
    a missing username or repository to the empty string. *)
Theorem renderTemplate_fills_placeholders :
  (forall (variables : Variables) (t : list Segment),
      forallb wfBinding variables = true ->
      forallb wfSegment t = true ->
      renderTemplate (flatten t) variables = flatten (map (fill variables) t))
  /\ (forall (variables : Variables) (key : string) (v : option string),
         lookupVar key variables = Some v ->
         fill variables (Hole key) = Lit (orElse v "")
         /\ (v = None \/ v = Some ""%string -> fill variables (Hole key) = Lit ""))
  /\ (forall (variables : Variables) (key : string),
         lookupVar key variables = None ->
         fill variables (Hole key) = Hole key)
  /\ (forall (addr : string) (item : EmailItem),
         let o := fieldsOf item in
         let variables := variablesOf addr item in
         lookupVar "email" variables = Some (Some addr)
         /\ lookupVar "name" variables
            = Some (Some (orElse (contactName o)
                            (orElse (contactUsername o) "Contributor")))
         /\ lookupVar "username" variables
            = Some (Some (orElse (contactUsername o) ""))
         /\ lookupVar "repository" variables
            = Some (Some (orElse (contactRepository o) ""))
         /\ forall key,
              ~ In key ["email"; "name"; "username"; "repository"]%string ->
              lookupVar key variables = None).
Proof.
  split; [|split; [|split]].
  - intros variables t Hv Ht. apply renderTemplate_flatten; assumption.
  - intros variables key v H. unfold fill. rewrite H.
    split; [reflexivity|]. intros [->| ->]; reflexivity.
  - intros variables key H. unfold fill. rewrite H. reflexivity.
  - intros addr item o variables. repeat split.
    intros key Hkey. subst variables. unfold variablesOf. cbn [lookupVar].
    repeat match goal with
           | |- context [String.eqb ?a key] =>
               destruct (String.eqb_spec a key) as [<-|?];
               [exfalso; apply Hkey; cbn; tauto|]
           end.
    reflexivity.
Qed.

Lemma renderTemplate_fills_placeholders_witness :
  renderTemplate
    (flatten [Lit "Hi "; Hole "name"; Lit " <"; Hole "email"; Lit ">, see ";
              Hole "link"])
    [("email", Some "jane@site.org"); ("name", None)]
  = flatten [Lit "Hi "; Lit ""; Lit " <"; Lit "jane@site.org"; Lit ">, see ";
             Hole "link"].
Proof.
  destruct renderTemplate_fills_placeholders as (H & _).
  apply (H [("email", Some "jane@site.org"); ("name", None)]
           [Lit "Hi "; Hole "name"; Lit " <"; Hole "email"; Lit ">, see ";
            Hole "link"]); reflexivity.
Defined.

(** C7. The value of a variable is not always substituted literally: it is
    handed to [String.prototype.replace] as a replacement pattern, in which a
    dollar sign has a meaning of its own. With the template [Pay {{name}}]
    and the name [US$$] the rendered text is [Pay US$], with one dollar sign
    lost; the name [$&] brings the placeholder back instead of the name. The
    dispatcher sends such a body to a recipient with such a name. *)
Theorem renderTemplate_value_not_literal :
  renderTemplate "Pay {{name}}" [("name", Some "US$$")] = "Pay US$"
  /\ renderTemplate "Pay {{name}}" [("name", Some "US$$")] <> "Pay US$$"
  /\ renderTemplate "Hi {{name}}!" [("name", Some "$&")] = "Hi {{name}}!"
  /\ deliveries "Pay {{name}}"
       [Entry {| contactEmail := Some "ann@site.org"; contactName := Some "US$$";
                 contactUsername := Some "ann"; contactRepository := None |}]
     = [("ann@site.org", "Pay US$")].
Proof. repeat split. discriminate. Qed.

End RenderFacts.

(** ** The contributors pass *)

Section ContributorsPass.
Import JS Filter Collector.
Local Open Scope nat_scope.
Local Open Scope list_scope.

Variable api : Api.
Variables owner repo : string.

Lemma processContributor_calls (name : string) (c : Contributor) (w : World) :
  contributorCalls (snd (processContributor api name c w)) = contributorCalls w
  /\ commitCalls (snd (processContributor api name c w)) = commitCalls w.
Proof.
  unfold processContributor.
  destruct (login c) as [[|a l]|];
    [destruct (contributorEmail c) as [[|? ?]|]
    |destruct (getUser api (userCalls w) (String a l)) as [u|e];
       [destruct (extractEmailFromUser u)|]
    |destruct (contributorEmail c) as [[|? ?]|]];
    repeat match goal with
           | |- context [if ?b then _ else _] => destruct b
           end; cbn; auto.
Qed.

Lemma processBatch_calls (name : string) (batch : list Contributor) (w : World) :
  contributorCalls (snd (processBatch api name batch w)) = contributorCalls w
  /\ commitCalls (snd (processBatch api name batch w)) = commitCalls w.
Proof.
  revert w. induction batch as [|c batch IH]; intros w; cbn [processBatch].
  - auto.
  - pose proof (processContributor_calls name c w) as [H1 H2].
    destruct (processContributor api name c w) as [r w1].
    pose proof (IH w1) as [H3 H4].
    destruct (processBatch api name batch w1) as [rs w2].
    cbn [snd] in *. split; congruence.
Qed.

Lemma processPage_calls (name : string) (cs : list Contributor)
    (pg fetched fuel : nat) :
  forall (i : nat) (acc : list EmailData) (w : World),
    contributorCalls (snd (processPage api name cs pg fetched fuel i acc w))
    = contributorCalls w
    /\ commitCalls (snd (processPage api name cs pg fetched fuel i acc w))
       = commitCalls w.
Proof.
  induction fuel as [|fuel IH]; intros i acc w; cbn [processPage].
  - destruct (i <? List.length cs); auto.
  - destruct (i <? List.length cs); [|auto].
    pose proof (processBatch_calls name (slice i (i + 5) cs) w) as [H1 H2].
    destruct (processBatch api name (slice i (i + 5) cs) w) as [rs w1].
    cbn [snd] in *.
    match goal with
    | |- context [processPage _ _ _ _ _ fuel ?j ?a ?w'] =>
        destruct (IH j a w') as [H3 H4]
    end.
    cbn [contributorCalls commitCalls emit] in *. split; congruence.
Qed.

(** The results of a batch depend on the world only through the number of
    user lookups made so far. *)
Lemma processContributor_lookups (name : string) (c : Contributor) (w w' : World) :
  userCalls w = userCalls w' ->
  fst (processContributor api name c w) = fst (processContributor api name c w')
  /\ userCalls (snd (processContributor api name c w))
     = userCalls (snd (processContributor api name c w')).
Proof.
  intros H. unfold processContributor. rewrite H.
  destruct (login c) as [[|a l]|];
    [destruct (contributorEmail c) as [[|? ?]|]
    |destruct (getUser api (userCalls w') (String a l)) as [u|e];
       [destruct (extractEmailFromUser u)|]
    |destruct (contributorEmail c) as [[|? ?]|]];
    repeat match goal with
           | |- context [if ?b then _ else _] => destruct b
           end; cbn; auto.
Qed.

Lemma processBatch_lookups (name : string) (batch : list Contributor) :
  forall w w' : World,
    userCalls w = userCalls w' ->
    fst (processBatch api name batch w) = fst (processBatch api name batch w')
    /\ userCalls (snd (processBatch api name batch w))
       = userCalls (snd (processBatch api name batch w')).
Proof.
  induction batch as [|c batch IH]; intros w w' H; cbn [processBatch].
  - auto.
  - destruct (processContributor_lookups name c w w' H) as [H1 H2].
    destruct (processContributor api name c w) as [r w1].
    destruct (processContributor api name c w') as [r' w1'].
    cbn [fst snd] in H1, H2. subst r'.
    destruct (IH w1 w1' H2) as [H3 H4].
    destruct (processBatch api name batch w1) as [rs w2].
    destruct (processBatch api name batch w1') as [rs' w2'].
    cbn [fst snd] in *. subst rs'. auto.
Qed.

Lemma processBatch_app (name : string) (a b : list Contributor) (w : World) :
  fst (processBatch api name (a ++ b) w)
  = fst (processBatch api name a w)
      ++ fst (processBatch api name b (snd (processBatch api name a w))).
Proof.
  revert w. induction a as [|c a IH]; intros w; cbn [app processBatch].
  - reflexivity.
  - destruct (processContributor api name c w) as [r w1].
    specialize (IH w1).
    destruct (processBatch api name (a ++ b) w1) as [rs w2].
    destruct (processBatch api name a w1) as [rs' w2'].
    cbn [fst snd] in *. rewrite IH. destruct r; reflexivity.
Qed.

(** The sub-batches of a page cover the page: with a fuel of the length of
    the page the loop gathers the results of all its contributors. *)
Lemma processPage_all (name : string) (cs : list Contributor)
    (pg fetched fuel : nat) :
  forall (i : nat) (acc : list EmailData) (w : World),
    List.length cs - i <= fuel ->
    fst (processPage api name cs pg fetched fuel i acc w)
    = acc ++ fst (processBatch api name (skipn i cs) w).
Proof.
  induction fuel as [|fuel IH]; intros i acc w Hfuel; cbn [processPage].
  - assert (E : (i <? List.length cs) = false) by (apply Nat.ltb_ge; lia).
    rewrite E, skipn_all2 by lia. cbn. now rewrite app_nil_r.
  - destruct (i <? List.length cs) eqn:E.
    2:{ apply Nat.ltb_ge in E. rewrite skipn_all2 by lia. cbn. now rewrite app_nil_r. }
    unfold slice. replace (i + 5 - i) with 5 by lia.
    pose proof (processBatch_app name (firstn 5 (skipn i cs)) (skipn 5 (skipn i cs)) w)
      as Happ.
    rewrite firstn_skipn in Happ. rewrite Happ.
    destruct (processBatch api name (firstn 5 (skipn i cs)) w) as [rs w1].
    cbn [fst snd]. rewrite IH by lia. rewrite <- app_assoc. f_equal. f_equal.
    rewrite skipn_skipn. replace (5 + i) with (i + 5) by lia.
    apply processBatch_lookups. reflexivity.
Qed.

(** A page that was fetched below the page ceiling: the counters after it. *)
Lemma contributorsStep_got (st : ContributorsState) (pg : Page) :
  getContributorsWithPagination api (contributorCalls (world st)) owner repo
    (page st) 100 = Got pg ->
  page st < maxPages ->
  exists st',
    contributorsStep api owner repo st = Continue st'
    /\ consecutiveEmptyPages st'
       = (if contributorCountOf pg =? 0 then S (consecutiveEmptyPages st) else 0)
    /\ totalContributorsFetched st'
       = totalContributorsFetched st + contributorCountOf pg
    /\ consecutiveErrors st' = 0
    /\ hasMore st'
       = (if maxConsecutiveEmptyPages <=? consecutiveEmptyPages st'
          then false else hasMore st)
    /\ page st'
       = (if maxConsecutiveEmptyPages <=? consecutiveEmptyPages st'
          then page st else S (page st))
    /\ contributorCalls (world st') = S (contributorCalls (world st))
    /\ commitCalls (world st') = commitCalls (world st).
Proof.
  intros Hget Hpage. unfold contributorsStep. rewrite Hget.
  assert (E : (maxPages <=? page st) = false) by (apply Nat.leb_gt; exact Hpage).
  rewrite E. unfold contributorCountOf.
  set (cs := match contributors pg with Some l => l | None => [] end).
  assert (Hcs : match contributors pg with Some l => List.length l | None => 0 end
                = List.length cs) by (subst cs; destruct (contributors pg); reflexivity).
  rewrite Hcs.
  match goal with
  | |- context [if 0 <? List.length cs then ?a else ?b] =>
      assert (Hw : contributorCalls (snd (if 0 <? List.length cs then a else b))
                   = S (contributorCalls (world st))
                   /\ commitCalls (snd (if 0 <? List.length cs then a else b))
                      = commitCalls (world st));
      [|destruct (if 0 <? List.length cs then a else b) as [emails1 w2]]
  end.
  { destruct (0 <? List.length cs).
    - match goal with
      | |- context [processPage _ ?n _ ?p ?f ?fu ?i ?a ?w] =>
          destruct (processPage_calls n cs p f fu i a w) as [-> ->]
      end. split; reflexivity.
    - split; reflexivity. }
  cbn [snd] in Hw. destruct Hw as [Hw1 Hw2].
  eexists. split; [reflexivity|].
  cbn [consecutiveEmptyPages totalContributorsFetched consecutiveErrors hasMore
       page world contributorCalls commitCalls emit].
  repeat split; try assumption.
  - destruct (List.length cs =? 0) eqn:E0; [|reflexivity].
    apply Nat.eqb_eq in E0. lia.
  - destruct (maxConsecutiveEmptyPages <=? _); [reflexivity|].
    destruct (hasNextPage pg); [reflexivity|].
    destruct (List.length cs =? 0); [reflexivity|].
    destruct (List.length cs <? 100); reflexivity.
Qed.

Lemma contributorsLoop_eq (fuel : nat) (st : ContributorsState) :
  contributorsLoop api owner repo (S fuel) st
  = if hasMore st && (page st <=? maxPages) then
      match contributorsStep api owner repo st with
      | Continue st' => contributorsLoop api owner repo fuel st'
      | Break st' => Finished st'
      | Throws e st' => Threw e st'
      end
    else Finished st.
Proof. reflexivity. Qed.

Lemma maxPages_pos : 1 <= maxPages.
Proof. unfold maxPages. lia. Qed.

(** The pass ends within its fuel, and it ends for one of its three
    reasons or with a rate-limit error. *)
Lemma contributorsLoop_spec (fuel : nat) :
  forall st : ContributorsState,
    passInvariant st ->
    passMeasure st <= fuel ->
    match contributorsLoop api owner repo fuel st with
    | Finished st' => hasMore st' = false /\ stopReason st'
    | Threw e _ => includes (message e) "rate limit" = true
    | OutOfFuel => False
    end.
Proof.
  pose proof maxPages_pos as Hmax.
  induction fuel as [|fuel IH]; intros st (Hpage & Hrun & Hstop) Hfuel.
  - unfold passMeasure in Hfuel. cbn [contributorsLoop].
    destruct (hasMore st) eqn:Hm; cbn [andb].
    + destruct (Hrun eq_refl) as [_ He]. unfold maxConsecutiveErrors in He. lia.
    + auto.
  - rewrite contributorsLoop_eq.
    destruct (hasMore st) eqn:Hm; cbn [andb]; [|auto].
    destruct (Hrun eq_refl) as [Hep Her].
    assert (E : (page st <=? maxPages) = true) by (apply Nat.leb_le; exact Hpage).
    rewrite E.
    destruct (getContributorsWithPagination api (contributorCalls (world st))
                owner repo (page st) 100) as [pg|e] eqn:Hget.
    + destruct (Nat.eq_dec (page st) maxPages) as [Hlast|Hnot].
      * unfold contributorsStep. rewrite Hget.
        assert (E2 : (maxPages <=? page st) = true) by (apply Nat.leb_le; lia).
        rewrite E2. cbn [hasMore]. split; [reflexivity|].
        right; left. exact Hlast.
      * destruct (contributorsStep_got st pg Hget ltac:(lia))
          as (st' & -> & Hep' & _ & Her' & Hm' & Hp' & _ & _).
        apply IH.
        -- unfold passInvariant, stopReason.
           rewrite Hm', Hp', Her'. rewrite Hm.
           unfold maxConsecutiveEmptyPages, maxConsecutiveErrors in *.
           destruct (3 <=? consecutiveEmptyPages st') eqn:E3.
           ++ apply Nat.leb_le in E3.
              assert (consecutiveEmptyPages st' = 3)
                by (destruct (contributorCountOf pg =? 0); lia).
              repeat split; try lia; try discriminate; try (intros _; left; assumption).
           ++ apply Nat.leb_gt in E3.
              repeat split; try lia; discriminate.
        -- unfold passMeasure in *. rewrite Hm', Hp', Her'. rewrite Hm in *.
           unfold maxConsecutiveErrors in *.
           destruct (maxConsecutiveEmptyPages <=? consecutiveEmptyPages st'); lia.
    + unfold contributorsStep. rewrite Hget.
      destruct (includes (message e) "rate limit") eqn:Hrl; [exact Hrl|].
      unfold maxConsecutiveErrors in *.
      destruct (3 <=? S (consecutiveErrors st)) eqn:E3.
      * apply Nat.leb_le in E3. apply IH.
        -- unfold passInvariant, stopReason, maxConsecutiveErrors.
           cbn [page hasMore consecutiveErrors consecutiveEmptyPages].
           repeat split; try lia; try discriminate; try (intros _; right; right; lia).
        -- unfold passMeasure. cbn [hasMore]. lia.
      * apply Nat.leb_gt in E3. apply IH.
        -- unfold passInvariant, stopReason, maxConsecutiveErrors.
           cbn [page hasMore consecutiveErrors consecutiveEmptyPages].
           rewrite Hm. repeat split; try lia; discriminate.
        -- unfold passMeasure in *.
           cbn [page hasMore consecutiveErrors]. rewrite Hm in *. lia.
Qed.

Lemma collectFromContributors_spec (w : World) :
  match collectFromContributors api owner repo w with
  | Finished st' => hasMore st' = false /\ stopReason st'
  | Threw e _ => includes (message e) "rate limit" = true
  | OutOfFuel => False
  end.
Proof.
  unfold collectFromContributors. apply contributorsLoop_spec.
  - unfold passInvariant, contributorsStart, stopReason, maxPages,
      maxConsecutiveEmptyPages, maxConsecutiveErrors. cbn.
    repeat split; try lia; discriminate.
  - unfold passMeasure, contributorsStart. cbn [hasMore page consecutiveErrors].
    lia.
Qed.

End ContributorsPass.

(** ** The commits pass *)

Section CommitsPass.
Import JS Filter Collector.
Local Open Scope nat_scope.
Local Open Scope list_scope.

Variable api : Api.
Variables owner repo : string.
Variable limit : nat.

Lemma processCommits_total (name : string) (commits : list Commit) :
  forall (acc : list EmailData) (total : nat),
    total <= snd (processCommits name limit commits acc total)
    /\ (commits <> [] -> total < limit ->
        total < snd (processCommits name limit commits acc total)).
Proof.
  induction commits as [|c commits IH]; intros acc total; cbn [processCommits].
  - split; [cbn; lia | congruence].
  - destruct (limit <=? total) eqn:E.
    + apply Nat.leb_le in E. split; [cbn; lia | intros; lia].
    + match goal with
      | |- context [processCommits name limit commits ?a (S total)] =>
          destruct (IH a (S total)) as [H _]
      end.
      split; [lia | intros; lia].
Qed.

Lemma commitsLoop_eq (fuel : nat) (st : CommitsState) :
  commitsLoop api owner repo limit (S fuel) st
  = if commitHasMore st && (totalCommits st <? limit) then
      match commitsStep api owner repo limit st with
      | Continue st' => commitsLoop api owner repo limit fuel st'
      | Break st' => Finished st'
      | Throws e st' => Threw e st'
      end
    else Finished st.
Proof. reflexivity. Qed.

(** What an iteration of the commits pass leaves behind, whatever its
    outcome: the call of the page comes first in what it adds to the
    trace, the contributors counter is untouched, and the bound on the
    remaining iterations has gone down. *)
Lemma commitsStep_spec (st : CommitsState) :
  commitHasMore st = true ->
  totalCommits st < limit ->
  commitErrors st < maxConsecutiveErrors ->
  let after st' :=
    (exists more,
        trace (commitWorld st')
        = trace (commitWorld st) ++ CallCommits (commitPage st) :: more)
    /\ commitCalls (commitWorld st') = S (commitCalls (commitWorld st)) in
  match commitsStep api owner repo limit st with
  | Continue st' =>
      after st'
      /\ (commitHasMore st' = true -> commitErrors st' < maxConsecutiveErrors)
      /\ commitsMeasure limit st' < commitsMeasure limit st
  | Break st' => after st'
  | Throws e st' => after st' /\ includes (message e) "rate limit" = true
  end.
Proof.
  intros Hm Ht He after. subst after. unfold commitsStep, maxConsecutiveErrors in *.
  destruct (getCommits api (commitCalls (commitWorld st)) owner repo (commitPage st))
    as [[[|c cs]|]|e].
  - cbn. split; eauto.
  - pose proof (processCommits_total (repositoryNameOf owner repo) (c :: cs)
                  (commitEmails st) (totalCommits st)) as [_ Hgrow].
    specialize (Hgrow ltac:(discriminate) Ht).
    destruct (processCommits (repositoryNameOf owner repo) limit (c :: cs)
                (commitEmails st) (totalCommits st)) as [emails1 total1].
    cbn [snd] in Hgrow.
    cbn [commitWorld commitHasMore commitErrors totalCommits trace commitCalls
         emit countCommitCall].
    repeat split.
    + rewrite <- !app_assoc. cbn [app]. eauto.
    + intros _. lia.
    + unfold commitsMeasure.
      cbn [commitHasMore commitErrors totalCommits]. rewrite Hm.
      destruct (List.length (c :: cs) <? 100); lia.
  - cbn. split; eauto.
  - set (msg := orElse (Some (message e)) "Error").
    assert (Hmsg : includes msg "rate limit" = true ->
                   includes (message e) "rate limit" = true).
    { subst msg. cbn [orElse]. destruct (message e); [discriminate | auto]. }
    destruct (includes msg "rate limit") eqn:Hrl.
    + cbn. split; [split; eauto|]. auto.
    + destruct (3 <=? S (commitErrors st)) eqn:E3.
      * cbn. unfold commitsMeasure. cbn. rewrite Hm.
        repeat split; eauto; try discriminate; try lia.
      * apply Nat.leb_gt in E3.
        destruct (isTransientError e msg);
          cbn [commitWorld commitHasMore commitErrors totalCommits trace commitCalls
               emit countCommitCall];
          unfold commitsMeasure;
          cbn [commitHasMore commitErrors totalCommits]; rewrite Hm;
          repeat split; try lia;
          rewrite <- !app_assoc; cbn [app]; eauto.
Qed.

(** The commits pass ends within its fuel, and what it leaves in the trace
    comes after what was there. *)
Lemma commitsLoop_spec (fuel : nat) :
  forall st : CommitsState,
    (commitHasMore st = true -> commitErrors st < maxConsecutiveErrors) ->
    commitsMeasure limit st <= fuel ->
    match commitsLoop api owner repo limit fuel st with
    | Finished st' =>
        exists more, trace (commitWorld st') = trace (commitWorld st) ++ more
    | Threw e st' =>
        (exists more, trace (commitWorld st') = trace (commitWorld st) ++ more)
        /\ includes (message e) "rate limit" = true
    | OutOfFuel => False
    end.
Proof.
  induction fuel as [|fuel IH]; intros st Herr Hfuel.
  - cbn [commitsLoop]. unfold commitsMeasure, maxConsecutiveErrors in *.
    destruct (commitHasMore st) eqn:Hm; cbn [andb].
    + destruct (totalCommits st <? limit) eqn:E.
      * apply Nat.ltb_lt in E. specialize (Herr eq_refl). lia.
      * exists []. now rewrite app_nil_r.
    + exists []. now rewrite app_nil_r.
  - rewrite commitsLoop_eq.
    destruct (commitHasMore st) eqn:Hm; cbn [andb];
      [|exists []; now rewrite app_nil_r].
    destruct (totalCommits st <? limit) eqn:E;
      [|exists []; now rewrite app_nil_r].
    apply Nat.ltb_lt in E.
    pose proof (commitsStep_spec st Hm E (Herr eq_refl)) as Hstep. cbv zeta in Hstep.
    destruct (commitsStep api owner repo limit st) as [st'|st'|e st'].
    + destruct Hstep as (((more & Htr) & _) & Herr' & Hdec).
      specialize (IH st' Herr' ltac:(lia)).
      destruct (commitsLoop api owner repo limit fuel st') as [st''|e st''|].
      * destruct IH as [more' ->]. rewrite Htr, <- app_assoc. eauto.
      * destruct IH as [[more' ->] Hrl]. rewrite Htr, <- app_assoc. eauto.
      * exact IH.
    + destruct Hstep as ((more & Htr) & _). eauto.
    + destruct Hstep as (((more & Htr) & _) & Hrl). eauto.
Qed.

(** The commits pass always asks for its first page. *)
Lemma collectFromCommits_spec (w : World) :
  0 < limit ->
  match collectFromCommits api owner repo limit w with
  | Finished st' | Threw _ st' =>
      exists more,
        trace (commitWorld st')
        = trace w ++ Progress "commits" [("page", 1)] :: CallCommits 1 :: more
  | OutOfFuel => False
  end.
Proof.
  intros Hlimit. unfold collectFromCommits.
  replace (3 * limit + 1) with (S (3 * limit)) by lia.
  rewrite commitsLoop_eq.
  set (st0 := commitsStart w).
  assert (E : (totalCommits st0 <? limit) = true) by (apply Nat.ltb_lt; exact Hlimit).
  change (commitHasMore st0) with true. rewrite E. cbn [andb].
  pose proof (commitsStep_spec st0 eq_refl Hlimit
                ltac:(unfold maxConsecutiveErrors; cbn; lia)) as Hstep.
  cbv zeta in Hstep.
  assert (Htr0 : forall more,
             trace (commitWorld st0) ++ CallCommits (commitPage st0) :: more
             = trace w ++ Progress "commits" [("page", 1)] :: CallCommits 1 :: more).
  { intros more. cbn. rewrite <- app_assoc. reflexivity. }
  destruct (commitsStep api owner repo limit st0) as [st'|st'|e st'].
  - destruct Hstep as (((more & Htr) & _) & Herr' & Hdec).
    pose proof (commitsLoop_spec (3 * limit) st' Herr') as Hloop.
    assert (Hm : commitsMeasure limit st' <= 3 * limit).
    { unfold commitsMeasure in Hdec at 2. cbn in Hdec. lia. }
    specialize (Hloop Hm).
    destruct (commitsLoop api owner repo limit (3 * limit) st') as [st''|e st''|].
    + destruct Hloop as [more' ->]. rewrite Htr, Htr0, <- app_assoc. cbn [app]. eauto.
    + destruct Hloop as [[more' ->] _]. rewrite Htr, Htr0, <- app_assoc.
      cbn [app]. eauto.
    + exact Hloop.
  - destruct Hstep as ((more & Htr) & _). rewrite Htr, Htr0. eauto.
  - destruct Hstep as (((more & Htr) & _) & _). rewrite Htr, Htr0. eauto.
Qed.

End CommitsPass.

(** ** The run: rate-limit errors and the merge *)

Section RunClaims.
Import JS Filter Collector.
Local Open Scope nat_scope.
Local Open Scope list_scope.







(** *** The map of addresses *)

Lemma mapGet_mapSet_eq (k : string) (v : EmailData) (m : EmailMap) :
  mapGet k (mapSet k v m) = Some v.
Proof.
  induction m as [|[k' v'] m IH]; cbn [mapSet mapGet].
  - now rewrite String.eqb_refl.
  - destruct (String.eqb k' k) eqn:E; cbn [mapGet]; rewrite E; auto.
Qed.

Lemma mapGet_mapSet_ne (k k' : string) (v : EmailData) (m : EmailMap) :
  k <> k' -> mapGet k' (mapSet k v m) = mapGet k' m.
Proof.
  intros Hne. induction m as [|[k0 v0] m IH]; cbn [mapSet mapGet].
  - destruct (String.eqb_spec k k'); [contradiction | reflexivity].
  - destruct (String.eqb_spec k0 k) as [->|Hk0]; cbn [mapGet].
    + destruct (String.eqb_spec k k'); [contradiction | reflexivity].
    + rewrite IH. reflexivity.
Qed.

Lemma mapHas_mapGet (k : string) (m : EmailMap) :
  mapHas k m = match mapGet k m with Some _ => true | None => false end.
Proof.
  induction m as [|[k' v'] m IH]; cbn [mapHas mapGet]; [reflexivity|].
  destruct (String.eqb k' k); cbn [orb]; auto.
Qed.

Lemma mapGet_In (k : string) (v : EmailData) (m : EmailMap) :
  mapGet k m = Some v -> In (k, v) m.
Proof.
  induction m as [|[k' v'] m IH]; cbn [mapGet]; [discriminate|].
  destruct (String.eqb_spec k' k) as [->|Hne].
  - intros H. injection H as ->. left. reflexivity.
  - intros H. right. auto.
Qed.

Lemma In_mapGet (k : string) (v : EmailData) (m : EmailMap) :
  NoDup (map fst m) -> In (k, v) m -> mapGet k m = Some v.
Proof.
  induction m as [|[k' v'] m IH]; cbn [map fst mapGet In]; [contradiction|].
  intros Hnd [H|H].
  - injection H as -> ->. now rewrite String.eqb_refl.
  - apply NoDup_cons_iff in Hnd as [Hnotin Hnd].
    destruct (String.eqb_spec k' k) as [->|Hne]; [|auto].
    exfalso. apply Hnotin. apply (in_map fst) in H. exact H.
Qed.

Lemma mapSet_keys (k : string) (v : EmailData) (m : EmailMap) :
  map fst (mapSet k v m)
  = if mapHas k m then map fst m else map fst m ++ [k].
Proof.
  induction m as [|[k' v'] m IH]; cbn [mapSet mapHas map fst app]; [reflexivity|].
  destruct (String.eqb k' k) eqn:E; cbn [orb map fst]; [reflexivity|].
  rewrite IH. destruct (mapHas k m); reflexivity.
Qed.

Lemma mapHas_false_notin (k : string) (m : EmailMap) :
  mapHas k m = false -> ~ In k (map fst m).
Proof.
  induction m as [|[k' v'] m IH]; cbn [mapHas map fst In]; [tauto|].
  destruct (String.eqb_spec k' k) as [->|Hne]; cbn [orb]; [discriminate|].
  intros H [Heq|Hin]; [contradiction | exact (IH H Hin)].
Qed.

Lemma mapSet_NoDup (k : string) (v : EmailData) (m : EmailMap) :
  NoDup (map fst m) -> NoDup (map fst (mapSet k v m)).
Proof.
  intros Hnd. rewrite mapSet_keys.
  destruct (mapHas k m) eqn:E; [exact Hnd|].
  apply NoDup_app; [exact Hnd | repeat constructor; cbn; tauto |].
  intros x Hx [<-|[]]. exact (mapHas_false_notin _ _ E Hx).
Qed.

Lemma mapSet_keyed (d : EmailData) (m : EmailMap) :
  keyed m -> keyed (mapSet (email d) d m).
Proof.
  unfold keyed. induction m as [|[k' v'] m IH]; cbn [mapSet]; intros H.
  - repeat constructor.
  - inversion H as [|? ? Hhd Htl]; subst. cbn [fst snd] in Hhd.
    destruct (String.eqb_spec k' (email d)) as [->|Hne].
    + constructor; [reflexivity | exact Htl].
    + constructor; [exact Hhd | auto].
Qed.

Lemma mapSet_values (k : string) (v v' : EmailData) (m : EmailMap) :
  In v' (mapValues (mapSet k v m)) -> v' = v \/ In v' (mapValues m).
Proof.
  unfold mapValues. induction m as [|[k0 v0] m IH]; cbn [mapSet map snd In].
  - intros [H|[]]; auto.
  - destruct (String.eqb k0 k); cbn [map snd In].
    + intros [H|H]; auto.
    + intros [H|H]; [auto|]. destruct (IH H); auto.
Qed.

Lemma keyed_values (m : EmailMap) :
  keyed m -> map email (mapValues m) = map fst m.
Proof.
  unfold keyed, mapValues. induction m as [|[k v] m IH]; intros H; [reflexivity|].
  inversion H as [|? ? Hhd Htl]; subst. cbn [map fst snd] in *.
  rewrite Hhd, (IH Htl). reflexivity.
Qed.

Lemma find_app_first {A} (f : A -> bool) (a b : list A) :
  find f (a ++ b) = match find f a with Some x => Some x | None => find f b end.
Proof.
  induction a as [|x a IH]; cbn [app find]; [reflexivity|].
  destruct (f x); auto.
Qed.

(** After the contributors pass an address maps to the last record of the
    pass that has it. *)
Lemma addContributorEmails_get (cs : list EmailData) :
  forall (m : EmailMap) (k : string),
    mapGet k (addContributorEmails cs m)
    = match lastWith k cs with
      | Some d => Some d
      | None => mapGet k m
      end.
Proof.
  unfold addContributorEmails, lastWith.
  induction cs as [|d cs IH]; intros m k; cbn [fold_left rev find]; [reflexivity|].
  rewrite IH, find_app_first. cbn [find].
  destruct (find (fun d0 => String.eqb (email d0) k) (rev cs)); [reflexivity|].
  destruct (String.eqb_spec (email d) k) as [<-|Hne].
  - apply mapGet_mapSet_eq.
  - apply mapGet_mapSet_ne. exact Hne.
Qed.

(** The commits pass fills only the addresses that are not there yet, with
    the first record of the pass that has them. *)
Lemma addCommitEmails_get (ms : list EmailData) :
  forall (m : EmailMap) (k : string),
    mapGet k (addCommitEmails ms m)
    = match mapGet k m with
      | Some v => Some v
      | None => firstWith k ms
      end.
Proof.
  unfold addCommitEmails, firstWith.
  induction ms as [|d ms IH]; intros m k; cbn [fold_left find].
  - destruct (mapGet k m); reflexivity.
  - rewrite IH. rewrite mapHas_mapGet.
    destruct (mapGet (email d) m) as [v0|] eqn:Hd.
    + destruct (String.eqb_spec (email d) k) as [<-|Hne].
      * rewrite Hd. reflexivity.
      * reflexivity.
    + destruct (String.eqb_spec (email d) k) as [<-|Hne].
      * rewrite mapGet_mapSet_eq, Hd. reflexivity.
      * rewrite (mapGet_mapSet_ne _ _ _ _ Hne). reflexivity.
Qed.

(** Both passes keep the map well formed and add nothing of their own
    making. *)
Lemma addContributorEmails_wf (cs : list EmailData) :
  forall m : EmailMap,
    NoDup (map fst m) -> keyed m ->
    NoDup (map fst (addContributorEmails cs m))
    /\ keyed (addContributorEmails cs m)
    /\ forall v, In v (mapValues (addContributorEmails cs m)) ->
                 In v cs \/ In v (mapValues m).
Proof.
  unfold addContributorEmails.
  induction cs as [|d cs IH]; intros m Hnd Hk; cbn [fold_left].
  - repeat split; auto.
  - destruct (IH (mapSet (email d) d m) (mapSet_NoDup _ _ _ Hnd) (mapSet_keyed _ _ Hk))
      as (H1 & H2 & H3).
    repeat split; [exact H1 | exact H2|].
    intros v Hv. destruct (H3 v Hv) as [H|H]; [left; right; exact H|].
    destruct (mapSet_values _ _ _ _ H) as [->|H']; [left; left; reflexivity|].
    right. exact H'.
Qed.

Lemma addCommitEmails_wf (ms : list EmailData) :
  forall m : EmailMap,
    NoDup (map fst m) -> keyed m ->
    NoDup (map fst (addCommitEmails ms m))
    /\ keyed (addCommitEmails ms m)
    /\ forall v, In v (mapValues (addCommitEmails ms m)) ->
                 In v ms \/ In v (mapValues m).
Proof.
  unfold addCommitEmails.
  induction ms as [|d ms IH]; intros m Hnd Hk; cbn [fold_left].
  - repeat split; auto.
  - destruct (mapHas (email d) m).
    + destruct (IH m Hnd Hk) as (H1 & H2 & H3).
      repeat split; [exact H1 | exact H2|].
      intros v Hv. destruct (H3 v Hv) as [H|H]; [left; right; exact H | right; exact H].
    + destruct (IH (mapSet (email d) d m) (mapSet_NoDup _ _ _ Hnd)
                  (mapSet_keyed _ _ Hk)) as (H1 & H2 & H3).
      repeat split; [exact H1 | exact H2|].
      intros v Hv. destruct (H3 v Hv) as [H|H]; [left; right; exact H|].
      destruct (mapSet_values _ _ _ _ H) as [->|H']; [left; left; reflexivity|].
      right. exact H'.
Qed.

(** The merge of the two passes. *)
Lemma merge_spec (cs ms : list EmailData) :
  let m := addCommitEmails ms (addContributorEmails cs []) in
  NoDup (map fst m)
  /\ keyed m
  /\ NoDup (map email (mapValues m))
  /\ (forall k,
         mapGet k m = match lastWith k cs with
                      | Some d => Some d
                      | None => firstWith k ms
                      end)
  /\ (forall v, In v (mapValues m) <-> mapGet (email v) m = Some v)
  /\ (forall v, In v (mapValues m) -> In v cs \/ In v ms).
Proof.
  intros m.
  destruct (addContributorEmails_wf cs [] (NoDup_nil _) (Forall_nil _))
    as (C1 & C2 & C3).
  destruct (addCommitEmails_wf ms (addContributorEmails cs []) C1 C2)
    as (M1 & M2 & M3).
  fold m in M1, M2, M3.
  split; [exact M1|]. split; [exact M2|].
  split; [rewrite (keyed_values m M2); exact M1|].
  split.
  { intros k. subst m. rewrite addCommitEmails_get, addContributorEmails_get.
    cbn [mapGet]. destruct (lastWith k cs); reflexivity. }
  split.
  { intros v. split.
    - intros Hv. unfold mapValues in Hv. apply in_map_iff in Hv as ([k v'] & <- & Hin).
      cbn [snd]. unfold keyed in M2. rewrite Forall_forall in M2.
      pose proof (M2 _ Hin) as Hkey. cbn [fst snd] in Hkey. rewrite Hkey.
      apply In_mapGet; assumption.
    - intros Hget. apply mapGet_In in Hget. unfold mapValues.
      apply in_map_iff. exists (email v, v). split; [reflexivity | exact Hget]. }
  intros v Hv. destruct (M3 v Hv) as [H|H]; [right; exact H|].
  destruct (C3 v H) as [H'|[]]. left. exact H'.
Qed.

(** *** Addresses in normal form *)

Lemma lowerChar_idempotent (c : ascii) : lowerChar (lowerChar c) = lowerChar c.
Proof. destruct c as [[] [] [] [] [] [] [] []]; reflexivity. Qed.

Lemma isSpace_lowerChar (c : ascii) : isSpace (lowerChar c) = isSpace c.
Proof. destruct c as [[] [] [] [] [] [] [] []]; reflexivity. Qed.

Lemma toLowerCase_idempotent (s : string) :
  toLowerCase (toLowerCase s) = toLowerCase s.
Proof.
  induction s as [|c s IH]; cbn [toLowerCase]; [reflexivity|].
  now rewrite lowerChar_idempotent, IH.
Qed.

Lemma trimStart_toLowerCase (s : string) :
  trimStart (toLowerCase s) = toLowerCase (trimStart s).
Proof.
  induction s as [|c s IH]; cbn [toLowerCase trimStart]; [reflexivity|].
  rewrite isSpace_lowerChar. destruct (isSpace c); [exact IH | reflexivity].
Qed.

Lemma trimEnd_toLowerCase (s : string) :
  trimEnd (toLowerCase s) = toLowerCase (trimEnd s).
Proof.
  induction s as [|c s IH]; cbn [toLowerCase trimEnd]; [reflexivity|].
  rewrite IH, isSpace_lowerChar.
  destruct (trimEnd s); cbn [toLowerCase]; [destruct (isSpace c)|]; reflexivity.
Qed.

Lemma trimEnd_idempotent (s : string) : trimEnd (trimEnd s) = trimEnd s.
Proof.
  induction s as [|c s IH]; cbn [trimEnd]; [reflexivity|].
  destruct (trimEnd s) as [|d t] eqn:E.
  - destruct (isSpace c) eqn:Ec; cbn [trimEnd]; [reflexivity|].
    rewrite Ec. reflexivity.
  - cbn [trimEnd]. cbn [trimEnd] in IH.
    destruct (trimEnd t) as [|d' t'] eqn:E'.
    + destruct (isSpace d); [discriminate|]. injection IH as <-. reflexivity.
    + rewrite IH. reflexivity.
Qed.

Lemma trimStart_head (s : string) :
  trimStart s = EmptyString
  \/ exists c r, trimStart s = String c r /\ isSpace c = false.
Proof.
  induction s as [|c s IH]; cbn [trimStart]; [left; reflexivity|].
  destruct (isSpace c) eqn:E; [exact IH|]. right. eauto.
Qed.

Lemma trimStart_trim (s : string) : trimStart (trim s) = trim s.
Proof.
  unfold trim. destruct (trimStart_head s) as [->|(c & r & -> & Hc)]; [reflexivity|].
  cbn [trimEnd]. destruct (trimEnd r); rewrite ?Hc; cbn [trimStart]; rewrite Hc;
    reflexivity.
Qed.

Lemma trim_idempotent (s : string) : trim (trim s) = trim s.
Proof.
  unfold trim at 1. rewrite trimStart_trim. unfold trim. apply trimEnd_idempotent.
Qed.

(** Normalising twice is normalising once. *)
Lemma normalize_idempotent (s : string) : normalize (normalize s) = normalize s.
Proof.
  unfold normalize, trim.
  rewrite <- trimEnd_toLowerCase, <- trimStart_toLowerCase, toLowerCase_idempotent.
  fold (trim (toLowerCase s)). fold (trim (trim (toLowerCase s))).
  apply trim_idempotent.
Qed.

Lemma setRepository_normalized (r : string) (d : EmailData) :
  normalized d -> normalized (setRepository r d).
Proof. unfold normalized. cbn. auto. Qed.

Lemma processContributor_normalized (api : Api) (name : string)
    (c : Contributor) (w : World) (d : EmailData) :
  fst (processContributor api name c w) = Some d -> normalized d.
Proof.
  assert (Hanon : forall r, fst (match contributorEmail c with
                     | Some (String a e) =>
                         if filterInvalidEmails
                              (Some (email {| email := trim (toLowerCase (String a e));
                                              name := orElse (contributorName c)
                                                        "Anonymous Contributor";
                                              username := "";
                                              repository := name |}))
                         then (Some {| email := trim (toLowerCase (String a e));
                                       name := orElse (contributorName c)
                                                 "Anonymous Contributor";
                                       username := "";
                                       repository := name |}, w)
                         else (None, w)
                     | _ => (None, w)
                     end) = Some r -> normalized r).
  { intros r. destruct (contributorEmail c) as [[|a e]|]; cbn [fst]; try discriminate.
    destruct (filterInvalidEmails _); cbn [fst]; [|discriminate].
    intros H. injection H as <-. unfold normalized.
    exact (normalize_idempotent (String a e)). }
  unfold processContributor.
  destruct (login c) as [[|a l]|]; [apply Hanon| |apply Hanon].
  destruct (getUser api (userCalls w) (String a l)) as [u|e]; cbn [fst];
    [|discriminate].
  unfold extractEmailFromUser.
  destruct u as [u|]; cbn [fst]; [|discriminate].
  destruct (negb (truthy (userEmail u))); cbn [fst]; [discriminate|].
  destruct (filterInvalidEmails (userEmail u)); cbn [fst]; [|discriminate].
  intros H. injection H as <-. apply setRepository_normalized.
  unfold normalized. exact (normalize_idempotent (orElse (userEmail u) "")).
Qed.

Lemma processBatch_normalized (api : Api) (name : string)
    (batch : list Contributor) :
  forall w : World, Forall normalized (fst (processBatch api name batch w)).
Proof.
  induction batch as [|c batch IH]; intros w; cbn [processBatch].
  - constructor.
  - pose proof (processContributor_normalized api name c w) as Hc.
    destruct (processContributor api name c w) as [r w1].
    specialize (IH w1).
    destruct (processBatch api name batch w1) as [rs w2].
    cbn [fst] in *. destruct r as [d|]; [constructor; auto | exact IH].
Qed.

Lemma processPage_normalized (api : Api) (name : string) (cs : list Contributor)
    (pg fetched fuel : nat) :
  forall (i : nat) (acc : list EmailData) (w : World),
    Forall normalized acc ->
    Forall normalized (fst (processPage api name cs pg fetched fuel i acc w)).
Proof.
  induction fuel as [|fuel IH]; intros i acc w Hacc; cbn [processPage].
  - destruct (i <? List.length cs); exact Hacc.
  - destruct (i <? List.length cs); [|exact Hacc].
    pose proof (processBatch_normalized api name (slice i (i + 5) cs) w) as Hb.
    destruct (processBatch api name (slice i (i + 5) cs) w) as [rs w1].
    cbn [fst] in Hb. apply IH. apply Forall_app. split; assumption.
Qed.

Lemma contributorsStep_normalized (api : Api) (owner repo : string)
    (st : ContributorsState) :
  Forall normalized (emails st) ->
  match contributorsStep api owner repo st with
  | Continue st' | Break st' | Throws _ st' => Forall normalized (emails st')
  end.
Proof.
  intros H. unfold contributorsStep.
  destruct (getContributorsWithPagination api _ owner repo _ _) as [pg|e].
  - destruct (maxPages <=? page st); [exact H|].
    set (cs := match contributors pg with Some l => l | None => [] end).
    destruct (0 <? List.length cs).
    + match goal with
      | |- context [processPage ?a ?n ?c ?p ?f ?fu ?i ?acc ?w] =>
          pose proof (processPage_normalized a n c p f fu i acc w H) as Hp;
          destruct (processPage a n c p f fu i acc w) as [emails1 w2]
      end.
      exact Hp.
    + exact H.
  - destruct (includes (message e) "rate limit"); [exact H|].
    destruct (maxConsecutiveErrors <=? S (consecutiveErrors st)); exact H.
Qed.

Lemma contributorsLoop_normalized (api : Api) (owner repo : string) (fuel : nat) :
  forall st : ContributorsState,
    Forall normalized (emails st) ->
    match contributorsLoop api owner repo fuel st with
    | Finished st' | Threw _ st' => Forall normalized (emails st')
    | OutOfFuel => True
    end.
Proof.
  induction fuel as [|fuel IH]; intros st H; cbn [contributorsLoop].
  - destruct (hasMore st && (page st <=? maxPages)); [exact I | exact H].
  - destruct (hasMore st && (page st <=? maxPages)); [|exact H].
    pose proof (contributorsStep_normalized api owner repo st H) as Hs.
    destruct (contributorsStep api owner repo st) as [st'|st'|e st'];
      [apply IH; exact Hs | exact Hs | exact Hs].
Qed.

Lemma processCommits_normalized (name : string) (limit : nat)
    (commits : list Commit) :
  forall (acc : list EmailData) (total : nat),
    Forall normalized acc ->
    Forall normalized (fst (processCommits name limit commits acc total)).
Proof.
  induction commits as [|c commits IH]; intros acc total Hacc;
    cbn [processCommits]; [exact Hacc|].
  destruct (limit <=? total); [exact Hacc|].
  apply IH. apply Forall_app. split; [exact Hacc|].
  destruct (commitAuthor c) as [a|]; [|constructor].
  destruct (authorEmail a) as [[|x e]|]; try constructor.
  destruct (isValidEmail _); [|constructor].
  constructor; [|constructor].
  apply setRepository_normalized. unfold normalized.
  exact (normalize_idempotent (String x e)).
Qed.

Lemma commitsStep_normalized (api : Api) (owner repo : string) (limit : nat)
    (st : CommitsState) :
  Forall normalized (commitEmails st) ->
  match commitsStep api owner repo limit st with
  | Continue st' | Break st' | Throws _ st' => Forall normalized (commitEmails st')
  end.
Proof.
  intros H. unfold commitsStep.
  destruct (getCommits api _ owner repo _) as [[[|c cs]|]|e]; try exact H.
  - pose proof (processCommits_normalized (repositoryNameOf owner repo) limit
                  (c :: cs) (commitEmails st) (totalCommits st) H) as Hp.
    destruct (processCommits (repositoryNameOf owner repo) limit (c :: cs)
                (commitEmails st) (totalCommits st)) as [emails1 total1].
    exact Hp.
  - destruct (includes _ "rate limit"); [exact H|].
    destruct (maxConsecutiveErrors <=? S (commitErrors st)); [exact H|].
    destruct (isTransientError e _); exact H.
Qed.

Lemma commitsLoop_normalized (api : Api) (owner repo : string)
    (limit fuel : nat) :
  forall st : CommitsState,
    Forall normalized (commitEmails st) ->
    match commitsLoop api owner repo limit fuel st with
    | Finished st' | Threw _ st' => Forall normalized (commitEmails st')
    | OutOfFuel => True
    end.
Proof.
  induction fuel as [|fuel IH]; intros st H; cbn [commitsLoop].
  - destruct (commitHasMore st && (totalCommits st <? limit)); [exact I | exact H].
  - destruct (commitHasMore st && (totalCommits st <? limit)); [|exact H].
    pose proof (commitsStep_normalized api owner repo limit st H) as Hs.
    destruct (commitsStep api owner repo limit st) as [st'|st'|e st'];
      [apply IH; exact Hs | exact Hs | exact Hs].
Qed.

Lemma contributorsPart_merged (api : Api) (owner repo : string) (w w' : World)
    (m : EmailMap) (all : list EmailData) :
  contributorsPart api owner repo w = Some (m, all, w') -> merged m all.
Proof.
  unfold contributorsPart, collectFromContributors.
  pose proof (contributorsLoop_normalized api owner repo (3 * maxPages + 1)
                (contributorsStart w) (Forall_nil _)) as Hn.
  destruct (contributorsLoop api owner repo (3 * maxPages + 1) (contributorsStart w))
    as [st|e st|]; [| |discriminate]; intros H; injection H as <- <- _.
  - destruct (addContributorEmails_wf (emails st) [] (NoDup_nil _) (Forall_nil _))
      as (H1 & H2 & H3).
    repeat split; try assumption.
    rewrite Forall_forall in *. intros v Hv.
    destruct (H3 v Hv) as [H|[]]. auto.
  - repeat split; constructor.
Qed.

Lemma commitsPart_merged (api : Api) (owner repo : string) (limit : nat)
    (w w' : World) (m m' : EmailMap) (all all' : list EmailData) :
  merged m all ->
  commitsPart api owner repo limit m all w = Some (m', all', w') ->
  merged m' all'.
Proof.
  intros (Hall & Hnd & Hk & Hn). unfold commitsPart, collectFromCommits.
  pose proof (commitsLoop_normalized api owner repo limit (3 * limit + 1)
                (commitsStart w) (Forall_nil _)) as Hc.
  destruct (commitsLoop api owner repo limit (3 * limit + 1) (commitsStart w))
    as [st|e st|]; [| |discriminate]; intros H; injection H as <- <- _.
  - destruct (addCommitEmails_wf (commitEmails st) m Hnd Hk) as (H1 & H2 & H3).
    repeat split; try assumption.
    rewrite Forall_forall in *. intros v Hv.
    destruct (H3 v Hv) as [H|H]; [auto|]. apply Hn. rewrite Hall. exact H.
  - repeat split; assumption.
Qed.

(** The addresses of a completed run are in normal form and pairwise
    different. *)
Lemma collectFromRepository_merged (api : Api) (repoInput : string)
    (options : Options) (c : Collected) :
  collectFromRepository api repoInput options = Completed c ->
  NoDup (map email (allEmails c)) /\ Forall normalized (allEmails c).
Proof.
  unfold collectFromRepository.
  destruct (Repo.parseRepository repoInput) as [owner repo|e]; [|discriminate].
  set (w0 := emit [Progress "start" []] newWorld).
  assert (H1 : forall r,
             (if notFalse (includeContributors options)
              then contributorsPart api (printed owner) (printed repo) w0
              else Some ([], [], w0)) = Some r ->
             merged (fst (fst r)) (snd (fst r))).
  { intros [[m a] w']. destruct (notFalse (includeContributors options)).
    - apply contributorsPart_merged.
    - intros H. injection H as <- <- _. repeat split; constructor. }
  destruct (if notFalse (includeContributors options)
            then contributorsPart api (printed owner) (printed repo) w0
            else Some ([], [], w0)) as [[[m a] w1]|]; [|discriminate].
  specialize (H1 _ eq_refl). cbn [fst snd] in H1.
  assert (H2 : forall r,
             (if notFalse (includeCommits options)
              then commitsPart api (printed owner) (printed repo)
                     (natOr (maxCommits options) 1000) m a w1
              else Some (m, a, w1)) = Some r ->
             merged (fst (fst r)) (snd (fst r))).
  { intros [[m' a'] w']. destruct (notFalse (includeCommits options)).
    - apply commitsPart_merged. exact H1.
    - intros H. injection H as <- <- _. exact H1. }
  destruct (if notFalse (includeCommits options)
            then commitsPart api (printed owner) (printed repo)
                   (natOr (maxCommits options) 1000) m a w1
            else Some (m, a, w1)) as [[[m' a'] w2]|]; [|discriminate].
  specialize (H2 _ eq_refl). cbn [fst snd] in H2.
  intros H. injection H as <-. cbn [allEmails].
  destruct H2 as (-> & Hnd & Hk & Hn).
  split; [rewrite (keyed_values m' Hk); exact Hnd | exact Hn].
Qed.


Lemma lastWith_found (c : EmailData) (cs : list EmailData) :
  In c cs ->
  exists kept,
    lastWith (email c) cs = Some kept /\ In kept cs /\ email kept = email c.
Proof.
  intros Hin. unfold lastWith.
  destruct (find (fun d => String.eqb (email d) (email c)) (rev cs)) as [kept|] eqn:E.
  - apply find_some in E as [Hk He]. exists kept.
    repeat split; [apply in_rev; exact Hk | apply String.eqb_eq; exact He].
  - exfalso. pose proof (find_none _ _ E c) as Hnone. cbv beta in Hnone.
    rewrite String.eqb_refl in Hnone.
    assert (Hrev : In c (rev cs)) by (apply in_rev; rewrite rev_involutive; exact Hin).
    specialize (Hnone Hrev). discriminate.
Qed.

(** C8. The results of the two passes are merged into one mapping keyed by
    the address of each record. An address maps to the record of the
    contributors pass whenever that pass has one, and to the first record of
    the commits pass otherwise; so for an address found by both passes the
    contributor record is kept and the commit record is not in the result.
    The addresses of the merged records are pairwise different. In a run,
    the addresses come out of the passes lower-cased and trimmed, and the
    list of collected addresses has no two records with the same normalized
    address. *)
Theorem merge_keeps_contributor_record :
  (forall cs ms : list EmailData,
      let m := addCommitEmails ms (addContributorEmails cs []) in
      NoDup (map email (mapValues m))
      /\ (forall v, In v (mapValues m) <-> mapGet (email v) m = Some v)
      /\ (forall k,
             mapGet k m = match lastWith k cs with
                          | Some d => Some d
                          | None => firstWith k ms
                          end)
      /\ (forall c d,
             In c cs -> In d ms -> email c = email d ->
             exists kept,
               mapGet (email c) m = Some kept
               /\ In kept cs
               /\ email kept = email c
               /\ forall v, In v (mapValues m) -> email v = email d -> v = kept))
  /\ (forall api repoInput options c,
         collectFromRepository api repoInput options = Completed c ->
         NoDup (map email (allEmails c))
         /\ Forall (fun d => normalize (email d) = email d) (allEmails c)
         /\ NoDup (map (fun d => normalize (email d)) (allEmails c)))
  /\ (forall api repoInput options owner repo st1 st2,
         Repo.parseRepository repoInput = Repo.Parts owner repo ->
         notFalse (includeContributors options) = true ->
         notFalse (includeCommits options) = true ->
         collectFromContributors api (printed owner) (printed repo)
           (emit [Progress "start" []] newWorld) = Finished st1 ->
         let contributorsMap := addContributorEmails (emails st1) [] in
         collectFromCommits api (printed owner) (printed repo)
           (natOr (maxCommits options) 1000)
           (emit [Progress "contributors-complete"
                    [("found", List.length (emails st1));
                     ("collected", List.length (mapValues contributorsMap))]]
              (world st1)) = Finished st2 ->
         exists c,
           collectFromRepository api repoInput options = Completed c
           /\ allEmails c
              = mapValues (addCommitEmails (commitEmails st2) contributorsMap)).
Proof.
  split; [|split].
  - intros cs ms m.
    destruct (merge_spec cs ms) as (_ & _ & Hnd & Hget & Hin & _). fold m in Hnd, Hget, Hin.
    split; [exact Hnd|]. split; [exact Hin|]. split; [exact Hget|].
    intros c d Hc Hd Heq.
    destruct (lastWith_found c cs Hc) as (kept & Hlast & Hk & Hek).
    exists kept. rewrite Hget, Hlast.
    repeat split; try assumption.
    intros v Hv Hev. apply Hin in Hv. rewrite Hev, <- Heq, Hget, Hlast in Hv.
    congruence.
  - intros api repoInput options c Hrun.
    destruct (collectFromRepository_merged api repoInput options c Hrun) as [Hnd Hn].
    split; [exact Hnd|]. split; [exact Hn|].
    replace (map (fun d => normalize (email d)) (allEmails c))
      with (map email (allEmails c)); [exact Hnd|].
    apply map_ext_in. intros d Hd. rewrite Forall_forall in Hn.
    symmetry. exact (Hn d Hd).
  - intros api repoInput options owner repo st1 st2 Hparse Hc Hm H1 cmap H2.
    unfold collectFromRepository. rewrite Hparse, Hc, Hm.
    unfold contributorsPart. rewrite H1. fold cmap.
    unfold commitsPart. rewrite H2.
    eexists. split; reflexivity.
Qed.

Lemma merge_keeps_contributor_record_witness :
  (exists c,
      collectFromRepository CollectorFixtures.twoFullPages "octo/repo"
        CollectorFixtures.defaults = Completed c
      /\ NoDup (map email (allEmails c))
      /\ NoDup (map (fun d => normalize (email d)) (allEmails c)))
  /\ exists kept,
      mapGet "jane@site.org"
        (addCommitEmails [CollectorFixtures.janeCommit]
           (addContributorEmails [CollectorFixtures.janeContributor] []))
      = Some kept
      /\ In kept [CollectorFixtures.janeContributor].
Proof.
  destruct merge_keeps_contributor_record as (Hmerge & H & _).
  split.
  - assert (Hrun : exists c,
               collectFromRepository CollectorFixtures.twoFullPages "octo/repo"
                 CollectorFixtures.defaults = Completed c).
    { eexists. vm_compute. reflexivity. }
    destruct Hrun as [c Hrun]. exists c. split; [exact Hrun|].
    destruct (H _ _ _ _ Hrun) as (H1 & _ & H2). split; assumption.
  - destruct (Hmerge [CollectorFixtures.janeContributor] [CollectorFixtures.janeCommit])
      as (_ & _ & _ & Hboth).
    destruct (Hboth CollectorFixtures.janeContributor CollectorFixtures.janeCommit)
      as (kept & Hget & Hin & _); [left; reflexivity | left; reflexivity | reflexivity |].
    exists kept. split; assumption.
Defined.

(** In the example run the address found by both passes keeps the record
    of the contributors pass. *)
Example merge_example :
  exists c,
    collectFromRepository CollectorFixtures.twoFullPages "octo/repo"
      CollectorFixtures.defaults = Completed c
    /\ List.length (allEmails c) = 101
    /\ firstWith "dev1@site.org" (allEmails c)
       = Some {| email := "dev1@site.org"; name := "Anonymous Contributor";
                 username := ""; repository := "octo/repo" |}.
Proof. eexists. split; [vm_compute; reflexivity|]. split; reflexivity. Qed.

End RunClaims.

(** ** The address filter *)

Section FilterFacts.
Import JS Filter.
Local Open Scope list_scope.

Lemma eqb_lowerChar_at (c : ascii) : Ascii.eqb (lowerChar c) "@" = Ascii.eqb c "@".
Proof. destruct c as [[] [] [] [] [] [] [] []]; reflexivity. Qed.

Lemma eqb_lowerChar_dot (c : ascii) : Ascii.eqb (lowerChar c) "." = Ascii.eqb c ".".
Proof. destruct c as [[] [] [] [] [] [] [] []]; reflexivity. Qed.

Lemma hasSpace_toLowerCase (s : string) : hasSpace (toLowerCase s) = hasSpace s.
Proof.
  induction s as [|c s IH]; cbn [toLowerCase hasSpace]; [reflexivity|].
  now rewrite isSpace_lowerChar, IH.
Qed.

Lemma split_at_toLowerCase (s : string) :
  split "@" (toLowerCase s) = map toLowerCase (split "@" s).
Proof.
  induction s as [|c s IH]; cbn [toLowerCase split map]; [reflexivity|].
  rewrite eqb_lowerChar_at, IH.
  destruct (Ascii.eqb c "@"); cbn [map toLowerCase]; [reflexivity|].
  destruct (split "@" s); reflexivity.
Qed.

Lemma eqb_empty_toLowerCase (s : string) :
  String.eqb (toLowerCase s) EmptyString = String.eqb s EmptyString.
Proof. destruct s; reflexivity. Qed.

Lemma dotThenMore_toLowerCase (s : string) :
  dotThenMore (toLowerCase s) = dotThenMore s.
Proof.
  induction s as [|c s IH]; cbn [toLowerCase dotThenMore]; [reflexivity|].
  now rewrite eqb_lowerChar_dot, eqb_empty_toLowerCase, IH.
Qed.

Lemma emailRegex_toLowerCase (s : string) :
  emailRegex (toLowerCase s) = emailRegex s.
Proof.
  unfold emailRegex. rewrite hasSpace_toLowerCase, split_at_toLowerCase.
  destruct (split "@" s) as [|[|a l] [|[|b d] [|x rest]]]; cbn [map toLowerCase];
    try reflexivity.
  now rewrite dotThenMore_toLowerCase.
Qed.

(** Text without white space is left alone by [trim]. *)
Lemma trim_without_space (s : string) : hasSpace s = false -> trim s = s.
Proof.
  intros H. unfold trim.
  assert (Hstart : trimStart s = s).
  { destruct s as [|c s]; [reflexivity|]. cbn [hasSpace trimStart] in *.
    apply orb_false_iff in H as [-> _]. reflexivity. }
  rewrite Hstart. clear Hstart.
  induction s as [|c s IH]; [reflexivity|].
  cbn [hasSpace trimEnd] in *. apply orb_false_iff in H as [Hc Hs].
  rewrite (IH Hs). destruct s; [rewrite Hc|]; reflexivity.
Qed.

(** [filterInvalidEmails] as a conjunction: a non-empty address of the
    right shape whose normal form has none of the blocked texts and whose
    local part is not a generic name. *)
Lemma filterInvalidEmails_eq (s : string) :
  filterInvalidEmails (Some s)
  = negb (String.eqb s EmptyString)
    && emailRegex s
    && negb (anyIncluded (trim (toLowerCase s)) blockedPatterns)
    && negb (existsb (String.eqb (localPart (trim (toLowerCase s)))) genericNames).
Proof.
  unfold filterInvalidEmails, blockedPatterns, anyIncluded, localPart.
  destruct s as [|c e]; [reflexivity|].
  cbn [String.eqb negb andb]. rewrite !existsb_app.
  destruct (emailRegex (String c e)); cbn [negb andb]; [|reflexivity].
  repeat match goal with
         | |- context [if existsb ?f ?l then _ else _] =>
             destruct (existsb f l); cbn [orb negb andb]; try reflexivity
         end.
Qed.

Lemma filterInvalidEmails_toLowerCase (s : string) :
  filterInvalidEmails (Some (toLowerCase s)) = filterInvalidEmails (Some s).
Proof.
  rewrite !filterInvalidEmails_eq.
  now rewrite eqb_empty_toLowerCase, emailRegex_toLowerCase, toLowerCase_idempotent.
Qed.

Lemma filterInvalidEmails_no_space (s : string) :
  filterInvalidEmails (Some s) = true -> hasSpace s = false.
Proof.
  rewrite filterInvalidEmails_eq. unfold emailRegex. intros H.
  repeat (apply andb_prop in H as [H ?]).
  destruct (hasSpace s); [discriminate | reflexivity].
Qed.

(** An accepted address is accepted again in its normal form. *)
Lemma filterInvalidEmails_normalize (s : string) :
  filterInvalidEmails (Some s) = true ->
  filterInvalidEmails (Some (Collector.normalize s)) = true.
Proof.
  intros H. unfold Collector.normalize.
  rewrite trim_without_space
    by (rewrite hasSpace_toLowerCase; apply filterInvalidEmails_no_space; exact H).
  rewrite filterInvalidEmails_toLowerCase. exact H.
Qed.

(** X1. The verdict of [filterInvalidEmails] does not depend on the case of
    the letters: two addresses that are equal up to case are both accepted or
    both rejected, and an accepted address is still accepted once it is
    lower-cased and trimmed. *)
Theorem filterInvalidEmails_case_insensitive :
  (forall s t : string,
      toLowerCase s = toLowerCase t ->
      filterInvalidEmails (Some s) = filterInvalidEmails (Some t))
  /\ (forall s : string,
         filterInvalidEmails (Some s) = true ->
         filterInvalidEmails (Some (trim (toLowerCase s))) = true).
Proof.
  split.
  - intros s t H.
    rewrite <- (filterInvalidEmails_toLowerCase s), <- (filterInvalidEmails_toLowerCase t).
    now rewrite H.
  - intros s H. exact (filterInvalidEmails_normalize s H).
Qed.

Lemma filterInvalidEmails_case_insensitive_witness :
  filterInvalidEmails (Some "Jane.Doe@Site.ORG") = filterInvalidEmails (Some "jane.doe@site.org")
  /\ filterInvalidEmails (Some (trim (toLowerCase "Jane.Doe@Site.ORG"))) = true.
Proof.
  destruct filterInvalidEmails_case_insensitive as [H1 H2].
  split; [apply H1 | apply H2]; reflexivity.
Defined.

(** What [split] gives when it gives two parts. *)
Lemma split_not_nil (sep : ascii) (s : string) : split sep s <> [].
Proof.
  destruct s as [|c s]; cbn [split]; [discriminate|].
  destruct (Ascii.eqb c sep); [discriminate|].
  destruct (split sep s); discriminate.
Qed.

Lemma split_one (sep : ascii) (s b : string) :
  split sep s = [b] -> s = b /\ lacks sep b = true.
Proof.
  revert b. induction s as [|c s IH]; intros b; cbn [split].
  - intros H. injection H as <-. split; reflexivity.
  - destruct (Ascii.eqb c sep) eqn:E.
    + intros H. injection H as _ H. now apply split_not_nil in H.
    + destruct (split sep s) as [|p ps] eqn:Es; [now apply split_not_nil in Es|].
      intros H. injection H as <- ->.
      destruct (IH p eq_refl) as [-> Hl].
      split; [reflexivity|]. cbn [lacks]. now rewrite E, Hl.
Qed.

Lemma split_two (sep : ascii) (s a b : string) :
  split sep s = [a; b] ->
  s = (a ++ String sep b)%string /\ lacks sep a = true /\ lacks sep b = true.
Proof.
  revert a. induction s as [|c s IH]; intros a; cbn [split]; [discriminate|].
  destruct (Ascii.eqb_spec c sep) as [->|Hne].
  - intros H. injection H as <- H.
    destruct (split_one sep s b H) as [-> Hl]. repeat split; assumption.
  - destruct (split sep s) as [|p ps] eqn:Es; [discriminate|].
    intros H. injection H as <- ->.
    destruct (IH p eq_refl) as (-> & Ha & Hb).
    repeat split; [|exact Hb]. cbn [lacks].
    destruct (Ascii.eqb_spec c sep); [contradiction|]. exact Ha.
Qed.

Lemma dotThenMore_split (d : string) :
  dotThenMore d = true ->
  exists x y, d = (x ++ String "." y)%string /\ y <> EmptyString.
Proof.
  induction d as [|c d IH]; cbn [dotThenMore]; [discriminate|].
  intros H. apply orb_prop in H as [H|H].
  - apply andb_prop in H as [Hc Hd]. apply Ascii.eqb_eq in Hc as ->.
    exists EmptyString, d. split; [reflexivity|].
    intros ->. discriminate.
  - destruct (IH H) as (x & y & -> & Hy). exists (String c x), y. auto.
Qed.

Lemma existsb_false_forall {A} (f : A -> bool) (l : list A) :
  existsb f l = false -> forall x, In x l -> f x = false.
Proof.
  intros H x Hx. destruct (f x) eqn:E; [|reflexivity].
  assert (existsb f l = true) by (apply existsb_exists; eauto). congruence.
Qed.

(** X2. An address that [filterInvalidEmails] accepts has no white space and
    exactly one at sign; something stands before the at sign, and after it
    comes a domain with a dot that is neither its first nor its last
    character. Lower-cased, the address contains none of the blocked texts
    (no-reply, example, role, test, temporary, GitHub and placeholder
    patterns), and its local part is none of the generic names. *)
Theorem filterInvalidEmails_accepts_only_wellformed :
  forall s : string,
    filterInvalidEmails (Some s) = true ->
    hasSpace s = false
    /\ (exists localName domain,
           s = (localName ++ String "@" domain)%string
           /\ localName <> EmptyString
           /\ lacks "@" localName = true
           /\ lacks "@" domain = true
           /\ (exists x y, domain = (x ++ String "." y)%string
                           /\ x <> EmptyString /\ y <> EmptyString)
           /\ ~ In (toLowerCase localName) genericNames)
    /\ (forall p, In p blockedPatterns -> includes (toLowerCase s) p = false).
Proof.
  intros s H. pose proof (filterInvalidEmails_no_space s H) as Hsp.
  split; [exact Hsp|].
  rewrite filterInvalidEmails_eq in H.
  rewrite (trim_without_space (toLowerCase s)) in H
    by (rewrite hasSpace_toLowerCase; exact Hsp).
  apply andb_prop in H as [H Hgen]. apply andb_prop in H as [H Hblock].
  apply andb_prop in H as [_ Hre].
  apply negb_true_iff in Hgen, Hblock.
  split.
  - unfold emailRegex in Hre. apply andb_prop in Hre as [_ Hre].
    destruct (split "@" s) as [|[|a l] [|[|b d] [|x rest]]] eqn:Es; try discriminate.
    destruct (split_two "@" s _ _ Es) as (Hs & Hl & Hd).
    exists (String a l), (String b d). repeat split; try assumption; try discriminate.
    + destruct (dotThenMore_split d Hre) as (x & y & -> & Hy).
      exists (String b x), y. repeat split; [discriminate | exact Hy].
    + unfold localPart in Hgen. rewrite split_at_toLowerCase, Es in Hgen.
      cbn [map hd] in Hgen. intros Hin.
      pose proof (existsb_false_forall _ _ Hgen _ Hin) as Hf.
      rewrite String.eqb_refl in Hf. discriminate.
  - intros p Hp. exact (existsb_false_forall _ _ Hblock p Hp).
Qed.

Lemma filterInvalidEmails_accepts_only_wellformed_witness :
  hasSpace "jane.doe@example-org.dev" = false
  /\ includes (toLowerCase "jane.doe@example-org.dev") "github.com" = false.
Proof.
  destruct (filterInvalidEmails_accepts_only_wellformed "jane.doe@example-org.dev"
              eq_refl) as (H1 & _ & H3).
  split; [exact H1|]. apply H3. unfold blockedPatterns. cbn. tauto.
Defined.

Example filterInvalidEmails_table :
  map (fun a => filterInvalidEmails (Some a))
    ["jane.doe@example-org.dev"; "noreply@site.org"; "1234+jane@users.noreply.github.com";
     "admin@site.org"; "postmaster@site.org"; "jane@example.com"; "jane@localhost.dev";
     "jane"; "jane@site"; "jane doe@site.org"; ""]
  = [true; false; false; false; false; false; false; false; false; false; false].
Proof. reflexivity. Qed.

(** X3. [extractEmailFromUser] yields nothing for a missing user, for a user
    without a public address and for an address the filter rejects. When it
    yields a record, the user has an address that the filter accepts, the
    record carries that address lower-cased and trimmed (a form the filter
    accepts too), and the user's login as its username. *)
Theorem extractEmailFromUser_accepted_and_normalized :
  extractEmailFromUser None = None
  /\ (forall u, truthy (userEmail u) = false -> extractEmailFromUser (Some u) = None)
  /\ (forall u, filterInvalidEmails (userEmail u) = false ->
                extractEmailFromUser (Some u) = None)
  /\ (forall u d,
         extractEmailFromUser (Some u) = Some d ->
         exists raw,
           userEmail u = Some raw
           /\ filterInvalidEmails (Some raw) = true
           /\ email d = trim (toLowerCase raw)
           /\ filterInvalidEmails (Some (email d)) = true
           /\ username d = orElse (userLogin u) ""
           /\ name d = orElse (userName u) (orElse (userLogin u) ""))
  /\ (forall u raw,
         userEmail u = Some raw ->
         filterInvalidEmails (Some raw) = true ->
         exists d, extractEmailFromUser (Some u) = Some d).
Proof.
  split; [reflexivity|]. split; [|split; [|split]].
  - intros u H. unfold extractEmailFromUser. rewrite H. reflexivity.
  - intros u H. unfold extractEmailFromUser. rewrite H.
    destruct (negb (truthy (userEmail u))); reflexivity.
  - intros u d. unfold extractEmailFromUser.
    destruct (userEmail u) as [[|c raw]|] eqn:Hu; cbn [truthy negb]; try discriminate.
    destruct (filterInvalidEmails (Some (String c raw))) eqn:Hf; [|discriminate].
    intros H. injection H as <-. exists (String c raw). cbn [email username name orElse].
    repeat split; try assumption.
    exact (filterInvalidEmails_normalize _ Hf).
  - intros u raw Hu Hf. unfold extractEmailFromUser. rewrite Hu.
    destruct raw as [|c raw]; [discriminate|]. cbn [truthy negb]. rewrite Hf. eauto.
Qed.

Lemma extractEmailFromUser_accepted_and_normalized_witness :
  exists d,
    extractEmailFromUser
      (Some {| userLogin := Some "jane"; userEmail := Some "Jane.Doe@Site.org";
               userName := None |}) = Some d
    /\ email d = "jane.doe@site.org"
    /\ username d = "jane".
Proof.
  destruct extractEmailFromUser_accepted_and_normalized as (_ & _ & _ & H & Hex).
  destruct (Hex {| userLogin := Some "jane"; userEmail := Some "Jane.Doe@Site.org";
                   userName := None |} "Jane.Doe@Site.org" eq_refl eq_refl) as [d Hd].
  exists d. split; [exact Hd|].
  destruct (H _ _ Hd) as (raw & Hraw & _ & He & _ & Hu & _).
  injection Hraw as <-. split; [exact He | exact Hu].
Defined.

End FilterFacts.

(** ** [parseRepository]: the two input forms *)

Section RepoFacts.
Import JS Repo.
Local Open Scope list_scope.

Lemma split_lacks (sep : ascii) (a : string) :
  lacks sep a = true -> split sep a = [a].
Proof.
  induction a as [|c a IH]; cbn [lacks split]; [reflexivity|].
  intros H. apply andb_prop in H as [Hc Ha]. apply negb_true_iff in Hc.
  rewrite Hc, (IH Ha). reflexivity.
Qed.

Lemma split_app (sep : ascii) (a b : string) :
  lacks sep a = true ->
  split sep (a ++ String sep b) = a :: split sep b.
Proof.
  induction a as [|c a IH]; cbn [lacks split append].
  - intros _. now rewrite Ascii.eqb_refl.
  - intros H. apply andb_prop in H as [Hc Ha]. apply negb_true_iff in Hc.
    rewrite Hc, (IH Ha). reflexivity.
Qed.

Lemma split_segment (a tail : string) :
  lacks "/" a = true -> segmentEnd tail = true ->
  exists rest, split "/" (a ++ tail) = a :: rest.
Proof.
  intros Ha Ht. destruct tail as [|c t].
  - rewrite append_nil_r, (split_lacks _ _ Ha). eauto.
  - cbn [segmentEnd] in Ht. apply Ascii.eqb_eq in Ht as ->.
    rewrite (split_app _ _ _ Ha). eauto.
Qed.

Lemma takeNonSlash_segment (a tail : string) :
  lacks "/" a = true -> segmentEnd tail = true ->
  takeNonSlash (a ++ tail) = (a, tail).
Proof.
  intros Ha Ht. induction a as [|c a IH]; cbn [append].
  - destruct tail as [|c t]; [reflexivity|].
    cbn [segmentEnd] in Ht. cbn [takeNonSlash]. now rewrite Ht.
  - cbn [lacks] in Ha. apply andb_prop in Ha as [Hc Ha]. apply negb_true_iff in Hc.
    cbn [takeNonSlash]. rewrite Hc, (IH Ha). reflexivity.
Qed.

Lemma isPrefix_app (p s t : string) :
  isPrefix p s = true -> isPrefix p (s ++ t) = true.
Proof.
  revert s. induction p as [|a p IH]; intros [|b s]; cbn [isPrefix append];
    try congruence; try reflexivity.
  intros H. apply andb_prop in H as [-> H]. now rewrite (IH _ H).
Qed.

Lemma isPrefix_app_false (p s t : string) :
  isPrefix p s = false -> String.length p <= String.length s ->
  isPrefix p (s ++ t) = false.
Proof.
  revert s. induction p as [|a p IH]; intros [|b s]; cbn [isPrefix append String.length];
    try congruence; try lia.
  intros H Hl. destruct (Ascii.eqb a b); [|reflexivity]. cbn [andb] in *.
  apply IH; [exact H | lia].
Qed.

Lemma stripPrefix_none (p s : string) :
  isPrefix p s = false -> stripPrefix p s = None.
Proof.
  revert s. induction p as [|a p IH]; intros [|b s]; cbn [isPrefix stripPrefix];
    try congruence.
  destruct (Ascii.eqb a b); cbn [andb]; [apply IH | reflexivity].
Qed.

Lemma matchHere_segments (owner repo tail : string) :
  owner <> EmptyString -> repo <> EmptyString ->
  lacks "/" owner = true -> lacks "/" repo = true -> segmentEnd tail = true ->
  matchHere ("github.com/" ++ owner ++ String "/" (repo ++ tail))
  = Some (owner, repo).
Proof.
  intros Ho Hr Lo Lr Ht. unfold matchHere.
  rewrite stripPrefix_append.
  rewrite (takeNonSlash_segment owner (String "/" (repo ++ tail)) Lo eq_refl).
  destruct owner as [|c o]; [contradiction|].
  rewrite (takeNonSlash_segment repo tail Lr Ht).
  destruct repo; [contradiction | reflexivity].
Qed.

Lemma matchGithub_skips (pre rest : string) :
  includes (pre ++ "github.com") "github.com/" = false ->
  matchGithub (pre ++ "github.com/" ++ rest) = matchGithub ("github.com/" ++ rest).
Proof.
  induction pre as [|c pre IH]; [reflexivity|].
  intros H. cbn [append includes] in H.
  destruct (isPrefix "github.com/" (String c (pre ++ "github.com"))) eqn:Hp;
    [discriminate|].
  change (String c pre ++ "github.com/" ++ rest)%string
    with (String c (pre ++ "github.com/" ++ rest))%string.
  cbn [matchGithub].
  assert (Hm : matchHere (String c (pre ++ "github.com/" ++ rest)) = None).
  { unfold matchHere. rewrite stripPrefix_none; [reflexivity|].
    change (String c (pre ++ "github.com/" ++ rest))%string
      with (String c pre ++ ("github.com" ++ String "/" rest))%string.
    rewrite <- append_assoc. apply isPrefix_app_false; [exact Hp|].
    change (String c pre ++ "github.com")%string
      with (String c (pre ++ "github.com"))%string.
    cbn [String.length]. rewrite length_append. cbn. lia. }
  rewrite Hm. exact (IH H).
Qed.

Lemma stripSuffix_lacks (c : ascii) (suf s t : string) :
  lacks c s = true -> stripSuffix suf s = Some t -> lacks c t = true.
Proof.
  revert t. induction s as [|d s IH]; intros t Hs; cbn [stripSuffix].
  - destruct (String.eqb "" suf); intros H; [|discriminate].
    injection H as <-. reflexivity.
  - destruct (String.eqb (String d s) suf); [intros H; injection H as <-; reflexivity|].
    cbn [lacks] in Hs. apply andb_prop in Hs as [Hd Hs].
    destruct (stripSuffix suf s) as [u|]; [|discriminate].
    intros H. injection H as <-. cbn [lacks]. now rewrite Hd, (IH u Hs eq_refl).
Qed.

Lemma stripSuffix_needs_char (c : ascii) (s : string) :
  lacks c s = true -> stripSuffix (String c EmptyString) s = None.
Proof.
  induction s as [|d s IH]; [reflexivity|].
  cbn [lacks stripSuffix]. intros H. apply andb_prop in H as [Hd Hs].
  apply negb_true_iff in Hd. cbn [String.eqb]. rewrite Hd, (IH Hs). reflexivity.
Qed.

Lemma dropSuffix_lacks (c : ascii) (suf s : string) :
  lacks c s = true -> lacks c (dropSuffix suf s) = true.
Proof.
  intros H. unfold dropSuffix. destruct (stripSuffix suf s) eqn:E; [|exact H].
  exact (stripSuffix_lacks c suf s _ H E).
Qed.

(** X4. The short form: for an input [owner/repo] that does not start with
    "http", where neither part contains a slash, [parseRepository] gives back
    exactly the two parts (either may be empty), and further path segments
    after the repository are ignored. So the repository name that the
    collector builds from the two parts parses to them again. *)
Theorem parseRepository_short_form :
  forall owner repo tail : string,
    lacks "/" owner = true ->
    lacks "/" repo = true ->
    segmentEnd tail = true ->
    startsWith (owner ++ String "/" (repo ++ tail)) "http" = false ->
    parseRepository (owner ++ String "/" (repo ++ tail))
    = Parts (Some owner) (Some repo)
    /\ (tail = EmptyString ->
        parseRepository (Collector.repositoryNameOf owner repo)
        = Parts (Some owner) (Some repo)).
Proof.
  intros owner repo tail Lo Lr Ht Hh.
  assert (G : parseRepository (owner ++ String "/" (repo ++ tail))
              = Parts (Some owner) (Some repo)).
  { unfold parseRepository.
    assert (Hi : includes (owner ++ String "/" (repo ++ tail)) "/" = true)
      by (apply includes_slash_spec; eauto).
    rewrite Hi, Hh, (split_app _ _ _ Lo).
    destruct (split_segment repo tail Lr Ht) as [rest ->]. reflexivity. }
  split; [exact G|].
  intros ->. rewrite append_nil_r in G. exact G.
Qed.

Lemma parseRepository_short_form_witness :
  parseRepository "octocat/hello-world/tree/main"
  = Parts (Some "octocat") (Some "hello-world").
Proof.
  exact (proj1 (parseRepository_short_form "octocat" "hello-world" "/tree/main"
                  eq_refl eq_refl eq_refl eq_refl)).
Defined.

(** X5. The URL form: for an input that starts with "http" and whose first
    occurrence of "github.com/" is followed by a non-empty owner segment, a
    slash and a non-empty repository segment, [parseRepository] gives the
    owner segment and the repository segment without a final ".git", whatever
    path follows. The trailing-slash removal never changes anything, since a
    segment has no slash. *)
Theorem parseRepository_url_form :
  forall pre owner repo tail : string,
    startsWith pre "http" = true ->
    includes (pre ++ "github.com") "github.com/" = false ->
    owner <> EmptyString ->
    repo <> EmptyString ->
    lacks "/" owner = true ->
    lacks "/" repo = true ->
    segmentEnd tail = true ->
    parseRepository (pre ++ "github.com/" ++ owner ++ String "/" (repo ++ tail))
    = Parts (Some owner) (Some (dropSuffix ".git" repo))
    /\ lacks "/" (dropSuffix ".git" repo) = true.
Proof.
  intros pre owner repo tail Hh Hpre Ho Hr Lo Lr Ht.
  split; [|exact (dropSuffix_lacks _ _ _ Lr)].
  unfold parseRepository.
  assert (Hi : includes (pre ++ "github.com/" ++ owner ++ String "/" (repo ++ tail)) "/"
               = true).
  { apply includes_slash_spec.
    exists (pre ++ "github.com")%string, (owner ++ String "/" (repo ++ tail))%string.
    rewrite append_assoc. reflexivity. }
  rewrite Hi. unfold startsWith in *. rewrite (isPrefix_app _ _ _ Hh).
  rewrite (matchGithub_skips pre _ Hpre).
  assert (Hm : matchGithub ("github.com/" ++ owner ++ String "/" (repo ++ tail))
               = Some (owner, repo)).
  { pose proof (matchHere_segments owner repo tail Ho Hr Lo Lr Ht) as M.
    change ("github.com/" ++ owner ++ String "/" (repo ++ tail))%string
      with (String "g" ("ithub.com/" ++ owner ++ String "/" (repo ++ tail)))%string in *.
    cbn [matchGithub]. rewrite M. reflexivity. }
  rewrite Hm. do 2 f_equal.
  unfold dropSuffix at 1.
  rewrite (stripSuffix_needs_char "/" _ (dropSuffix_lacks _ _ _ Lr)). reflexivity.
Qed.

Lemma parseRepository_url_form_witness :
  parseRepository "https://github.com/octocat/hello-world.git"
  = Parts (Some "octocat") (Some "hello-world").
Proof.
  refine (proj1 (parseRepository_url_form "https://" "octocat" "hello-world.git" ""
                   eq_refl eq_refl _ _ eq_refl eq_refl eq_refl)); discriminate.
Defined.

End RepoFacts.

(** ** [GitHubAPI.request]: what every call keeps *)

Section RequestInvariants.
Import JS GitHubAPI.
Local Open Scope Z_scope.
Local Open Scope list_scope.

Context {Data : Type}.
Variable env : Env Data.

Lemma timerDelay_pos (ms : Z) : 1 <= timerDelay ms.
Proof. unfold timerDelay. destruct (ms <? 1) eqn:E; [lia | apply Z.ltb_ge in E; lia]. Qed.

(** The pre-request check makes no call; it may start one timer, and it
    leaves the reset time alone. *)
Lemma preRequestWait_effects (url : string) (st : State) :
  exists added,
    trace (preRequestWait st) = trace st ++ added
    /\ gets added = []
    /\ Forall (madeFor url) added
    /\ calls (preRequestWait st) = calls st
    /\ now st <= now (preRequestWait st)
    /\ rateLimitReset (preRequestWait st) = rateLimitReset st
    /\ (rateLimitRemaining (preRequestWait st) = rateLimitRemaining st
        \/ rateLimitRemaining (preRequestWait st) = Num 5000).
Proof.
  unfold preRequestWait.
  destruct (leN _ _ && hasValidRateLimitInfo st);
    [|exists []; rewrite app_nil_r; repeat split; auto; lia].
  destruct (maxN _ _) as [|w];
    [exists []; rewrite app_nil_r; repeat split; auto; lia|].
  destruct ((0 <? w) && (w <? 3600000));
    [|exists []; rewrite app_nil_r; repeat split; auto; lia].
  exists [Sleep (timerDelay (w + 2000))]. cbn.
  pose proof (timerDelay_pos (w + 2000)).
  repeat split; auto; lia.
Qed.

Lemma updateRateLimit_frame (r : Response Data) (st : State) :
  trace (updateRateLimit r st) = trace st
  /\ calls (updateRateLimit r st) = calls st
  /\ now (updateRateLimit r st) = now st.
Proof.
  unfold updateRateLimit.
  destruct (truthy (headers r "x-ratelimit-remaining"));
    destruct (truthy (headers r "x-ratelimit-reset")); cbn; auto.
Qed.

Lemma gets_app (a b : list Event) : gets (a ++ b) = gets a ++ gets b.
Proof. apply filter_app. Qed.

(** What one call of [request] adds to the state. *)
Lemma request_effects (endpoint : string) (retries : nat) (full : bool) :
  forall st : State,
    let st' := fst (request env endpoint retries full st) in
    exists added,
      trace st' = trace st ++ added
      /\ calls st' = (calls st + List.length (gets added))%nat
      /\ (1 <= List.length (gets added) <= retries + 1)%nat
      /\ Forall (madeFor (baseURL ++ endpoint)%string) added
      /\ now st <= now st'.
Proof.
  induction retries as [|k IH]; intros st; cbv zeta; rewrite request_eq; cbv zeta;
    destruct (preRequestWait_effects (baseURL ++ endpoint)%string st)
      as (pre & Tpre & Gpre & Fpre & Cpre & Npre & _);
    set (url := (baseURL ++ endpoint)%string) in *;
    assert (Base : exists added,
               trace (fire url (preRequestWait st)) = trace st ++ added
               /\ gets added = [Get url (now (preRequestWait st))]
               /\ Forall (madeFor url) added)
      by (exists (pre ++ [Get url (now (preRequestWait st))]);
          cbn [trace fire]; rewrite Tpre, app_assoc, gets_app, Gpre;
          repeat split; try reflexivity;
          apply Forall_app; split; [exact Fpre | apply Forall_cons; [exact eq_refl | apply Forall_nil]]);
    destruct Base as (base & Tb & Gb & Fb);
    assert (Stop : exists added,
               trace (fire url (preRequestWait st)) = trace st ++ added
               /\ calls (fire url (preRequestWait st))
                  = (calls st + List.length (gets added))%nat
               /\ List.length (gets added) = 1%nat
               /\ Forall (madeFor url) added
               /\ now st <= now (fire url (preRequestWait st)))
      by (exists base; rewrite Gb; cbn [fire calls now List.length];
          rewrite Cpre; repeat split; auto; lia).
  - destruct (server env _ _) as [r|e]; cbn [fst].
    + destruct (updateRateLimit_frame r (fire url (preRequestWait st))) as (-> & -> & ->).
      destruct Stop as (a & ? & ? & ? & ? & ?). exists a. repeat split; auto; lia.
    + destruct Stop as (a & ? & ? & ? & ? & ?). exists a. repeat split; auto; lia.
  - assert (Again : forall s,
               trace s = trace (fire url (preRequestWait st)) ++ [Sleep (timerDelay (now s - now (fire url (preRequestWait st))))]
               -> calls s = calls (fire url (preRequestWait st))
               -> now (fire url (preRequestWait st)) <= now s
               -> exists added,
                   trace (fst (request env endpoint k full s)) = trace st ++ added
                   /\ calls (fst (request env endpoint k full s))
                      = (calls st + List.length (gets added))%nat
                   /\ (1 <= List.length (gets added) <= S k + 1)%nat
                   /\ Forall (madeFor url) added
                   /\ now st <= now (fst (request env endpoint k full s))).
    { intros s Ts Cs Ns.
      destruct (IH s) as (more & Tm & Cm & Lm & Fm & Nm).
      exists (base ++ Sleep (timerDelay (now s - now (fire url (preRequestWait st)))) :: more).
      rewrite Tm, Ts, Tb, <- !app_assoc. cbn [app].
      rewrite Cm, Cs. rewrite gets_app, Gb. cbn [gets filter app List.length].
      fold (gets more). cbn [fire calls now] in *. rewrite Cpre.
      repeat split; try lia.
      apply Forall_app. split; [exact Fb|].
      apply Forall_cons; [exact (timerDelay_pos _) | exact Fm]. }
    destruct (server env _ _) as [r|e]; cbn [fst].
    + destruct (updateRateLimit_frame r (fire url (preRequestWait st))) as (-> & -> & ->).
      destruct Stop as (a & ? & ? & ? & ? & ?). exists a. repeat split; auto; lia.
    + destruct (isNetworkError e).
      * apply Again; cbn [sleep trace calls now fire].
        -- do 3 f_equal. pose proof (timerDelay_pos (backoffDelay (S k))).
           unfold timerDelay at 2.
           destruct (_ <? 1) eqn:E; [apply Z.ltb_lt in E; lia | lia].
        -- reflexivity.
        -- pose proof (timerDelay_pos (backoffDelay (S k))). lia.
      * destruct (response e) as [r|]; cbn [fst];
          [|destruct Stop as (a & ? & ? & ? & ? & ?); exists a; repeat split; auto; lia].
        destruct (isRateLimitResponse r); cbn [fst];
          [|destruct Stop as (a & ? & ? & ? & ? & ?); exists a; repeat split; auto; lia].
        destruct (waitTimeOf r _) as [|w]; cbn [fst];
          [destruct Stop as (a & ? & ? & ? & ? & ?); exists a; repeat split; auto; lia|].
        destruct (w <? 3600000); cbn [fst];
          [|destruct Stop as (a & ? & ? & ? & ? & ?); exists a; repeat split; auto; lia].
        apply Again; cbn [sleep setRemaining trace calls now fire].
        -- do 3 f_equal. pose proof (timerDelay_pos (w + 2000)).
           unfold timerDelay at 2.
           destruct (_ <? 1) eqn:E; [apply Z.ltb_lt in E; lia | lia].
        -- reflexivity.
        -- pose proof (timerDelay_pos (w + 2000)). lia.
Qed.

(** X6. Whatever the server does, one call of [request] issues at least one
    and at most [retries + 1] HTTP calls, all of them on the URL of the
    endpoint; it only adds to the trace, its timers last at least one
    millisecond, and the clock never goes back. *)
Theorem request_call_budget :
  forall (endpoint : string) (retries : nat) (full : bool) (st : State),
    let st' := fst (request env endpoint retries full st) in
    (calls st < calls st' <= calls st + retries + 1)%nat
    /\ now st <= now st'
    /\ exists added,
         trace st' = trace st ++ added
         /\ List.length (gets added) = (calls st' - calls st)%nat
         /\ Forall (madeFor (baseURL ++ endpoint)%string) added.
Proof.
  intros endpoint retries full st st'.
  destruct (request_effects endpoint retries full st) as (added & T & C & L & F & N).
  fold st' in T, C, N.
  repeat split; try lia.
  exists added. repeat split; [exact T | lia | exact F].
Qed.

(** What [request] ends with, in terms of the last call it made. *)
Lemma request_last_call (endpoint : string) (retries : nat) (full : bool) :
  forall st : State,
    match request env endpoint retries full st with
    | (st', Ok v) =>
        exists r,
          server env (pred (calls st')) (baseURL ++ endpoint)%string = Resolved r
          /\ v = (if full then FullResponse r else DataOnly (data r))
          /\ (truthy (headers r "x-ratelimit-remaining") = true ->
              rateLimitRemaining st' = parseInt (headers r "x-ratelimit-remaining"))
          /\ rateLimitReset st'
             = (if truthy (headers r "x-ratelimit-reset")
                then mulN (parseInt (headers r "x-ratelimit-reset")) (Num 1000)
                else rateLimitReset st)
    | (st', Throw err) =>
        exists e,
          server env (pred (calls st')) (baseURL ++ endpoint)%string = Rejected e
          /\ err = failure env e
          /\ rateLimitReset st' = rateLimitReset st
          /\ (rateLimitRemaining st' = rateLimitRemaining st
              \/ rateLimitRemaining st' = Num 5000)
    end.
Proof.
  induction retries as [|k IH]; intros st; rewrite request_eq; cbv zeta;
    destruct (preRequestWait_effects (baseURL ++ endpoint)%string st)
      as (_ & _ & _ & _ & Cpre & _ & Rpre & Qpre);
    set (url := (baseURL ++ endpoint)%string) in *;
    destruct (server env (calls (preRequestWait st)) url) as [r|e] eqn:Hsrv;
    try (exists r; unfold updateRateLimit;
         destruct (truthy (headers r "x-ratelimit-remaining"));
         destruct (truthy (headers r "x-ratelimit-reset"));
         cbn [calls rateLimitRemaining rateLimitReset setRemaining setReset fire pred];
         repeat split; auto; discriminate).
  - exists e. cbn [calls rateLimitRemaining rateLimitReset fire pred]. auto.
  - assert (Stop : exists e0,
               server env (pred (calls (fire url (preRequestWait st)))) url = Rejected e0
               /\ failure env e = failure env e0
               /\ rateLimitReset (fire url (preRequestWait st)) = rateLimitReset st
               /\ (rateLimitRemaining (fire url (preRequestWait st)) = rateLimitRemaining st
                   \/ rateLimitRemaining (fire url (preRequestWait st)) = Num 5000))
      by (exists e; cbn [calls rateLimitRemaining rateLimitReset fire pred]; auto).
    assert (Again : forall s,
               rateLimitReset s = rateLimitReset st ->
               (rateLimitRemaining s = rateLimitRemaining st
                \/ rateLimitRemaining s = Num 5000) ->
               match request env endpoint k full s with
               | (st', Ok v) =>
                   exists r,
                     server env (pred (calls st')) url = Resolved r
                     /\ v = (if full then FullResponse r else DataOnly (data r))
                     /\ (truthy (headers r "x-ratelimit-remaining") = true ->
                         rateLimitRemaining st'
                         = parseInt (headers r "x-ratelimit-remaining"))
                     /\ rateLimitReset st'
                        = (if truthy (headers r "x-ratelimit-reset")
                           then mulN (parseInt (headers r "x-ratelimit-reset")) (Num 1000)
                           else rateLimitReset st)
               | (st', Throw err) =>
                   exists e,
                     server env (pred (calls st')) url = Rejected e
                     /\ err = failure env e
                     /\ rateLimitReset st' = rateLimitReset st
                     /\ (rateLimitRemaining st' = rateLimitRemaining st
                         \/ rateLimitRemaining st' = Num 5000)
               end).
    { intros s Hs Hq. specialize (IH s).
      destruct (request env endpoint k full s) as [st' [v|err]].
      - destruct IH as (r & ? & ? & ? & Hr). exists r. rewrite Hr, Hs. auto.
      - destruct IH as (e0 & ? & ? & Hr & [Hq'|Hq']); exists e0; rewrite Hr, Hs;
          repeat split; auto.
        rewrite Hq'. exact Hq. }
    destruct (isNetworkError e).
    + apply Again; cbn [sleep fire rateLimitReset rateLimitRemaining]; assumption.
    + destruct (response e) as [r|]; [|exact Stop].
      destruct (isRateLimitResponse r); [|exact Stop].
      destruct (waitTimeOf r _) as [|w]; [exact Stop|].
      destruct (w <? 3600000); [|exact Stop].
      apply Again; cbn [sleep fire setRemaining rateLimitReset rateLimitRemaining];
        [assumption | right; reflexivity].
Qed.

(** X7. [request] answers with the outcome of the last HTTP call it made.
    When it returns, that call was answered, the result is the whole response
    or its payload as [returnFullResponse] asks, the remaining quota is the
    parsed header when the response has one, and the reset time is the parsed
    header times 1000 when the response has one and is unchanged otherwise.
    When it throws, that call was rejected and the error is the one built
    from this rejection; the reset time is what it was before the request,
    and the remaining quota is what it was or 5000. *)
Theorem request_answers_with_last_call :
  forall (endpoint : string) (retries : nat) (full : bool) (st : State),
    match request env endpoint retries full st with
    | (st', Ok v) =>
        exists r,
          server env (pred (calls st')) (baseURL ++ endpoint)%string = Resolved r
          /\ v = (if full then FullResponse r else DataOnly (data r))
          /\ (truthy (headers r "x-ratelimit-remaining") = true ->
              rateLimitRemaining st' = parseInt (headers r "x-ratelimit-remaining"))
          /\ rateLimitReset st'
             = (if truthy (headers r "x-ratelimit-reset")
                then mulN (parseInt (headers r "x-ratelimit-reset")) (Num 1000)
                else rateLimitReset st)
    | (st', Throw err) =>
        exists e,
          server env (pred (calls st')) (baseURL ++ endpoint)%string = Rejected e
          /\ err = failure env e
          /\ rateLimitReset st' = rateLimitReset st
          /\ (rateLimitRemaining st' = rateLimitRemaining st
              \/ rateLimitRemaining st' = Num 5000)
    end.
Proof. intros. apply request_last_call. Qed.

End RequestInvariants.

(** ** The Link header: [hasNextPage] and [getNextPageUrl] *)

Section LinkHeaderFacts.
Import JS GitHubAPI.
Local Open Scope list_scope.

Lemma toLowerCase_app (a b : string) :
  toLowerCase (a ++ b) = (toLowerCase a ++ toLowerCase b)%string.
Proof. induction a as [|c a IH]; cbn; [reflexivity | now rewrite IH]. Qed.

Lemma includes_of_isPrefix (s p : string) : isPrefix p s = true -> includes s p = true.
Proof. intros H. destruct s; cbn [includes]; now rewrite H. Qed.

Lemma includes_app_r (a b p : string) :
  includes b p = true -> includes (a ++ b)%string p = true.
Proof.
  intros H. induction a as [|c a IH]; [exact H|].
  cbn [append includes]. rewrite IH. now destruct (isPrefix p _).
Qed.

Lemma trimStart_suffix (s : string) : exists ws, s = (ws ++ trimStart s)%string.
Proof.
  induction s as [|c s [ws IH]]; [exists EmptyString; reflexivity|].
  cbn [trimStart]. destruct (isSpace c).
  - exists (String c ws). cbn. now rewrite <- IH.
  - exists EmptyString. reflexivity.
Qed.

Lemma takeNonGt_spec (s a b : string) :
  takeNonGt s = (a, b) -> s = (a ++ b)%string /\ lacks ">" a = true.
Proof.
  revert a b. induction s as [|c s IH]; intros a b; cbn [takeNonGt].
  - intros H. injection H as <- <-. split; reflexivity.
  - destruct (Ascii.eqb c ">") eqn:E.
    + intros H. injection H as <- <-. split; reflexivity.
    + destruct (takeNonGt s) as [a' b']. intros H. injection H as <- <-.
      destruct (IH a' b' eq_refl) as [-> Hl]. split; [reflexivity|].
      cbn [lacks]. now rewrite E, Hl.
Qed.

Lemma takeNonGt_app (u rest : string) :
  lacks ">" u = true -> takeNonGt (u ++ String ">" rest) = (u, String ">" rest).
Proof.
  induction u as [|c u IH]; cbn [lacks append takeNonGt]; [reflexivity|].
  intros H. apply andb_prop in H as [Hc Hu]. apply negb_true_iff in Hc.
  now rewrite Hc, (IH Hu).
Qed.

(** Where [nextMatch] finds its URL. *)
Lemma nextMatch_found (s u : string) :
  nextMatch s = Some u ->
  exists before after,
    s = (before ++ String "<" (u ++ String ">" (String ";" after)))%string
    /\ relNext after = true
    /\ u <> EmptyString
    /\ lacks ">" u = true.
Proof.
  induction s as [|c s IH]; cbn [nextMatch nextHere]; [discriminate|].
  destruct (Ascii.eqb_spec c "<") as [->|Hc].
  - destruct (takeNonGt s) as [[|a url] [|g [|d after]]] eqn:Et;
      try (intros H; destruct (IH H) as (before & after' & -> & ?);
           exists (String "<" before), after'; split; [reflexivity | assumption]).
    destruct (Ascii.eqb_spec d ";") as [->|Hd]; cbn [andb];
      [|intros H; destruct (IH H) as (before & after' & -> & ?);
        exists (String "<" before), after'; split; [reflexivity | assumption]].
    destruct (relNext after) eqn:Er;
      [|intros H; destruct (IH H) as (before & after' & -> & ?);
        exists (String "<" before), after'; split; [reflexivity | assumption]].
    intros H. injection H as <-.
    destruct (takeNonGt_spec _ _ _ Et) as [Hs Hl].
    assert (g = ">"%char) as ->.
    { clear - Et. revert a url Et. induction s as [|x s IHs]; intros a url;
        cbn [takeNonGt]; [discriminate|].
      destruct (Ascii.eqb_spec x ">") as [->|Hx]; [discriminate|].
      destruct (takeNonGt s) as [a' b'] eqn:E'. intros H. injection H as _ Hu ->.
      destruct a' as [|y a'].
      - clear - E'. destruct s as [|z s]; cbn [takeNonGt] in E'; [discriminate|].
        destruct (Ascii.eqb_spec z ">") as [->|Hz].
        + now injection E' as <-.
        + destruct (takeNonGt s); discriminate.
      - exact (IHs _ _ eq_refl). }
    exists EmptyString, after. repeat split; [now rewrite Hs | exact Er | discriminate | exact Hl].
  - intros H. destruct (IH H) as (before & after' & -> & ?).
    exists (String c before), after'. split; [reflexivity | assumption].
Qed.

(** X8. The two readers of the Link header agree in one direction: when
    [getNextPageUrl] finds a URL, [hasNextPage] is true; the URL is not
    empty, has no ['>'], and stands in the header between ['<'] and ['>;'].
    The converse does not hold: [hasNextPage] only looks for the relation and
    is true for a header from which no URL can be read. *)
Theorem getNextPageUrl_implies_hasNextPage :
  (forall (header url : string),
      getNextPageUrl (Some header) = Some url ->
      hasNextPage (Some header) = true
      /\ url <> EmptyString
      /\ lacks ">" url = true
      /\ includes header ("<" ++ url ++ ">;") = true)
  /\ (exists header,
         hasNextPage (Some header) = true /\ getNextPageUrl (Some header) = None).
Proof.
  split.
  - intros header url H.
    destruct header as [|c l]; [discriminate|]. cbn [getNextPageUrl] in H.
    destruct (nextMatch_found _ _ H) as (before & after & Hs & Hr & Hu & Hl).
    repeat split; try assumption.
    + unfold hasNextPage. rewrite Hs. unfold relNext in Hr. cbv zeta in *.
      apply existsb_exists in Hr as (p & Hp & Hpre).
      apply existsb_exists. exists p. split; [exact Hp|].
      destruct (trimStart_suffix after) as [ws Hws].
      rewrite Hws.
      replace (before ++ String "<" (url ++ String ">" (String ";" (ws ++ trimStart after))))%string
        with ((before ++ String "<" (url ++ String ">" (String ";" ws))) ++ trimStart after)%string.
      * rewrite toLowerCase_app. apply includes_app_r, includes_of_isPrefix, Hpre.
      * rewrite !append_assoc. cbn [append]. rewrite !append_assoc. reflexivity.
    + rewrite Hs. apply includes_app_r, includes_of_isPrefix.
      cbn [append isPrefix]. rewrite Ascii.eqb_refl. cbn [andb].
      clear. induction url as [|x url IH]; cbn [append isPrefix].
      * reflexivity.
      * now rewrite Ascii.eqb_refl.
  - exists "rel='next'". split; reflexivity.
Qed.

Lemma getNextPageUrl_implies_hasNextPage_witness :
  hasNextPage (Some "<https://api.github.com/repositories/1/contributors?page=2>; rel='next'")
  = true.
Proof.
  exact (proj1 (proj1 getNextPageUrl_implies_hasNextPage
                  "<https://api.github.com/repositories/1/contributors?page=2>; rel='next'"
                  "https://api.github.com/repositories/1/contributors?page=2" eq_refl)).
Defined.

Lemma nextMatch_skip (before s : string) :
  lacks "<" before = true -> nextMatch (before ++ s) = nextMatch s.
Proof.
  induction before as [|c before IH]; [reflexivity|].
  cbn [lacks append]. intros H. apply andb_prop in H as [Hc Hb].
  apply negb_true_iff in Hc. cbn [nextMatch nextHere]. rewrite Hc. exact (IH Hb).
Qed.

Lemma lacks_app (c : ascii) (a b : string) :
  lacks c (a ++ b) = lacks c a && lacks c b.
Proof. induction a as [|x a IH]; cbn; [reflexivity | now rewrite IH, andb_assoc]. Qed.

(** A word followed by a quote, at the start of a lower-cased text that is
    closed by a quote. *)
Lemma isPrefix_word (q q' : ascii) (word rel tail : string) :
  (forall c, Ascii.eqb q (lowerChar c) = Ascii.eqb c q) ->
  lacks q' word = true ->
  lacks q rel = true ->
  isPrefix (word ++ String q "") (toLowerCase rel ++ String q' tail)
  = String.eqb word (toLowerCase rel) && Ascii.eqb q q'.
Proof.
  intros Hq. revert rel. induction word as [|a word IH]; intros [|c rel] Hw Hr;
    cbn [append isPrefix toLowerCase String.eqb lacks] in *.
  - now rewrite andb_true_r.
  - apply andb_prop in Hr as [Hc _]. apply negb_true_iff in Hc.
    now rewrite Hq, Hc.
  - apply andb_prop in Hw as [Ha _]. apply negb_true_iff in Ha. now rewrite Ha.
  - apply andb_prop in Hw as [_ Hw]. apply andb_prop in Hr as [_ Hr].
    rewrite (IH rel Hw Hr). destruct (Ascii.eqb a (lowerChar c)); reflexivity.
Qed.

Lemma lowerChar_not_dquote (c : ascii) :
  Ascii.eqb (ascii_of_nat 34) (lowerChar c) = Ascii.eqb c (ascii_of_nat 34).
Proof. destruct c as [[] [] [] [] [] [] [] []]; reflexivity. Qed.

Lemma lowerChar_not_quote (c : ascii) :
  Ascii.eqb "'" (lowerChar c) = Ascii.eqb c "'".
Proof. destruct c as [[] [] [] [] [] [] [] []]; reflexivity. Qed.

(** After the URL of a link of the header format comes its relation. *)
Lemma relNext_linkValue (rel tail : string) :
  lacks (ascii_of_nat 34) rel = true -> lacks "'" rel = true ->
  relNext (" rel=" ++ dquote ++ rel ++ dquote ++ tail)
  = String.eqb "next" (toLowerCase rel).
Proof.
  intros Hd Hq. unfold relNext. cbv zeta.
  change (trimStart (" rel=" ++ dquote ++ rel ++ dquote ++ tail))
    with ("rel=" ++ dquote ++ rel ++ dquote ++ tail)%string.
  change (toLowerCase ("rel=" ++ dquote ++ rel ++ dquote ++ tail))
    with ("rel=" ++ dquote ++ toLowerCase (rel ++ dquote ++ tail))%string.
  rewrite toLowerCase_app.
  change (toLowerCase (dquote ++ tail))
    with (String (ascii_of_nat 34) (toLowerCase tail)).
  pose proof (isPrefix_word (ascii_of_nat 34) (ascii_of_nat 34) "next" rel
                (toLowerCase tail) lowerChar_not_dquote eq_refl Hd) as P1.
  pose proof (isPrefix_word "'" (ascii_of_nat 34) "next" rel
                (toLowerCase tail) lowerChar_not_quote eq_refl Hq) as P2.
  cbn [existsb].
  change (isPrefix ("rel=" ++ dquote ++ "next" ++ dquote)
            ("rel=" ++ dquote ++ toLowerCase rel ++ String (ascii_of_nat 34) (toLowerCase tail)))
    with (isPrefix ("next" ++ String (ascii_of_nat 34) "")
            (toLowerCase rel ++ String (ascii_of_nat 34) (toLowerCase tail))).
  change (isPrefix ("rel=" ++ dquote ++ "next'")
            ("rel=" ++ dquote ++ toLowerCase rel ++ String (ascii_of_nat 34) (toLowerCase tail)))
    with (isPrefix ("next" ++ String "'" "")
            (toLowerCase rel ++ String (ascii_of_nat 34) (toLowerCase tail))).
  rewrite P1, P2.
  change (isPrefix ("rel='next" ++ dquote)
            ("rel=" ++ dquote ++ toLowerCase rel ++ String (ascii_of_nat 34) (toLowerCase tail)))
    with false.
  change (isPrefix "rel='next'"
            ("rel=" ++ dquote ++ toLowerCase rel ++ String (ascii_of_nat 34) (toLowerCase tail)))
    with false.
  destruct (String.eqb "next" (toLowerCase rel)); reflexivity.
Qed.

(** One link of the header format at the start of a text. *)
Lemma nextMatch_linkValue (l : string * string) (tail : string) :
  wfLink l = true ->
  nextMatch (linkValue l ++ tail)
  = if isNextLink l then Some (fst l) else nextMatch tail.
Proof.
  destruct l as [url rel]. unfold wfLink, isNextLink, linkValue. cbn [fst snd].
  intros H. repeat (apply andb_prop in H as [H ?]). apply negb_true_iff in H.
  replace (("<" ++ url ++ ">; rel=" ++ dquote ++ rel ++ dquote) ++ tail)%string
    with (String "<" (url ++ String ">" (String ";"
            (" rel=" ++ dquote ++ rel ++ dquote ++ tail))))%string
    by (cbn [append]; rewrite !append_assoc; cbn [append];
        rewrite !append_assoc; reflexivity).
  cbn [nextMatch nextHere]. rewrite Ascii.eqb_refl.
  rewrite takeNonGt_app by assumption.
  destruct url as [|a url]; [discriminate|].
  rewrite Ascii.eqb_refl. cbn [andb].
  rewrite relNext_linkValue by assumption.
  destruct (String.eqb "next" (toLowerCase rel)); [reflexivity|].
  replace (String a url ++ String ">" (String ";"
             (" rel=" ++ dquote ++ rel ++ dquote ++ tail)))%string
    with ((String a url ++ ">; rel=" ++ dquote ++ rel ++ dquote) ++ tail)%string
    by (rewrite ?append_assoc; cbn [append]; rewrite ?append_assoc; reflexivity).
  apply nextMatch_skip.
  rewrite !lacks_app.
  match goal with
  | Hu : lacks "<" (String a url) = true, Hr : lacks "<" rel = true |- _ =>
      rewrite Hu, Hr
  end.
  reflexivity.
Qed.

Lemma nextMatch_linkHeaderOf (links : list (string * string)) :
  forallb wfLink links = true ->
  nextMatch (linkHeaderOf links) = option_map fst (find isNextLink links).
Proof.
  induction links as [|l rest IH]; [reflexivity|].
  cbn [forallb]. intros H. apply andb_prop in H as [Hl Hrest].
  cbn [linkHeaderOf find].
  destruct rest as [|l' rest'].
  - rewrite <- (append_nil_r (linkValue l)), (nextMatch_linkValue l "" Hl).
    destruct (isNextLink l); reflexivity.
  - rewrite (nextMatch_linkValue l _ Hl).
    destruct (isNextLink l); [reflexivity|].
    rewrite (nextMatch_skip ", " _ eq_refl). exact (IH Hrest).
Qed.

(** X9. From a Link header of the documented format,
    [<url>; rel="...", <url>; rel="..."], whose URLs are not empty and have
    no angle bracket and whose relations have no angle bracket and no quote,
    [getNextPageUrl] reads the URL of the first link whose relation is
    [next] in any case of the letters, and nothing when there is no such
    link; [hasNextPage] is true whenever a URL is read. *)
Theorem getNextPageUrl_reads_link_header :
  forall links : list (string * string),
    forallb wfLink links = true ->
    getNextPageUrl (Some (linkHeaderOf links))
    = option_map fst (find isNextLink links)
    /\ (existsb isNextLink links = true ->
        hasNextPage (Some (linkHeaderOf links)) = true).
Proof.
  intros links H.
  assert (G : getNextPageUrl (Some (linkHeaderOf links))
              = option_map fst (find isNextLink links)).
  { unfold getNextPageUrl.
    destruct (linkHeaderOf links) as [|c h] eqn:E.
    - rewrite <- (nextMatch_linkHeaderOf links H), E. reflexivity.
    - rewrite <- E. exact (nextMatch_linkHeaderOf links H). }
  split; [exact G|].
  intros Hex. apply existsb_exists in Hex as (l & Hin & Hl).
  destruct (find isNextLink links) as [l0|] eqn:Ef.
  - cbn [option_map] in G.
    destruct (linkHeaderOf links) as [|c h] eqn:E; [discriminate|].
    destruct (nextMatch_found _ _ G) as (before & after & Hs & Hr & _).
    unfold hasNextPage. rewrite Hs. unfold relNext in Hr. cbv zeta in *.
    apply existsb_exists in Hr as (p & Hp & Hpre).
    apply existsb_exists. exists p. split; [exact Hp|].
    destruct (trimStart_suffix after) as [ws Hws]. rewrite Hws.
    replace (before ++ String "<" (fst l0 ++ String ">" (String ";" (ws ++ trimStart after))))%string
      with ((before ++ String "<" (fst l0 ++ String ">" (String ";" ws))) ++ trimStart after)%string
      by (rewrite !append_assoc; cbn [append]; rewrite !append_assoc; reflexivity).
    rewrite toLowerCase_app. apply includes_app_r, includes_of_isPrefix, Hpre.
  - pose proof (find_none _ _ Ef l Hin). congruence.
Qed.

Lemma getNextPageUrl_reads_link_header_witness :
  getNextPageUrl
    (Some (linkHeaderOf [("https://api.github.com/repositories/1/contributors?page=1", "prev");
                         ("https://api.github.com/repositories/1/contributors?page=3", "next");
                         ("https://api.github.com/repositories/1/contributors?page=9", "last")]))
  = Some "https://api.github.com/repositories/1/contributors?page=3".
Proof.
  exact (proj1 (getNextPageUrl_reads_link_header
                  [("https://api.github.com/repositories/1/contributors?page=1", "prev");
                   ("https://api.github.com/repositories/1/contributors?page=3", "next");
                   ("https://api.github.com/repositories/1/contributors?page=9", "last")]
                  eq_refl)).
Defined.

End LinkHeaderFacts.

(** ** [getContributorsWithPagination] *)

Section PaginationFacts.
Import JS GitHubAPI.
Local Open Scope list_scope.

Context {Data : Type}.
Variable env : Env Data.

(** X10. [getContributorsWithPagination] asks for the contributors page
    with a budget of three retries, so it makes between one and four HTTP
    calls, all on the contributors URL of that page with [anon=1]. When it
    returns, the page it hands over is the payload of the last call's
    response, and its [hasNextPage] flag is what [hasNextPage] reads from the
    [link] header of that response; when it throws, the error is the one that
    [request] builds from the last rejection. *)
Theorem getContributorsWithPagination_page :
  forall (owner repo : string) (page perPage : nat) (st : State),
    let url := (baseURL ++ contributorsEndpoint owner repo page perPage)%string in
    match getContributorsWithPagination env owner repo page perPage st with
    | (st', Ok pg) =>
        (calls st < calls st' <= calls st + 4)%nat
        /\ exists r,
             server env (pred (calls st')) url = Resolved r
             /\ pageContributors pg = data r
             /\ pageHasNext pg = hasNextPage (headers r "link")
    | (st', Throw err) =>
        (calls st < calls st' <= calls st + 4)%nat
        /\ exists e,
             server env (pred (calls st')) url = Rejected e
             /\ err = failure env e
    end
    /\ includes url "&anon=1" = true.
Proof.
  intros owner repo page perPage st url. split.
  - unfold getContributorsWithPagination.
    pose proof (request_last_call env (contributorsEndpoint owner repo page perPage)
                  3 true st) as L.
    pose proof (request_effects env (contributorsEndpoint owner repo page perPage)
                  3 true st) as E.
    cbv zeta in E. fold url in L, E.
    destruct (request env (contributorsEndpoint owner repo page perPage) 3 true st)
      as [st' [v|err]]; cbn [fst] in E;
      destruct E as (added & _ & C & B & _).
    + destruct L as (r & Hs & -> & _). split; [lia|].
      exists r. repeat split; assumption.
    + destruct L as (e & Hs & -> & _). split; [lia|]. exists e. split; auto.
  - unfold url, contributorsEndpoint. rewrite <- !append_assoc.
    apply includes_app_r. reflexivity.
Qed.

End PaginationFacts.

(** ** The two passes: what their records and counters keep *)

Section PassInvariants.
Import JS Filter Collector.
Local Open Scope nat_scope.
Local Open Scope list_scope.

Variable api : Api.
Variables owner repo : string.

(** A property that every iteration keeps holds when the pass ends. *)
Lemma contributorsLoop_keeps (Inv : ContributorsState -> Prop) :
  (forall st, Inv st ->
     match contributorsStep api owner repo st with
     | Continue st' | Break st' | Throws _ st' => Inv st'
     end) ->
  forall (fuel : nat) (st : ContributorsState),
    Inv st ->
    match contributorsLoop api owner repo fuel st with
    | Finished st' | Threw _ st' => Inv st'
    | OutOfFuel => True
    end.
Proof.
  intros Hstep. induction fuel as [|fuel IH]; intros st H; cbn [contributorsLoop].
  - destruct (hasMore st && (page st <=? maxPages)); [exact I | exact H].
  - destruct (hasMore st && (page st <=? maxPages)); [|exact H].
    specialize (Hstep st H).
    destruct (contributorsStep api owner repo st) as [st'|st'|e st'];
      [apply IH; exact Hstep | exact Hstep | exact Hstep].
Qed.

Lemma commitsLoop_keeps (limit : nat) (Inv : CommitsState -> Prop) :
  (forall st, Inv st ->
     match commitsStep api owner repo limit st with
     | Continue st' | Break st' | Throws _ st' => Inv st'
     end) ->
  forall (fuel : nat) (st : CommitsState),
    Inv st ->
    match commitsLoop api owner repo limit fuel st with
    | Finished st' | Threw _ st' => Inv st'
    | OutOfFuel => True
    end.
Proof.
  intros Hstep. induction fuel as [|fuel IH]; intros st H; cbn [commitsLoop].
  - destruct (commitHasMore st && (totalCommits st <? limit)); [exact I | exact H].
  - destruct (commitHasMore st && (totalCommits st <? limit)); [|exact H].
    specialize (Hstep st H).
    destruct (commitsStep api owner repo limit st) as [st'|st'|e st'];
      [apply IH; exact Hstep | exact Hstep | exact Hstep].
Qed.

(** What a record of the contributors pass is: its address is accepted by
    [filterInvalidEmails] and it names the repository. *)
Lemma processContributor_accepted (name : string) (c : Contributor) (w : World)
    (d : EmailData) :
  fst (processContributor api name c w) = Some d -> contributorRecord name d.
Proof.
  unfold contributorRecord.
  assert (Hanon : forall r, fst (match contributorEmail c with
                     | Some (String a e) =>
                         if filterInvalidEmails
                              (Some (email {| email := trim (toLowerCase (String a e));
                                              name := orElse (contributorName c)
                                                        "Anonymous Contributor";
                                              username := "";
                                              repository := name |}))
                         then (Some {| email := trim (toLowerCase (String a e));
                                       name := orElse (contributorName c)
                                                 "Anonymous Contributor";
                                       username := "";
                                       repository := name |}, w)
                         else (None, w)
                     | _ => (None, w)
                     end) = Some r ->
                   filterInvalidEmails (Some (email r)) = true /\ repository r = name).
  { intros r. destruct (contributorEmail c) as [[|a e]|]; cbn [fst]; try discriminate.
    destruct (filterInvalidEmails _) eqn:Ef; cbn [fst]; [|discriminate].
    intros H. injection H as <-. split; [exact Ef | reflexivity]. }
  unfold processContributor.
  destruct (login c) as [[|a l]|]; [apply Hanon| |apply Hanon].
  destruct (getUser api (userCalls w) (String a l)) as [u|e]; cbn [fst];
    [|discriminate].
  destruct (extractEmailFromUser u) as [d0|] eqn:Ex; cbn [fst]; [|discriminate].
  intros H. injection H as <-. cbn [setRepository email repository].
  split; [|reflexivity].
  unfold extractEmailFromUser in Ex. destruct u as [u|]; [|discriminate].
  destruct (userEmail u) as [[|x raw]|] eqn:Eu; cbn [truthy negb] in Ex;
    try discriminate.
  destruct (filterInvalidEmails (Some (String x raw))) eqn:Ef; [|discriminate].
  injection Ex as <-. cbn [email orElse].
  exact (filterInvalidEmails_normalize _ Ef).
Qed.

Lemma processBatch_accepted (name : string) (batch : list Contributor) :
  forall w : World,
    Forall (contributorRecord name)
      (fst (processBatch api name batch w))
    /\ List.length (fst (processBatch api name batch w)) <= List.length batch.
Proof.
  induction batch as [|c batch IH]; intros w; cbn [processBatch].
  - split; [constructor | reflexivity].
  - pose proof (processContributor_accepted name c w) as Hc.
    destruct (processContributor api name c w) as [r w1].
    destruct (IH w1) as [IH1 IH2].
    destruct (processBatch api name batch w1) as [rs w2].
    cbn [fst List.length] in *. destruct r as [d|].
    + split; [constructor; auto | cbn [List.length]; lia].
    + split; [exact IH1 | lia].
Qed.

Lemma contributorsStep_accepted (st : ContributorsState) :
  Forall (contributorRecord (repositoryNameOf owner repo)) (emails st)
  /\ List.length (emails st) <= totalContributorsFetched st ->
  match contributorsStep api owner repo st with
  | Continue st' | Break st' | Throws _ st' =>
      Forall (contributorRecord (repositoryNameOf owner repo)) (emails st')
      /\ List.length (emails st') <= totalContributorsFetched st'
  end.
Proof.
  intros [H1 H2]. unfold contributorsStep.
  destruct (getContributorsWithPagination api _ owner repo _ _) as [pg|e].
  - destruct (maxPages <=? page st); [split; assumption|].
    set (cs := match contributors pg with Some l => l | None => [] end).
    destruct (0 <? List.length cs) eqn:E0.
    + apply Nat.ltb_lt in E0.
      assert (En : (List.length cs =? 0) = false) by (apply Nat.eqb_neq; lia).
      rewrite En.
      match goal with
      | |- context [processPage ?a ?n ?c ?p ?f ?fu ?i ?acc ?w] =>
          pose proof (processPage_all a n c p f fu i acc w ltac:(lia)) as Hp;
          pose proof (processBatch_accepted n c w) as [Hb1 Hb2];
          destruct (processPage a n c p f fu i acc w) as [emails1 w2]
      end.
      cbn [fst skipn] in Hp. subst emails1. cbn [emails totalContributorsFetched].
      split; [apply Forall_app; split; assumption|].
      rewrite length_app. lia.
    + cbn [emails totalContributorsFetched]. split; [exact H1|].
      destruct (List.length cs =? 0); lia.
  - destruct (includes (message e) "rate limit"); [split; assumption|].
    destruct (maxConsecutiveErrors <=? S (consecutiveErrors st)); split; assumption.
Qed.

(** X11. Whatever the API answers, the contributors pass ends, and every
    record it has gathered when it returns or throws carries an address that
    [filterInvalidEmails] accepts and the repository name [owner/repo]; it
    never has more records than contributors fetched. *)
Theorem collectFromContributors_records_accepted :
  forall w : World,
    match collectFromContributors api owner repo w with
    | Finished st | Threw _ st =>
        Forall (contributorRecord (repositoryNameOf owner repo)) (emails st)
        /\ List.length (emails st) <= totalContributorsFetched st
    | OutOfFuel => False
    end.
Proof.
  intros w.
  pose proof (collectFromContributors_spec api owner repo w) as Hend.
  pose proof (contributorsLoop_keeps _ contributorsStep_accepted (3 * maxPages + 1)
                (contributorsStart w)) as Hinv.
  unfold collectFromContributors in *.
  destruct (contributorsLoop api owner repo (3 * maxPages + 1) (contributorsStart w));
    [apply Hinv | apply Hinv | exact Hend];
    (split; [constructor | cbn; lia]).
Qed.

Lemma processCommits_bounded (limit : nat) (name : string) (commits : list Commit) :
  forall (acc : list EmailData) (total : nat),
    total <= limit ->
    List.length acc <= total ->
    Forall (commitRecord name) acc ->
    snd (processCommits name limit commits acc total) <= limit
    /\ List.length (fst (processCommits name limit commits acc total))
       <= snd (processCommits name limit commits acc total)
    /\ Forall (commitRecord name) (fst (processCommits name limit commits acc total)).
Proof.
  induction commits as [|c commits IH]; intros acc total Ht Hl Hacc;
    cbn [processCommits]; [cbn [fst snd]; auto|].
  destruct (limit <=? total) eqn:E; [cbn [fst snd]; auto|].
  apply Nat.leb_gt in E.
  assert (Hfound : forall found,
             found = match commitAuthor c with
                     | Some author =>
                         match authorEmail author with
                         | Some (String x e) =>
                             if isValidEmail
                                  (email {| email := trim (toLowerCase (String x e));
                                            name := orElse (authorName author)
                                                      (orElse (authorLogin c) "");
                                            username := orElse (authorLogin c) "";
                                            repository := "" |})
                             then [setRepository name
                                     {| email := trim (toLowerCase (String x e));
                                        name := orElse (authorName author)
                                                  (orElse (authorLogin c) "");
                                        username := orElse (authorLogin c) "";
                                        repository := "" |}]
                             else []
                         | _ => []
                         end
                     | None => []
                     end ->
             List.length found <= 1 /\ Forall (commitRecord name) found).
  { intros found ->.
    destruct (commitAuthor c) as [a|]; [|split; [cbn; lia | constructor]].
    destruct (authorEmail a) as [[|x e]|]; try (split; [cbn; lia | constructor]).
    destruct (isValidEmail _) eqn:Ev; [|split; [cbn; lia | constructor]].
    split; [cbn; lia|]. constructor; [|constructor]. split; [exact Ev | reflexivity]. }
  match goal with
  | |- context [processCommits name limit commits (acc ++ ?f) (S total)] =>
      destruct (Hfound f eq_refl) as [Hf1 Hf2]; apply IH
  end.
  - lia.
  - rewrite length_app. lia.
  - apply Forall_app. split; assumption.
Qed.

Lemma commitsStep_bounded (limit : nat) (st : CommitsState) :
  totalCommits st <= limit
  /\ List.length (commitEmails st) <= totalCommits st
  /\ Forall (commitRecord (repositoryNameOf owner repo)) (commitEmails st) ->
  match commitsStep api owner repo limit st with
  | Continue st' | Break st' | Throws _ st' =>
      totalCommits st' <= limit
      /\ List.length (commitEmails st') <= totalCommits st'
      /\ Forall (commitRecord (repositoryNameOf owner repo)) (commitEmails st')
  end.
Proof.
  intros (H1 & H2 & H3). unfold commitsStep.
  destruct (getCommits api _ owner repo _) as [[[|c cs]|]|e];
    try (repeat split; assumption).
  - pose proof (processCommits_bounded limit (repositoryNameOf owner repo)
                  (c :: cs) (commitEmails st) (totalCommits st) H1 H2 H3) as Hp.
    destruct (processCommits (repositoryNameOf owner repo) limit (c :: cs)
                (commitEmails st) (totalCommits st)) as [emails1 total1].
    exact Hp.
  - destruct (includes _ "rate limit"); [repeat split; assumption|].
    destruct (maxConsecutiveErrors <=? S (commitErrors st)); [repeat split; assumption|].
    destruct (isTransientError e _); repeat split; assumption.
Qed.

(** The commits pass ends, for every limit. *)
Lemma collectFromCommits_ends (limit : nat) (w : World) :
  collectFromCommits api owner repo limit w <> OutOfFuel.
Proof.
  destruct limit as [|n]; [discriminate|].
  pose proof (collectFromCommits_spec api owner repo (S n) w ltac:(lia)) as Hs.
  destruct (collectFromCommits api owner repo (S n) w); [discriminate.. | contradiction].
Qed.

(** X12. Whatever the API answers and whatever the limit, the commits pass
    ends; when it returns or throws it has counted at most [maxCommits]
    commits, even when the last page holds more, it has at most one record
    for each commit counted, and every record carries an address that
    [isValidEmail] accepts and the repository name [owner/repo]. *)
Theorem collectFromCommits_bounded :
  forall (limit : nat) (w : World),
    match collectFromCommits api owner repo limit w with
    | Finished st | Threw _ st =>
        totalCommits st <= limit
        /\ List.length (commitEmails st) <= totalCommits st
        /\ Forall (commitRecord (repositoryNameOf owner repo)) (commitEmails st)
    | OutOfFuel => False
    end.
Proof.
  intros limit w.
  pose proof (commitsLoop_keeps limit _ (commitsStep_bounded limit) (3 * limit + 1)
                (commitsStart w)) as Hinv.
  pose proof (collectFromCommits_ends limit w) as Hend.
  unfold collectFromCommits in *.
  destruct (commitsLoop api owner repo limit (3 * limit + 1) (commitsStart w));
    [apply Hinv | apply Hinv | congruence];
    (cbn; repeat split; try lia; constructor).
Qed.

End PassInvariants.

(** ** A run: its lists and the calls it makes *)

Section RunFacts.
Import JS Filter Collector.
Local Open Scope nat_scope.
Local Open Scope list_scope.

Variable api : Api.

(** The steps of a completed run. *)
Lemma collectFromRepository_parts (repoInput : string) (options : Options)
    (c : Collected) :
  collectFromRepository api repoInput options = Completed c ->
  exists owner repo m1 all1 w1 m2 w2,
    Repo.parseRepository repoInput = Repo.Parts owner repo
    /\ (if notFalse (includeContributors options)
        then contributorsPart api (printed owner) (printed repo)
               (emit [Progress "start" []] newWorld)
        else Some ([], [], emit [Progress "start" []] newWorld))
       = Some (m1, all1, w1)
    /\ (if notFalse (includeCommits options)
        then commitsPart api (printed owner) (printed repo)
               (natOr (maxCommits options) 1000) m1 all1 w1
        else Some (m1, all1, w1))
       = Some (m2, allEmails c, w2)
    /\ validEmails c
       = filter (fun d => filterInvalidEmails (Some (email d))) (allEmails c)
    /\ finalWorld c
       = emit [Progress "filtering" [("collected", List.length (validEmails c))];
               Progress "saving" [("count", List.length (validEmails c))]] w2
    /\ repositoryName c = repositoryNameOf (printed owner) (printed repo).
Proof.
  unfold collectFromRepository.
  destruct (Repo.parseRepository repoInput) as [owner repo|e]; [|discriminate].
  destruct (if notFalse (includeContributors options)
            then contributorsPart api (printed owner) (printed repo)
                   (emit [Progress "start" []] newWorld)
            else Some ([], [], emit [Progress "start" []] newWorld))
    as [[[m1 all1] w1]|] eqn:E1; [|discriminate].
  destruct (if notFalse (includeCommits options)
            then commitsPart api (printed owner) (printed repo)
                   (natOr (maxCommits options) 1000) m1 all1 w1
            else Some (m1, all1, w1))
    as [[[m2 all2] w2]|] eqn:E2; [|discriminate].
  intros H. injection H as <-. cbn [allEmails validEmails finalWorld repositoryName].
  exists owner, repo, m1, all1, w1, m2, w2. repeat split; assumption.
Qed.

(** *** The worlds of the passes *)

Lemma commitPagesOf_app (a b : list Event) :
  commitPagesOf (a ++ b) = commitPagesOf a ++ commitPagesOf b.
Proof. apply flat_map_app. Qed.

Lemma contributorPagesOf_app (a b : list Event) :
  contributorPagesOf (a ++ b) = contributorPagesOf a ++ contributorPagesOf b.
Proof. apply flat_map_app. Qed.

Lemma usersOf_app (a b : list Event) : usersOf (a ++ b) = usersOf a ++ usersOf b.
Proof. apply flat_map_app. Qed.

Lemma commitsUntouched_refl (w : World) : commitsUntouched w w.
Proof. split; reflexivity. Qed.

Lemma commitsUntouched_trans (a b c : World) :
  commitsUntouched a b -> commitsUntouched b c -> commitsUntouched a c.
Proof. intros [H1 H2] [H3 H4]. split; congruence. Qed.

Lemma commitsUntouched_emit (events : list Event) (w : World) :
  commitPagesOf events = [] -> commitsUntouched w (emit events w).
Proof.
  intros H. split; [reflexivity|]. cbn [emit trace].
  now rewrite commitPagesOf_app, H, app_nil_r.
Qed.

Lemma contributorsUntouched_refl (w : World) : contributorsUntouched w w.
Proof. repeat split; reflexivity. Qed.

Lemma contributorsUntouched_trans (a b c : World) :
  contributorsUntouched a b -> contributorsUntouched b c -> contributorsUntouched a c.
Proof. intros (H1 & H2 & H3 & H4) (H5 & H6 & H7 & H8). repeat split; congruence. Qed.

Lemma contributorsUntouched_emit (events : list Event) (w : World) :
  contributorPagesOf events = [] -> usersOf events = [] ->
  contributorsUntouched w (emit events w).
Proof.
  intros H1 H2. repeat split; cbn [emit trace].
  - now rewrite contributorPagesOf_app, H1, app_nil_r.
  - now rewrite usersOf_app, H2, app_nil_r.
Qed.

Lemma processContributor_frame (name : string) (c : Contributor) (w : World) :
  commitsUntouched w (snd (processContributor api name c w)).
Proof.
  unfold processContributor.
  destruct (login c) as [[|a l]|];
    [destruct (contributorEmail c) as [[|? ?]|]
    |destruct (getUser api (userCalls w) (String a l)) as [u|e];
       [destruct (extractEmailFromUser u)|]
    |destruct (contributorEmail c) as [[|? ?]|]];
    repeat match goal with
           | |- context [if ?b then _ else _] => destruct b
           end; cbn [snd];
    try apply commitsUntouched_refl;
    (split; [reflexivity|]; cbn [countUserCall emit trace];
     now rewrite commitPagesOf_app, app_nil_r).
Qed.

Lemma processBatch_frame (name : string) (batch : list Contributor) :
  forall w : World, commitsUntouched w (snd (processBatch api name batch w)).
Proof.
  induction batch as [|c batch IH]; intros w; cbn [processBatch].
  - apply commitsUntouched_refl.
  - pose proof (processContributor_frame name c w) as H1.
    destruct (processContributor api name c w) as [r w1].
    pose proof (IH w1) as H2.
    destruct (processBatch api name batch w1) as [rs w2].
    cbn [snd] in *. exact (commitsUntouched_trans _ _ _ H1 H2).
Qed.

Lemma processPage_frame (name : string) (cs : list Contributor)
    (pg fetched fuel : nat) :
  forall (i : nat) (acc : list EmailData) (w : World),
    commitsUntouched w (snd (processPage api name cs pg fetched fuel i acc w)).
Proof.
  induction fuel as [|fuel IH]; intros i acc w; cbn [processPage].
  - destruct (i <? List.length cs); apply commitsUntouched_refl.
  - destruct (i <? List.length cs); [|apply commitsUntouched_refl].
    pose proof (processBatch_frame name (slice i (i + 5) cs) w) as H1.
    destruct (processBatch api name (slice i (i + 5) cs) w) as [rs w1].
    cbn [snd] in H1.
    eapply commitsUntouched_trans; [exact H1|].
    eapply commitsUntouched_trans; [|apply IH].
    apply commitsUntouched_emit. reflexivity.
Qed.

Lemma contributorsStep_frame (owner repo : string) (st : ContributorsState) :
  match contributorsStep api owner repo st with
  | Continue st' | Break st' | Throws _ st' => commitsUntouched (world st) (world st')
  end.
Proof.
  assert (H0 : commitsUntouched (world st)
                 (countContributorCall
                    (emit [CallContributors (page st) 100] (world st)))).
  { split; [reflexivity|]. cbn [countContributorCall emit trace].
    now rewrite commitPagesOf_app, app_nil_r. }
  unfold contributorsStep.
  destruct (getContributorsWithPagination api _ owner repo _ _) as [pg|e].
  - destruct (maxPages <=? page st); [exact H0|].
    set (cs := match contributors pg with Some l => l | None => [] end).
    destruct (0 <? List.length cs).
    + match goal with
      | |- context [processPage ?a ?n ?c ?p ?f ?fu ?i ?acc ?w] =>
          pose proof (processPage_frame n c p f fu i acc w) as Hp;
          destruct (processPage a n c p f fu i acc w) as [emails1 w2]
      end.
      cbn [snd world] in *.
      eapply commitsUntouched_trans; [exact H0|].
      eapply commitsUntouched_trans;
        [|eapply commitsUntouched_trans;
            [exact Hp | apply commitsUntouched_emit; reflexivity]].
      apply commitsUntouched_emit. reflexivity.
    + cbn [world].
      eapply commitsUntouched_trans; [exact H0|].
      eapply commitsUntouched_trans; [|apply commitsUntouched_emit; reflexivity].
      apply commitsUntouched_emit. reflexivity.
  - destruct (includes (message e) "rate limit"); [exact H0|].
    destruct (maxConsecutiveErrors <=? S (consecutiveErrors st)); [exact H0|].
    cbn [world]. eapply commitsUntouched_trans; [exact H0|].
    apply commitsUntouched_emit. reflexivity.
Qed.

Lemma commitsStep_frame (owner repo : string) (limit : nat) (st : CommitsState) :
  match commitsStep api owner repo limit st with
  | Continue st' | Break st' | Throws _ st' =>
      contributorsUntouched (commitWorld st) (commitWorld st')
  end.
Proof.
  assert (H0 : contributorsUntouched (commitWorld st)
                 (countCommitCall (emit [CallCommits (commitPage st)] (commitWorld st)))).
  { repeat split; cbn [countCommitCall emit trace].
    - now rewrite contributorPagesOf_app, app_nil_r.
    - now rewrite usersOf_app, app_nil_r. }
  unfold commitsStep.
  destruct (getCommits api _ owner repo _) as [[[|c cs]|]|e]; try exact H0.
  - destruct (processCommits _ _ _ _ _) as [emails1 total1]. cbn [commitWorld].
    eapply contributorsUntouched_trans; [exact H0|].
    eapply contributorsUntouched_trans;
      [|apply contributorsUntouched_emit; reflexivity].
    apply contributorsUntouched_emit; reflexivity.
  - destruct (includes _ "rate limit"); [exact H0|].
    destruct (maxConsecutiveErrors <=? S (commitErrors st)); [exact H0|].
    destruct (isTransientError e _); cbn [commitWorld];
      (eapply contributorsUntouched_trans; [exact H0|];
       apply contributorsUntouched_emit; reflexivity).
Qed.

Lemma contributorsPart_frame (owner repo : string) (w w' : World)
    (m : EmailMap) (all : list EmailData) :
  contributorsPart api owner repo w = Some (m, all, w') ->
  commitsUntouched w w'
  /\ Forall (fun d => filterInvalidEmails (Some (email d)) = true) all.
Proof.
  unfold contributorsPart, collectFromContributors.
  pose proof (contributorsLoop_keeps api owner repo
                (fun st => commitsUntouched w (world st)
                           /\ Forall (contributorRecord (repositoryNameOf owner repo))
                                (emails st)
                              /\ List.length (emails st) <= totalContributorsFetched st)
                (fun st H =>
                   match contributorsStep api owner repo st as s
                     return (match s with
                             | Continue st' | Break st' | Throws _ st' =>
                                 commitsUntouched (world st) (world st')
                             end ->
                             match s with
                             | Continue st' | Break st' | Throws _ st' =>
                                 Forall (contributorRecord (repositoryNameOf owner repo))
                                   (emails st')
                                 /\ List.length (emails st') <= totalContributorsFetched st'
                             end ->
                             match s with
                             | Continue st' | Break st' | Throws _ st' =>
                                 commitsUntouched w (world st')
                                 /\ Forall (contributorRecord (repositoryNameOf owner repo))
                                      (emails st')
                                    /\ List.length (emails st')
                                       <= totalContributorsFetched st'
                             end)
                   with
                   | Continue st' | Break st' | Throws _ st' =>
                       fun F A => conj (commitsUntouched_trans _ _ _ (proj1 H) F) A
                   end (contributorsStep_frame owner repo st)
                       (contributorsStep_accepted api owner repo st (proj2 H)))
                (3 * maxPages + 1) (contributorsStart w)) as Hinv.
  assert (H0 : commitsUntouched w (world (contributorsStart w))
               /\ Forall (contributorRecord (repositoryNameOf owner repo))
                    (emails (contributorsStart w))
                  /\ List.length (emails (contributorsStart w))
                     <= totalContributorsFetched (contributorsStart w)).
  { split; [apply commitsUntouched_emit; reflexivity|]. split; [constructor | cbn; lia]. }
  specialize (Hinv H0).
  destruct (contributorsLoop api owner repo (3 * maxPages + 1) (contributorsStart w))
    as [st|e st|]; [| |discriminate]; intros H; injection H as <- <- <-;
    destruct Hinv as (Hw & Hrec & _).
  - split.
    + eapply commitsUntouched_trans; [exact Hw|]. apply commitsUntouched_emit. reflexivity.
    + destruct (addContributorEmails_wf (emails st) [] (NoDup_nil _) (Forall_nil _))
        as (_ & _ & H3).
      rewrite Forall_forall in *. intros v Hv.
      destruct (H3 v Hv) as [H|[]]. exact (proj1 (Hrec v H)).
  - split; [|constructor].
    eapply commitsUntouched_trans; [exact Hw|]. apply commitsUntouched_emit. reflexivity.
Qed.

Lemma commitsPart_frame (owner repo : string) (limit : nat) (w w' : World)
    (m m' : EmailMap) (all all' : list EmailData) :
  commitsPart api owner repo limit m all w = Some (m', all', w') ->
  contributorsUntouched w w'.
Proof.
  unfold commitsPart, collectFromCommits.
  pose proof (commitsLoop_keeps api owner repo limit
                (fun st => contributorsUntouched w (commitWorld st))
                (fun st H =>
                   match commitsStep api owner repo limit st as s
                     return (match s with
                             | Continue st' | Break st' | Throws _ st' =>
                                 contributorsUntouched (commitWorld st) (commitWorld st')
                             end ->
                             match s with
                             | Continue st' | Break st' | Throws _ st' =>
                                 contributorsUntouched w (commitWorld st')
                             end)
                   with
                   | Continue st' | Break st' | Throws _ st' =>
                       fun F => contributorsUntouched_trans _ _ _ H F
                   end (commitsStep_frame owner repo limit st))
                (3 * limit + 1) (commitsStart w)
                (contributorsUntouched_emit [Progress "commits" [("page", 1)]] w
                   eq_refl eq_refl)) as Hinv.
  destruct (commitsLoop api owner repo limit (3 * limit + 1) (commitsStart w))
    as [st|e st|]; [| |discriminate]; intros H; injection H as _ _ <-;
    (eapply contributorsUntouched_trans; [exact Hinv|];
     apply contributorsUntouched_emit; reflexivity).
Qed.

Lemma filter_all {A} (f : A -> bool) (l : list A) :
  Forall (fun x => f x = true) l -> filter f l = l.
Proof.
  induction 1 as [|x l Hx _ IH]; cbn [filter]; [reflexivity|]. now rewrite Hx, IH.
Qed.

Lemma NoDup_map_filter {A B} (g : A -> B) (f : A -> bool) (l : list A) :
  NoDup (map g l) -> NoDup (map g (filter f l)).
Proof.
  induction l as [|x l IH]; cbn [map filter]; [auto|].
  intros H. inversion H as [|? ? Hx Hl]; subst.
  destruct (f x); [|auto]. cbn [map]. constructor; [|auto].
  intros Hin. apply Hx. apply in_map_iff in Hin as (y & Hy & Hin).
  apply filter_In in Hin as [Hin _]. apply in_map_iff. eauto.
Qed.

(** X13. In a completed run the valid addresses are collected addresses
    that [filterInvalidEmails] accepts; no two of them are the same, and
    there are at most as many as collected ones. When the commits pass is
    switched off the final filter removes nothing, since the contributors
    pass has filtered its records already: the valid list is the collected
    list. *)
Theorem collectFromRepository_valid_emails :
  forall (repoInput : string) (options : Options) (c : Collected),
    collectFromRepository api repoInput options = Completed c ->
    Forall (fun d => filterInvalidEmails (Some (email d)) = true
                     /\ In d (allEmails c)) (validEmails c)
    /\ NoDup (map email (validEmails c))
    /\ List.length (validEmails c) <= List.length (allEmails c)
    /\ (includeCommits options = Some false -> validEmails c = allEmails c).
Proof.
  intros repoInput options c H.
  destruct (collectFromRepository_merged api repoInput options c H) as [Hnd _].
  destruct (collectFromRepository_parts repoInput options c H)
    as (owner & repo & m1 & all1 & w1 & m2 & w2 & _ & E1 & E2 & Hv & _).
  rewrite Hv. repeat split.
  - apply Forall_forall. intros d Hd. apply filter_In in Hd as [Hin Hf]. auto.
  - apply NoDup_map_filter. exact Hnd.
  - apply filter_length_le.
  - intros Hoff. rewrite Hoff in E2. cbn [notFalse] in E2.
    injection E2 as _ <- _.
    apply filter_all.
    destruct (notFalse (includeContributors options)).
    + exact (proj2 (contributorsPart_frame _ _ _ _ _ _ E1)).
    + injection E1 as _ <- _. constructor.
Qed.

(** X14. A pass that is switched off is not run: with
    [includeContributors: false] a completed run has made no call of the
    contributors endpoint and no user lookup, and with [includeCommits: false]
    it has made no call of the commits endpoint. *)
Theorem collectFromRepository_skips_switched_off_pass :
  forall (repoInput : string) (options : Options) (c : Collected),
    collectFromRepository api repoInput options = Completed c ->
    (includeContributors options = Some false ->
     contributorCalls (finalWorld c) = 0
     /\ userCalls (finalWorld c) = 0
     /\ contributorPagesOf (trace (finalWorld c)) = []
     /\ usersOf (trace (finalWorld c)) = [])
    /\ (includeCommits options = Some false ->
        commitCalls (finalWorld c) = 0
        /\ commitPagesOf (trace (finalWorld c)) = []).
Proof.
  intros repoInput options c H.
  destruct (collectFromRepository_parts repoInput options c H)
    as (owner & repo & m1 & all1 & w1 & m2 & w2 & _ & E1 & E2 & _ & Hw & _).
  rewrite Hw. split.
  - intros Hoff. rewrite Hoff in E1. cbn [notFalse] in E1. injection E1 as _ _ <-.
    assert (F : contributorsUntouched (emit [Progress "start" []] newWorld) w2).
    { destruct (notFalse (includeCommits options)).
      - exact (commitsPart_frame _ _ _ _ _ _ _ _ _ E2).
      - injection E2 as _ _ <-. apply contributorsUntouched_refl. }
    pose proof (contributorsUntouched_trans _ _ _ F
                  (contributorsUntouched_emit
                     [Progress "filtering"
                        [("collected", List.length (validEmails c))];
                      Progress "saving" [("count", List.length (validEmails c))]]
                     w2 eq_refl eq_refl)) as (G1 & G2 & G3 & G4).
    rewrite G1, G2, G3, G4. repeat split.
  - intros Hoff. rewrite Hoff in E2. cbn [notFalse] in E2. injection E2 as _ _ <-.
    assert (F : commitsUntouched (emit [Progress "start" []] newWorld) w1).
    { destruct (notFalse (includeContributors options)).
      - exact (proj1 (contributorsPart_frame _ _ _ _ _ _ E1)).
      - injection E1 as _ _ <-. apply commitsUntouched_refl. }
    pose proof (commitsUntouched_trans _ _ _ F
                  (commitsUntouched_emit
                     [Progress "filtering"
                        [("collected", List.length (validEmails c))];
                      Progress "saving" [("count", List.length (validEmails c))]]
                     w1 eq_refl)) as (G1 & G2).
    rewrite G1, G2. split; reflexivity.
Qed.

End RunFacts.

Section RunExamples.
Import JS Filter Collector.
Local Open Scope nat_scope.
Local Open Scope list_scope.

Lemma collectFromRepository_valid_emails_witness :
  exists c,
    collectFromRepository CollectorFixtures.smallRepo "octo/repo"
      CollectorFixtures.contributorsOnly = Completed c
    /\ validEmails c = allEmails c
    /\ map email (validEmails c) = ["jane.doe@site.org"; "dev7@site.org"]%string.
Proof.
  eexists. split; [vm_compute; reflexivity|]. split; [|reflexivity].
  match goal with
  | |- validEmails ?c = _ =>
      assert (E : collectFromRepository CollectorFixtures.smallRepo "octo/repo"
                    CollectorFixtures.contributorsOnly = Completed c)
        by (vm_compute; reflexivity);
      exact (proj2 (proj2 (proj2
               (collectFromRepository_valid_emails CollectorFixtures.smallRepo
                  "octo/repo" CollectorFixtures.contributorsOnly c E))) eq_refl)
  end.
Defined.

Lemma collectFromRepository_skips_switched_off_pass_witness :
  exists c,
    collectFromRepository CollectorFixtures.smallRepo "octo/repo"
      CollectorFixtures.commitsOnly = Completed c
    /\ contributorCalls (finalWorld c) = 0
    /\ usersOf (trace (finalWorld c)) = []
    /\ commitPagesOf (trace (finalWorld c)) = [1].
Proof.
  eexists. split; [vm_compute; reflexivity|].
  match goal with
  | |- contributorCalls (finalWorld ?c) = 0 /\ _ =>
      assert (E : collectFromRepository CollectorFixtures.smallRepo "octo/repo"
                    CollectorFixtures.commitsOnly = Completed c)
        by (vm_compute; reflexivity);
      destruct (proj1 (collectFromRepository_skips_switched_off_pass
                         CollectorFixtures.smallRepo "octo/repo"
                         CollectorFixtures.commitsOnly c E) eq_refl)
        as (G1 & _ & _ & G4)
  end.
  split; [exact G1|]. split; [exact G4 | reflexivity].
Defined.

End RunExamples.

(** ** [saveEmails] and the report of a run *)

Section PersistFacts.
Import JS Filter Persist.
Local Open Scope nat_scope.
Local Open Scope list_scope.

Variable store : Store.

Lemma perm_insert {A} (a b : list A) (x : A) :
  Permutation (a ++ x :: b) ((a ++ b) ++ [x]).
Proof.
  etransitivity; [symmetry; apply Permutation_middle | apply Permutation_cons_append].
Qed.

Lemma perm_middle_list {A} (a b c : list A) (x : A) :
  Permutation (a ++ (b ++ [x]) ++ c) ((a ++ b ++ c) ++ [x]).
Proof.
  replace (a ++ (b ++ [x]) ++ c) with ((a ++ b) ++ x :: c)
    by (rewrite <- !app_assoc; reflexivity).
  replace (a ++ b ++ c) with ((a ++ b) ++ c) by (rewrite <- app_assoc; reflexivity).
  apply perm_insert.
Qed.

Lemma perm_first_list {A} (a b : list A) (x : A) :
  Permutation ((a ++ [x]) ++ b) ((a ++ b) ++ [x]).
Proof.
  replace ((a ++ [x]) ++ b) with (a ++ x :: b) by (rewrite <- app_assoc; reflexivity).
  apply perm_insert.
Qed.

Lemma lookupsOf_app (a b : list Event) : lookupsOf (a ++ b) = lookupsOf a ++ lookupsOf b.
Proof. apply flat_map_app. Qed.

Lemma savesOf_app (a b : list Event) : savesOf (a ++ b) = savesOf a ++ savesOf b.
Proof. apply flat_map_app. Qed.

(** Where a record goes: one of the three lists gets its address. *)
Lemma caught_spec (d : EmailData) (e : StoreError) (r : SaveResult) :
  saved (caught d e r) = saved r
  /\ List.length (duplicates (caught d e r)) + List.length (errors (caught d e r))
     = S (List.length (duplicates r) + List.length (errors r))
  /\ Permutation
       (map email (saved (caught d e r)) ++ duplicates (caught d e r)
          ++ map fst (errors (caught d e r)))
       ((map email (saved r) ++ duplicates r ++ map fst (errors r)) ++ [email d]).
Proof.
  unfold caught. destruct (isDuplicateKey e); cbn [saved duplicates errors pushDuplicate
                                                     pushError].
  - split; [reflexivity|]. split; [rewrite length_app; cbn; lia|].
    apply perm_middle_list.
  - split; [reflexivity|]. split; [rewrite length_app; cbn; lia|].
    rewrite map_app, !app_assoc. cbn [map fst]. reflexivity.
Qed.

Lemma saveLoop_spec (emailList : list EmailData) :
  forall (r : SaveResult) (st : State),
    let r' := fst (saveLoop store emailList r st) in
    let st' := snd (saveLoop store emailList r st) in
    List.length (saved r') + List.length (duplicates r') + List.length (errors r')
    = List.length (saved r) + List.length (duplicates r) + List.length (errors r)
      + List.length emailList
    /\ Permutation
         (map email (saved r') ++ duplicates r' ++ map fst (errors r'))
         ((map email (saved r) ++ duplicates r ++ map fst (errors r))
            ++ map email emailList)
    /\ exists added news,
         log st' = log st ++ added
         /\ ops st' = ops st + List.length added
         /\ lookupsOf added = map email emailList
         /\ saved r' = saved r ++ news
         /\ incl news (savesOf added)
         /\ incl (savesOf added) emailList.
Proof.
  induction emailList as [|d rest IH]; intros r st; cbv zeta.
  - cbn [saveLoop fst snd List.length map]. rewrite !app_nil_r.
    split; [lia|]. split; [reflexivity|].
    exists [], []. rewrite !app_nil_r. cbn. repeat split; auto; try lia;
      intros x [].
  - cbn [saveLoop].
    assert (Step : forall r1 st1 evs,
               List.length (saved r1) + List.length (duplicates r1)
                 + List.length (errors r1)
               = S (List.length (saved r) + List.length (duplicates r)
                    + List.length (errors r)) ->
               Permutation
                 (map email (saved r1) ++ duplicates r1 ++ map fst (errors r1))
                 ((map email (saved r) ++ duplicates r ++ map fst (errors r))
                    ++ [email d]) ->
               log st1 = log st ++ evs ->
               ops st1 = ops st + List.length evs ->
               lookupsOf evs = [email d] ->
               incl (savesOf evs) [d] ->
               (exists mine, saved r1 = saved r ++ mine /\ incl mine (savesOf evs)) ->
               let r' := fst (saveLoop store rest r1 st1) in
               let st' := snd (saveLoop store rest r1 st1) in
               List.length (saved r') + List.length (duplicates r')
                 + List.length (errors r')
               = List.length (saved r) + List.length (duplicates r)
                 + List.length (errors r) + List.length (d :: rest)
               /\ Permutation
                    (map email (saved r') ++ duplicates r' ++ map fst (errors r'))
                    ((map email (saved r) ++ duplicates r ++ map fst (errors r))
                       ++ map email (d :: rest))
               /\ exists added news,
                    log st' = log st ++ added
                    /\ ops st' = ops st + List.length added
                    /\ lookupsOf added = map email (d :: rest)
                    /\ saved r' = saved r ++ news
                    /\ incl news (savesOf added)
                    /\ incl (savesOf added) (d :: rest)).
    { intros r1 st1 evs Hlen Hperm Hlog Hops Hlook Hsaves (mine & Hmine & Hin).
      destruct (IH r1 st1) as (L & P & added & news & A1 & A2 & A3 & A4 & A5 & A6).
      cbv zeta. split; [cbn [List.length]; lia|]. split.
      - etransitivity; [exact P|]. cbn [map].
        etransitivity; [apply Permutation_app_tail; exact Hperm|].
        rewrite <- app_assoc. reflexivity.
      - exists (evs ++ added), (mine ++ news).
        rewrite A1, Hlog, A2, Hops, A4, Hmine, lookupsOf_app, savesOf_app, Hlook, A3,
          length_app, <- !app_assoc.
        repeat split; try lia.
        + apply incl_app; [apply incl_appl; exact Hin | apply incl_appr; exact A5].
        + apply incl_app.
          * intros x Hx. left. destruct (Hsaves x Hx) as [<-|[]]. reflexivity.
          * apply incl_tl. exact A6. }
    destruct (findOne store (ops st) (email d)) as [| |e].
    + apply (Step _ _ [FindOne (email d)]); cbn [saved duplicates errors pushDuplicate
                                                     record log ops List.length];
        try reflexivity; try lia.
      * rewrite length_app. cbn. lia.
      * apply perm_middle_list.
      * intros x [].
      * exists []. rewrite app_nil_r. split; [reflexivity | intros x []].
    + destruct (save store (ops (record (FindOne (email d)) st)) d) as [e|].
      * destruct (caught_spec d e r) as (C1 & C2 & C3).
        apply (Step _ _ [FindOne (email d); Save d]);
          cbn [record log ops List.length]; try reflexivity; try lia.
        -- rewrite C1. lia.
        -- exact C3.
        -- now rewrite <- app_assoc.
        -- intros x Hx. exact Hx.
        -- exists []. rewrite app_nil_r. split; [exact C1 | intros x []].
      * apply (Step _ _ [FindOne (email d); Save d]);
          cbn [saved duplicates errors pushSaved record log ops List.length];
          try reflexivity; try lia.
        -- rewrite length_app. cbn. lia.
        -- rewrite map_app. cbn [map]. apply perm_first_list.
        -- now rewrite <- app_assoc.
        -- intros x Hx. exact Hx.
        -- exists [d]. split; [reflexivity | intros x Hx; exact Hx].
    + destruct (caught_spec d e r) as (C1 & C2 & C3).
      apply (Step _ _ [FindOne (email d)]); cbn [record log ops List.length];
        try reflexivity; try lia.
      * rewrite C1. lia.
      * exact C3.
      * intros x [].
      * exists []. rewrite app_nil_r. split; [exact C1 | intros x []].
Qed.

(** What [saveEmails] does with a list, whatever the store answers. *)
Lemma saveEmails_spec :
  forall (emailList : list EmailData) (st : State),
    let r := fst (saveEmails store emailList st) in
    let st' := snd (saveEmails store emailList st) in
    List.length (saved r) + List.length (duplicates r) + List.length (errors r)
    = List.length emailList
    /\ Permutation (map email (saved r) ++ duplicates r ++ map fst (errors r))
         (map email emailList)
    /\ exists added,
         log st' = log st ++ added
         /\ ops st' = ops st + List.length added
         /\ lookupsOf added = map email emailList
         /\ incl (saved r) (savesOf added)
         /\ incl (savesOf added) emailList.
Proof.
  intros emailList st. cbv zeta. unfold saveEmails.
  destruct (saveLoop_spec emailList {| saved := []; duplicates := []; errors := [] |} st)
    as (L & P & added & news & A1 & A2 & A3 & A4 & A5 & A6).
  cbn [saved duplicates errors List.length map app] in *.
  repeat split; try assumption.
  exists added. rewrite A4. repeat split; assumption.
Qed.

(** X15. [saveEmails] sorts every record of its input into exactly one of
    its three lists: the sizes of [saved], [duplicates] and [errors] add up
    to the size of the input, and their addresses together are the
    addresses of the input. Every record is looked up once, in the order of
    the input, whatever the store answers; only records of the input are
    handed to [save], and only records handed to [save] are reported as
    saved. *)
Theorem saveEmails_partitions_input :
  forall (emailList : list EmailData) (st : State),
    let r := fst (saveEmails store emailList st) in
    let st' := snd (saveEmails store emailList st) in
    List.length (saved r) + List.length (duplicates r) + List.length (errors r)
    = List.length emailList
    /\ Permutation (map email (saved r) ++ duplicates r ++ map fst (errors r))
         (map email emailList)
    /\ exists added,
         log st' = log st ++ added
         /\ ops st' = ops st + List.length added
         /\ lookupsOf added = map email emailList
         /\ incl (saved r) (savesOf added)
         /\ incl (savesOf added) emailList.
Proof. exact saveEmails_spec. Qed.



End PersistFacts.

(** ** The bulk dispatcher: its mails and its progress events *)

Section DispatchTrace.
Import JS Sender.
Local Open Scope nat_scope.
Local Open Scope list_scope.

Variable env : Env.
Variables subj htmlTemplate : string.
Variable textTemplate : option string.
Variable opts : Options.

Lemma mailsOf_app (a b : list Event) : mailsOf (a ++ b) = mailsOf a ++ mailsOf b.
Proof. apply flat_map_app. Qed.

Lemma deliveries_app (a b : list EmailItem) :
  deliveries htmlTemplate (a ++ b)
  = deliveries htmlTemplate a ++ deliveries htmlTemplate b.
Proof. apply flat_map_app. Qed.

(** One element: a mail for an element with an address, nothing
    otherwise. *)
Lemma sendItem_trace (len n : nat) (item : EmailItem) :
  let r := fst (fst (sendItem env subj htmlTemplate textTemplate opts n item)) in
  let n' := snd (fst (sendItem env subj htmlTemplate textTemplate opts n item)) in
  let ev := snd (sendItem env subj htmlTemplate textTemplate opts n item) in
  n' = n + List.length (deliveries htmlTemplate [item])
  /\ map fst (mailsOf ev) = seq n (List.length (deliveries htmlTemplate [item]))
  /\ map (fun m => (to (snd m), html (snd m))) (mailsOf ev)
     = deliveries htmlTemplate [item]
  /\ Forall (fun m => from (snd m) = sender env /\ subject (snd m) = subj) (mailsOf ev)
  /\ Forall (progressOk len) ev
  /\ (success r = true -> deliveries htmlTemplate [item] <> []).
Proof.
  cbv zeta. unfold sendItem, deliveries. cbn [flat_map].
  destruct (emailAddressOf item) as [[|c a]|o]; cbn [fst snd app List.length seq map
                                                       mailsOf flat_map success
                                                       invalidAddress].
  - repeat split; try constructor; try lia; discriminate.
  - unfold sendEmail. cbn [fst snd mailsOf flat_map app map to html from subject
                             List.length seq].
    repeat split; try lia; try discriminate.
    + constructor; [split; reflexivity | constructor].
    + constructor; [exact I | constructor].
  - repeat split; try constructor; try lia; discriminate.
Qed.

Lemma sendBatch_trace (len : nat) (l : list EmailItem) :
  forall n : nat,
    let rs := fst (fst (sendBatch env subj htmlTemplate textTemplate opts n l)) in
    let n' := snd (fst (sendBatch env subj htmlTemplate textTemplate opts n l)) in
    let ev := snd (sendBatch env subj htmlTemplate textTemplate opts n l) in
    n' = n + List.length (deliveries htmlTemplate l)
    /\ map fst (mailsOf ev) = seq n (List.length (deliveries htmlTemplate l))
    /\ map (fun m => (to (snd m), html (snd m))) (mailsOf ev)
       = deliveries htmlTemplate l
    /\ Forall (fun m => from (snd m) = sender env /\ subject (snd m) = subj)
         (mailsOf ev)
    /\ Forall (progressOk len) ev
    /\ List.length (filter success rs) <= List.length (deliveries htmlTemplate l)
    /\ List.length rs = List.length l.
Proof.
  induction l as [|x l IH]; intros n; cbv zeta; cbn [sendBatch].
  - cbn. repeat split; try constructor; lia.
  - destruct (sendItem_trace len n x) as (I1 & I2 & I3 & I4 & I5 & I6).
    destruct (sendItem env subj htmlTemplate textTemplate opts n x) as [[r n1] e1].
    destruct (IH n1) as (B1 & B2 & B3 & B4 & B5 & B6 & B7).
    destruct (sendBatch env subj htmlTemplate textTemplate opts n1 l) as [[rs n2] e2].
    cbn [fst snd] in *.
    change (x :: l) with ([x] ++ l). rewrite deliveries_app, length_app, mailsOf_app,
      !map_app, seq_app, I2, I3, B2, B3.
    repeat split.
    + lia.
    + now rewrite <- I1.
    + apply Forall_app. split; assumption.
    + apply Forall_app. split; assumption.
    + cbn [app filter]. destruct (success r) eqn:Er; cbn [List.length].
      * specialize (I6 eq_refl). destruct (deliveries htmlTemplate [x]);
          [congruence | cbn [List.length]; lia].
      * lia.
    + cbn [app List.length]. lia.
Qed.

Variable emails : list EmailItem.

Let size := natOr (batchSize opts) 5.
Let len := List.length emails.

(** The loop started at index [i] with enough fuel: the mails it hands to
    the transport and the progress events it emits. *)
Lemma batchLoop_trace (fuel : nat) :
  forall (i : nat) (st : State),
    len - i <= fuel ->
    List.length (sent st) + List.length (failed st) = Nat.min i len ->
    Forall (progressOk len) (trace st) ->
    exists st',
      batchLoop env emails subj htmlTemplate textTemplate opts fuel i st = Some st'
      /\ mails st' = mails st + List.length (deliveries htmlTemplate (skipn i emails))
      /\ map fst (mailsOf (trace st'))
         = map fst (mailsOf (trace st))
             ++ seq (mails st) (List.length (deliveries htmlTemplate (skipn i emails)))
      /\ map (fun m => (to (snd m), html (snd m))) (mailsOf (trace st'))
         = map (fun m => (to (snd m), html (snd m))) (mailsOf (trace st))
             ++ deliveries htmlTemplate (skipn i emails)
      /\ (Forall (fun m => from (snd m) = sender env /\ subject (snd m) = subj)
            (mailsOf (trace st)) ->
          Forall (fun m => from (snd m) = sender env /\ subject (snd m) = subj)
            (mailsOf (trace st')))
      /\ Forall (progressOk len) (trace st')
      /\ List.length (sent st') + List.length (failed st') = len
      /\ List.length (sent st')
         <= List.length (sent st)
            + List.length (deliveries htmlTemplate (skipn i emails)).
Proof.
  assert (Hsize : 0 < size) by (apply natOr_pos; lia).
  induction fuel as [|fuel IH]; intros i st Hfuel Hcount Hprog.
  - assert (Hi : len <= i) by lia.
    exists st. cbn [batchLoop]. fold len.
    assert (E : (i <? len) = false) by (apply Nat.ltb_ge; exact Hi).
    rewrite E, (skipn_all2 emails) by exact Hi.
    cbn. rewrite !app_nil_r. repeat split; auto; lia.
  - cbn [batchLoop]. fold len size.
    destruct (i <? len) eqn:E.
    2:{ apply Nat.ltb_ge in E. exists st.
        rewrite (skipn_all2 emails) by exact E.
        cbn. rewrite !app_nil_r. repeat split; auto; lia. }
    apply Nat.ltb_lt in E.
    set (rest := skipn i emails).
    assert (Hbatch : slice i (i + size) emails = firstn size rest).
    { unfold slice. replace (i + size - i) with size by lia. reflexivity. }
    rewrite Hbatch. cbn [mails emit].
    destruct (sendBatch_trace len (firstn size rest) (mails st))
      as (B1 & B2 & B3 & B4 & B5 & B6 & B7).
    destruct (sendBatch env subj htmlTemplate textTemplate opts (mails st)
                (firstn size rest)) as [[rs n] ev].
    cbn [fst snd] in B1, B2, B3, B4, B5, B6, B7.
    match goal with
    | |- context [batchLoop _ _ _ _ _ _ fuel (i + size) ?s] => set (st5 := s)
    end.
    match goal with
    | _ := context [collect rs ?s] |- _ =>
        destruct (collect_spec rs s) as (C1 & C2 & C3 & C4)
    end.
    cbn [emit setMails sent failed mails trace] in C1, C2, C3, C4.
    assert (Hrs : List.length rs = Nat.min size (len - i)).
    { rewrite B7, length_firstn. unfold rest. rewrite length_skipn. reflexivity. }
    pose proof (filter_split_length success rs) as Hsplit.
    assert (Hst5 : sent st5 = sent st ++ filter success rs
                   /\ failed st5 = failed st ++ filter (fun r => negb (success r)) rs
                   /\ mails st5 = n
                   /\ mailsOf (trace st5) = mailsOf (trace st) ++ mailsOf ev
                   /\ Forall (progressOk len) (trace st5)).
    { assert (Hlen5 : List.length (sent st ++ filter success rs)
                      + List.length (failed st ++ filter (fun r => negb (success r)) rs)
                      <= len)
        by (rewrite !length_app; lia).
      subst st5.
      destruct (i + size <? len); cbn [emit sent failed mails trace setMails];
        rewrite ?C1, ?C2, ?C3, ?C4; cbn [emit sent failed mails trace setMails];
        rewrite !mailsOf_app; cbn [mailsOf flat_map app];
        rewrite ?app_nil_r; repeat split; try reflexivity;
        repeat (apply Forall_app; split); try assumption;
        repeat constructor; try exact I; lia. }
    destruct Hst5 as (S1 & S2 & S3 & S4 & S5).
    destruct (IH (i + size) st5 ltac:(lia)) as (st' & Hloop & L1 & L2 & L3 & L4 & L5 & L6 & L7).
    { rewrite S1, S2, !length_app. lia. }
    { exact S5. }
    exists st'. split; [exact Hloop|].
    assert (Hskip : skipn (i + size) emails = skipn size rest).
    { unfold rest. rewrite skipn_skipn. f_equal. lia. }
    rewrite Hskip in L1, L2, L3, L7.
    assert (Hdel : deliveries htmlTemplate rest
                   = deliveries htmlTemplate (firstn size rest)
                       ++ deliveries htmlTemplate (skipn size rest))
      by (rewrite <- deliveries_app, firstn_skipn; reflexivity).
    rewrite Hdel, length_app, seq_app.
    rewrite S3 in L1, L2. rewrite S4 in L2, L3, L4. rewrite !map_app in L2, L3.
    rewrite B2 in L2. rewrite B3 in L3. rewrite S1 in L7. rewrite length_app in L7.
    repeat split.
    + lia.
    + rewrite L2, <- app_assoc, <- B1. reflexivity.
    + rewrite L3, <- app_assoc. reflexivity.
    + intros H. apply L4. apply Forall_app. split; assumption.
    + exact L5.
    + exact L6.
    + lia.
Qed.

(** The mails of a dispatch, and what it does when the verification
    fails. *)
Lemma sendBulkEmails_mails_spec :
  match sendBulkEmails env emails subj htmlTemplate textTemplate opts with
  | Returned r tr =>
      verifyError env = None
      /\ map (fun m => (to (snd m), html (snd m))) (mailsOf tr)
         = deliveries htmlTemplate emails
      /\ map fst (mailsOf tr)
         = seq 0 (List.length (deliveries htmlTemplate emails))
      /\ Forall (fun m => from (snd m) = sender env /\ subject (snd m) = subj)
           (mailsOf tr)
      /\ List.length (summarySent r)
         <= List.length (deliveries htmlTemplate emails)
  | Thrown e tr =>
      mailsOf tr = []
      /\ exists msg,
           verifyError env = Some msg
           /\ message e = ("Failed to verify SMTP connection: " ++ msg)%string
  | Diverged => False
  end.
Proof.
  unfold sendBulkEmails.
  destruct (verifyError env) as [msg|] eqn:Hv.
  - split; [reflexivity|]. exists msg. split; reflexivity.
  - match goal with
    | |- context [batchLoop _ _ _ _ _ _ _ 0 ?s] => set (st1 := s)
    end.
    destruct (batchLoop_trace (List.length emails) 0 st1 ltac:(lia))
      as (st2 & Hloop & L1 & L2 & L3 & L4 & L5 & L6 & L7).
    { reflexivity. }
    { subst st1. cbn [emit trace app]. repeat constructor; lia. }
    rewrite Hloop. cbn [skipn] in *.
    subst st1. cbn [sent failed mails trace emit app mailsOf flat_map map
                      List.length] in *.
    cbn [summarySent emit sent trace]. rewrite !mailsOf_app.
    cbn [mailsOf flat_map app]. rewrite !app_nil_r.
    repeat split; try assumption. apply L4. constructor.
Qed.


(** X18. The progress events of a dispatch. Every progress event reports
    the length of the list as its total and never more handled elements
    (sent plus failed) than that; a dispatch that returns ends with the
    event [Completed], in which sent plus failed is the total, followed by
    the closing of the transport. *)
Theorem sendBulkEmails_progress :
  match sendBulkEmails env emails subj htmlTemplate textTemplate opts with
  | Returned r tr =>
      Forall (progressOk (List.length emails)) tr
      /\ List.length (summarySent r) + List.length (summaryFailed r)
         = List.length emails
      /\ exists before,
           tr = before ++ [Progress Completed (List.length (summarySent r))
                             (List.length (summaryFailed r)) (List.length emails);
                           Close]
  | Thrown e tr => Forall (progressOk (List.length emails)) tr
  | Diverged => False
  end.
Proof.
  unfold sendBulkEmails.
  destruct (verifyError env) as [msg|] eqn:Hv.
  - cbn [emit trace app]. repeat constructor; lia.
  - match goal with
    | |- context [batchLoop _ _ _ _ _ _ _ 0 ?s] => set (st1 := s)
    end.
    destruct (batchLoop_trace (List.length emails) 0 st1 ltac:(lia))
      as (st2 & Hloop & _ & _ & _ & _ & L5 & L6 & _).
    { reflexivity. }
    { subst st1. cbn [emit trace app]. repeat constructor; lia. }
    rewrite Hloop. fold len in L5, L6 |- *.
    cbn [summarySent summaryFailed emit sent failed trace].
    repeat split.
    + apply Forall_app. split; [exact L5|]. repeat constructor; lia.
    + exact L6.
    + eexists. reflexivity.
Qed.

End DispatchTrace.

(** ** From the route to the dispatcher *)

Section RouteFacts.
Import JS Filter Sender Route.
Local Open Scope nat_scope.
Local Open Scope list_scope.

(** X19. [detectSender] always answers with one of the two values that the
    schemas allow for a sender, whatever the host (also a missing one,
    which counts as gmail). The case of the letters of the host does not
    matter, and a host that names outlook, office365 or hotmail is outlook
    even when it names gmail or google as well. *)
Theorem detectSender_in_enum :
  (forall host : option string, In (detectSender host) senderEnum)
  /\ detectSender None = "gmail"
  /\ (forall host : string,
         detectSender (Some (toLowerCase host)) = detectSender (Some host))
  /\ (forall host word : string,
         In word ["outlook"; "office365"; "hotmail"]%string ->
         includes (toLowerCase host) word = true ->
         detectSender (Some host) = "outlook").
Proof.
  split; [|split; [reflexivity|split]].
  - intros host. unfold detectSender, senderEnum. cbv zeta.
    destruct (_ || _ || _); [left; reflexivity|].
    destruct (_ || _); right; left; reflexivity.
  - intros host. unfold detectSender. cbv zeta.
    destruct host as [|c h].
    + reflexivity.
    + change (orElse (Some (toLowerCase (String c h))) "")
        with (toLowerCase (String c h)).
      change (orElse (Some (String c h)) "") with (String c h).
      now rewrite toLowerCase_idempotent.
  - intros host word Hin Hinc. unfold detectSender. cbv zeta.
    assert (E : orElse (Some host) "" = host) by (destruct host; reflexivity).
    rewrite E.
    destruct Hin as [<-|[<-|[<-|[]]]]; rewrite Hinc; rewrite ?orb_true_r; reflexivity.
Qed.

Lemma detectSender_in_enum_witness :
  detectSender (Some "SMTP.Office365.com") = "outlook".
Proof.
  destruct detectSender_in_enum as (_ & _ & _ & H).
  apply (H "SMTP.Office365.com" "office365"); [right; left; reflexivity | reflexivity].
Defined.

Lemma validItem_delivery (htmlTemplate : string) (e : EmailItem) :
  validItem e = true ->
  deliveries htmlTemplate [e]
  = [(addressOf e, renderTemplate htmlTemplate (variablesOf (addressOf e) e))]
  /\ filterInvalidEmails (Some (addressOf e)) = true.
Proof.
  unfold validItem, deliveries, addressOf. cbn [flat_map].
  destruct (emailAddressOf e) as [[|c a]|o]; cbn [truthy andb]; try discriminate.
  intros H. rewrite app_nil_r. split; [reflexivity | exact H].
Qed.

Lemma validItems_deliveries (htmlTemplate : string) (emails : list EmailItem) :
  map fst (deliveries htmlTemplate (validItems emails))
  = map addressOf (validItems emails)
  /\ Forall (fun e => filterInvalidEmails (Some (addressOf e)) = true)
       (validItems emails).
Proof.
  unfold validItems.
  induction emails as [|e emails [IH1 IH2]]; cbn [filter]; [split; [reflexivity|constructor]|].
  destruct (validItem e) eqn:E; [|split; assumption].
  destruct (validItem_delivery htmlTemplate e E) as [Hd Hf].
  change (e :: filter validItem emails) with ([e] ++ filter validItem emails).
  rewrite deliveries_app, !map_app, Hd, IH1. split; [reflexivity|].
  apply Forall_app. split; [constructor; [exact Hf | constructor] | exact IH2].
Qed.

Lemma validItem_customEntry (a : string) :
  truthy (Some a) && filterInvalidEmails (Some a) = true ->
  validItem (customEntry a) = true.
Proof.
  unfold validItem, customEntry. cbn [emailAddressOf contactEmail].
  destruct a as [|c a]; [discriminate|]. auto.
Qed.

(** X20. The list that the bulk route hands to the dispatcher. Every
    element that passes the last filter of the route has an address that
    [filterInvalidEmails] accepts, so the dispatcher hands one mail to the
    transport for each element of the list, in order, and skips none as an
    invalid address. For a list made of custom addresses that filter removes
    nothing, and every such recipient is rendered with the name
    Contributor and the repository custom. *)
Theorem bulk_route_list_is_dispatched :
  (forall (env : Env) (emails : list EmailItem) (subj htmlTemplate : string)
          (textTemplate : option string) (size wait : option nat),
      match sendBulkEmails env (validItems emails) subj htmlTemplate textTemplate
              (bulkOptions size wait) with
      | Returned r tr =>
          map (fun m => to (snd m)) (mailsOf tr) = map addressOf (validItems emails)
          /\ List.length (mailsOf tr) = total r
          /\ Forall (fun m => filterInvalidEmails (Some (to (snd m))) = true)
               (mailsOf tr)
      | Thrown _ tr => mailsOf tr = []
      | Diverged => False
      end)
  /\ (forall customEmails : list EmailItem,
         validItems (customList customEmails) = customList customEmails)
  /\ (forall a : string,
         variablesOf a (customEntry a)
         = [("email", Some a); ("name", Some "Contributor");
            ("username", Some ""); ("repository", Some "custom")]%string).
Proof.
  split; [|split].
  - intros env emails subj htmlTemplate textTemplate size wait.
    pose proof (sendBulkEmails_mails_spec env subj htmlTemplate textTemplate
                  (bulkOptions size wait) (validItems emails)) as Hm.
    pose proof (sendBulkEmails_spec env (validItems emails) subj htmlTemplate
                  textTemplate (bulkOptions size wait)) as Hs.
    destruct (validItems_deliveries htmlTemplate emails) as [Hd Hf].
    destruct (sendBulkEmails env (validItems emails) subj htmlTemplate textTemplate
                (bulkOptions size wait)) as [r tr|e tr|]; [|exact (proj1 Hm)|exact Hm].
    destruct Hm as (Hv & M1 & _).
    destruct (Hs Hv) as (r' & tr' & Heq & Ht & _). injection Heq as <- <-.
    assert (Hto : map (fun m => to (snd m)) (mailsOf tr)
                  = map addressOf (validItems emails)).
    { rewrite <- Hd, <- M1, map_map. reflexivity. }
    split; [exact Hto|]. split.
    + rewrite Ht, <- (length_map (fun m => to (snd m))), Hto, length_map. reflexivity.
    + apply Forall_forall. intros m Hin.
      assert (Hin' : In (to (snd m)) (map addressOf (validItems emails)))
        by (rewrite <- Hto; apply in_map_iff; eauto).
      apply in_map_iff in Hin' as (e & <- & He).
      rewrite Forall_forall in Hf. exact (Hf e He).
  - intros customEmails. unfold validItems, customList.
    set (l := filter _ (map customAddress customEmails)).
    assert (Hl : Forall (fun a => truthy (Some a) && filterInvalidEmails (Some a) = true) l).
    { apply Forall_forall. intros a Ha. apply filter_In in Ha as [_ Ha]. exact Ha. }
    clearbody l. induction Hl as [|a l Ha _ IH]; cbn [map filter]; [reflexivity|].
    rewrite (validItem_customEntry a Ha), IH. reflexivity.
  - intros a. reflexivity.
Qed.

End RouteFacts.

(** ** Templates without placeholders *)

Section RenderPlain.
Import JS Sender.
Local Open Scope list_scope.

(** A text without two opening braces in a row has no match of any
    placeholder, so the scan copies it. *)
Lemma replaceLoop_without_braces (key v : string) :
  forall (fuel : nat) (before s : string),
    includes s "{{" = false ->
    replaceLoop fuel (placeholder key) v before s = s.
Proof.
  induction fuel as [|fuel IH]; intros before s H; cbn [replaceLoop]; [reflexivity|].
  assert (Hno : stripPrefix (placeholder key) s = None).
  { unfold placeholder. cbn [append stripPrefix].
    destruct s as [|c s]; [reflexivity|].
    cbn [includes isPrefix] in H.
    destruct (Ascii.eqb "{" c); [|reflexivity].
    destruct s as [|d s]; [reflexivity|].
    cbn [andb isPrefix] in H.
    destruct (Ascii.eqb "{" d); [discriminate | reflexivity]. }
  rewrite Hno. destruct s as [|c s]; [reflexivity|].
  f_equal. apply IH.
  cbn [includes] in H. destruct (isPrefix "{{" (String c s)); [discriminate | exact H].
Qed.

Lemma renderTemplate_without_braces (template : string) (variables : Variables) :
  includes template "{{" = false -> renderTemplate template variables = template.
Proof.
  intros H. unfold renderTemplate.
  induction variables as [|kv variables IH]; cbn [fold_left]; [reflexivity|].
  unfold replaceAll at 2. rewrite (replaceLoop_without_braces _ _ _ _ _ H). exact IH.
Qed.

(** X21. A template in which no two opening braces follow each other
    reaches every recipient as it is: the dispatcher renders it to itself
    whatever the address and the fields of the recipient are, dollar signs
    and braces in them included. *)
Theorem renderTemplate_without_placeholders :
  forall (template addr : string) (item : EmailItem),
    includes template "{{" = false ->
    renderTemplate template (variablesOf addr item) = template.
Proof.
  intros template addr item H. apply renderTemplate_without_braces. exact H.
Qed.

Lemma renderTemplate_without_placeholders_witness :
  renderTemplate "Hello {you}, 100% {free}}"
    (variablesOf "jane@site.org"
       (Entry {| contactEmail := Some "jane@site.org"; contactName := Some "$& {{email}}";
                 contactUsername := None; contactRepository := None |}))
  = "Hello {you}, 100% {free}}".
Proof.
  apply renderTemplate_without_placeholders. reflexivity.
Defined.

End RenderPlain.

(** ** The order of the pages *)

Section PageOrder.
Import JS Filter Collector.
Local Open Scope nat_scope.
Local Open Scope list_scope.

Variable api : Api.
Variables owner repo : string.

Lemma last_cons_default (q : nat) (pages : list nat) (d : nat) :
  last (q :: pages) d = last pages q.
Proof.
  revert q d. induction pages as [|r pages IH]; intros q d; [reflexivity|].
  change (last (q :: r :: pages) d) with (last (r :: pages) d).
  rewrite (IH r d), (IH r q). reflexivity.
Qed.

Lemma stepwise_snoc (pages : list nat) :
  forall (prev p : nat),
    stepwise prev pages ->
    p = last pages prev \/ p = S (last pages prev) ->
    stepwise prev (pages ++ [p]).
Proof.
  induction pages as [|q pages IH]; intros prev p Hs Hp; cbn [app stepwise].
  - cbn [last] in Hp. split; [exact Hp | exact I].
  - destruct Hs as [Hq Hs]. split; [exact Hq|].
    apply IH; [exact Hs|]. rewrite last_cons_default in Hp. exact Hp.
Qed.

(** One more page asked, the same as the last one or the next. *)
Lemma inOrder_snoc (pages : list nat) (p : nat) :
  inOrder pages ->
  p = last pages 1 \/ p = S (last pages 1) ->
  (pages = [] -> p = 1) ->
  inOrder (pages ++ [p]).
Proof.
  destruct pages as [|q pages]; cbn [app inOrder].
  - intros _ _ H. split; [exact (H eq_refl) | exact I].
  - intros [-> Hs] Hp _. split; [reflexivity|].
    apply stepwise_snoc; [exact Hs|]. rewrite last_cons_default in Hp. exact Hp.
Qed.

Lemma last_snoc (pages : list nat) (p d : nat) : last (pages ++ [p]) d = p.
Proof. apply last_last. Qed.

Lemma processContributor_pages (name : string) (c : Contributor) (w : World) :
  contributorPagesOf (trace (snd (processContributor api name c w)))
  = contributorPagesOf (trace w).
Proof.
  unfold processContributor.
  destruct (login c) as [[|a l]|];
    [destruct (contributorEmail c) as [[|? ?]|]
    |destruct (getUser api (userCalls w) (String a l)) as [u|e];
       [destruct (extractEmailFromUser u)|]
    |destruct (contributorEmail c) as [[|? ?]|]];
    repeat match goal with
           | |- context [if ?b then _ else _] => destruct b
           end; cbn [snd countUserCall emit trace]; try reflexivity;
    now rewrite contributorPagesOf_app, app_nil_r.
Qed.

Lemma processBatch_pages (name : string) (batch : list Contributor) :
  forall w : World,
    contributorPagesOf (trace (snd (processBatch api name batch w)))
    = contributorPagesOf (trace w).
Proof.
  induction batch as [|c batch IH]; intros w; cbn [processBatch]; [reflexivity|].
  pose proof (processContributor_pages name c w) as H1.
  destruct (processContributor api name c w) as [r w1].
  pose proof (IH w1) as H2.
  destruct (processBatch api name batch w1) as [rs w2].
  cbn [snd] in *. congruence.
Qed.

Lemma processPage_pages (name : string) (cs : list Contributor)
    (pg fetched fuel : nat) :
  forall (i : nat) (acc : list EmailData) (w : World),
    contributorPagesOf (trace (snd (processPage api name cs pg fetched fuel i acc w)))
    = contributorPagesOf (trace w).
Proof.
  induction fuel as [|fuel IH]; intros i acc w; cbn [processPage].
  - destruct (i <? List.length cs); reflexivity.
  - destruct (i <? List.length cs); [|reflexivity].
    pose proof (processBatch_pages name (slice i (i + 5) cs) w) as H1.
    destruct (processBatch api name (slice i (i + 5) cs) w) as [rs w1].
    cbn [snd] in H1. rewrite IH. cbn [emit trace].
    now rewrite contributorPagesOf_app, app_nil_r.
Qed.

(** One iteration asks for the current page and nothing else, and leaves
    the page number as it is or adds one. *)
Lemma contributorsStep_pages (st : ContributorsState) :
  match contributorsStep api owner repo st with
  | Continue st' | Break st' | Throws _ st' =>
      contributorPagesOf (trace (world st'))
      = contributorPagesOf (trace (world st)) ++ [page st]
      /\ (page st' = page st \/ page st' = S (page st))
  end.
Proof.
  assert (H0 : contributorPagesOf
                 (trace (countContributorCall
                           (emit [CallContributors (page st) 100] (world st))))
               = contributorPagesOf (trace (world st)) ++ [page st]).
  { cbn [countContributorCall emit trace]. now rewrite contributorPagesOf_app. }
  unfold contributorsStep.
  destruct (getContributorsWithPagination api _ owner repo _ _) as [pg|e].
  - destruct (maxPages <=? page st); [split; [exact H0 | left; reflexivity]|].
    set (cs := match contributors pg with Some l => l | None => [] end).
    assert (Hpage : forall stop : bool,
               (if stop then page st
                else if hasNextPage pg then S (page st)
                else if List.length cs =? 0 then S (page st)
                else if List.length cs <? 100 then S (page st)
                else S (page st)) = page st
               \/ (if stop then page st
                   else if hasNextPage pg then S (page st)
                   else if List.length cs =? 0 then S (page st)
                   else if List.length cs <? 100 then S (page st)
                   else S (page st)) = S (page st)).
    { intros [|]; [left; reflexivity|]. right.
      destruct (hasNextPage pg); [reflexivity|].
      destruct (List.length cs =? 0); [reflexivity|].
      destruct (List.length cs <? 100); reflexivity. }
    destruct (0 <? List.length cs).
    + match goal with
      | |- context [processPage ?a ?n ?c ?p ?f ?fu ?i ?acc ?w] =>
          pose proof (processPage_pages n c p f fu i acc w) as Hp;
          destruct (processPage a n c p f fu i acc w) as [emails1 w2]
      end.
      cbn [snd world page emit trace] in *.
      split; [|apply Hpage].
      rewrite contributorPagesOf_app, Hp, contributorPagesOf_app.
      cbn [contributorPagesOf flat_map]. rewrite !app_nil_r.
      rewrite <- H0. reflexivity.
    + cbn [world page emit trace].
      split; [|apply Hpage].
      rewrite !contributorPagesOf_app. cbn [contributorPagesOf flat_map].
      rewrite !app_nil_r. rewrite <- H0. reflexivity.
  - destruct (includes (message e) "rate limit");
      [split; [exact H0 | left; reflexivity]|].
    destruct (maxConsecutiveErrors <=? S (consecutiveErrors st));
      [split; [exact H0 | left; reflexivity]|].
    cbn [world page]. split; [|left; reflexivity].
    cbn [emit trace]. rewrite contributorPagesOf_app.
    cbn [contributorPagesOf flat_map]. rewrite app_nil_r. exact H0.
Qed.

Lemma contributorsLoop_pages (base : list nat) (fuel : nat) :
  forall (st : ContributorsState) (pages : list nat),
    contributorPagesOf (trace (world st)) = base ++ pages ->
    inOrder pages ->
    Forall (fun p => p <= maxPages) pages ->
    page st = last pages 1 \/ page st = S (last pages 1) ->
    (pages = [] -> page st = 1) ->
    match contributorsLoop api owner repo fuel st with
    | Finished st' | Threw _ st' =>
        exists pages',
          contributorPagesOf (trace (world st')) = base ++ pages'
          /\ inOrder pages'
          /\ Forall (fun p => p <= maxPages) pages'
          /\ (pages <> [] \/ (hasMore st = true /\ page st <= maxPages) ->
              pages' <> [])
    | OutOfFuel => True
    end.
Proof.
  induction fuel as [|fuel IH]; intros st pages Htr Hord Hmax Hlast Hfirst;
    cbn [contributorsLoop].
  - destruct (hasMore st && (page st <=? maxPages)) eqn:G; [exact I|].
    exists pages. repeat split; try assumption.
    intros [H|[H1 H2]]; [exact H|].
    rewrite H1 in G. cbn [andb] in G. apply Nat.leb_gt in G. lia.
  - destruct (hasMore st && (page st <=? maxPages)) eqn:G.
    2:{ exists pages. repeat split; try assumption.
        intros [H|[H1 H2]]; [exact H|].
        rewrite H1 in G. cbn [andb] in G. apply Nat.leb_gt in G. lia. }
    apply andb_prop in G as [_ G]. apply Nat.leb_le in G.
    pose proof (contributorsStep_pages st) as Hstep.
    assert (Hnew : inOrder (pages ++ [page st])
                   /\ Forall (fun p => p <= maxPages) (pages ++ [page st])).
    { split; [apply inOrder_snoc; assumption|].
      apply Forall_app. split; [exact Hmax | constructor; [exact G | constructor]]. }
    destruct Hnew as [Hord' Hmax'].
    destruct (contributorsStep api owner repo st) as [st'|st'|e st'];
      destruct Hstep as [Ht Hp].
    + specialize (IH st' (pages ++ [page st])).
      rewrite Ht, Htr, <- app_assoc in IH.
      specialize (IH eq_refl Hord' Hmax').
      rewrite last_snoc in IH. specialize (IH Hp).
      assert (Hne : pages ++ [page st] = [] -> page st' = 1)
        by (intros H; destruct pages; discriminate).
      specialize (IH Hne).
      destruct (contributorsLoop api owner repo fuel st') as [st''|e st''|];
        [| |exact I];
        destruct IH as (pages' & I1 & I2 & I3 & I4);
        exists pages'; repeat split; try assumption;
        intros _; apply I4; left; destruct pages; discriminate.
    + exists (pages ++ [page st]). rewrite Ht, Htr, <- app_assoc.
      repeat split; try assumption. intros _. destruct pages; discriminate.
    + exists (pages ++ [page st]). rewrite Ht, Htr, <- app_assoc.
      repeat split; try assumption. intros _. destruct pages; discriminate.
Qed.

(** One iteration of the commits pass asks for the current page and
    nothing else, and leaves the page number as it is or adds one. *)
Lemma commitsStep_pages (limit : nat) (st : CommitsState) :
  match commitsStep api owner repo limit st with
  | Continue st' | Break st' | Throws _ st' =>
      commitPagesOf (trace (commitWorld st'))
      = commitPagesOf (trace (commitWorld st)) ++ [commitPage st]
      /\ (commitPage st' = commitPage st \/ commitPage st' = S (commitPage st))
  end.
Proof.
  assert (H0 : commitPagesOf
                 (trace (countCommitCall
                           (emit [CallCommits (commitPage st)] (commitWorld st))))
               = commitPagesOf (trace (commitWorld st)) ++ [commitPage st]).
  { cbn [countCommitCall emit trace]. now rewrite commitPagesOf_app. }
  unfold commitsStep.
  destruct (getCommits api _ owner repo _) as [[[|c cs]|]|e];
    try (split; [exact H0 | left; reflexivity]).
  - destruct (processCommits _ _ _ _ _) as [emails1 total1].
    cbn [commitWorld commitPage emit trace]. split.
    + rewrite !commitPagesOf_app. cbn [commitPagesOf flat_map].
      rewrite !app_nil_r. rewrite <- H0. reflexivity.
    + destruct (List.length (c :: cs) <? 100); [left | right]; reflexivity.
  - destruct (includes _ "rate limit"); [split; [exact H0 | left; reflexivity]|].
    destruct (maxConsecutiveErrors <=? S (commitErrors st));
      [split; [exact H0 | left; reflexivity]|].
    destruct (isTransientError e _); cbn [commitWorld commitPage emit trace];
      (split; [rewrite commitPagesOf_app; cbn [commitPagesOf flat_map];
               rewrite app_nil_r; exact H0|]);
      [left | right]; reflexivity.
Qed.

Lemma commitsLoop_pages (limit : nat) (base : list nat) (fuel : nat) :
  forall (st : CommitsState) (pages : list nat),
    commitPagesOf (trace (commitWorld st)) = base ++ pages ->
    inOrder pages ->
    commitPage st = last pages 1 \/ commitPage st = S (last pages 1) ->
    (pages = [] -> commitPage st = 1) ->
    match commitsLoop api owner repo limit fuel st with
    | Finished st' | Threw _ st' =>
        exists pages',
          commitPagesOf (trace (commitWorld st')) = base ++ pages'
          /\ inOrder pages'
          /\ (pages = [] -> commitHasMore st && (totalCommits st <? limit) = false ->
              pages' = [])
    | OutOfFuel => True
    end.
Proof.
  induction fuel as [|fuel IH]; intros st pages Htr Hord Hlast Hfirst;
    cbn [commitsLoop].
  - destruct (commitHasMore st && (totalCommits st <? limit)); [exact I|].
    exists pages. repeat split; auto.
  - destruct (commitHasMore st && (totalCommits st <? limit)).
    2:{ exists pages. repeat split; auto. }
    pose proof (commitsStep_pages limit st) as Hstep.
    assert (Hord' : inOrder (pages ++ [commitPage st]))
      by (apply inOrder_snoc; assumption).
    destruct (commitsStep api owner repo limit st) as [st'|st'|e st'];
      destruct Hstep as [Ht Hp].
    + specialize (IH st' (pages ++ [commitPage st])).
      rewrite Ht, Htr, <- app_assoc in IH.
      specialize (IH eq_refl Hord').
      rewrite last_snoc in IH. specialize (IH Hp).
      assert (Hne : pages ++ [commitPage st] = [] -> commitPage st' = 1)
        by (intros H; destruct pages; discriminate).
      specialize (IH Hne).
      destruct (commitsLoop api owner repo limit fuel st') as [st''|e st''|];
        [| |exact I];
        destruct IH as (pages' & I1 & I2 & _);
        exists pages'; repeat split; try assumption; discriminate.
    + exists (pages ++ [commitPage st]). rewrite Ht, Htr, <- app_assoc.
      repeat split; try assumption. discriminate.
    + exists (pages ++ [commitPage st]). rewrite Ht, Htr, <- app_assoc.
      repeat split; try assumption. discriminate.
Qed.

(** X22. Both passes ask for their pages in order. The contributors pass
    always asks for page 1 first; every further request, of either pass, is
    for the page asked before (a retry) or for the next one, so no page
    number is passed over, and the contributors pass never asks for a page
    beyond the ceiling of 1000. The commits pass asks for nothing when the
    limit is 0. *)
Theorem passes_ask_pages_in_order :
  (forall w : World,
      match collectFromContributors api owner repo w with
      | Finished st | Threw _ st =>
          exists rest,
            contributorPagesOf (trace (world st))
            = contributorPagesOf (trace w) ++ 1 :: rest
            /\ stepwise 1 rest
            /\ Forall (fun p => p <= maxPages) rest
      | OutOfFuel => False
      end)
  /\ (forall (limit : nat) (w : World),
         match collectFromCommits api owner repo limit w with
         | Finished st | Threw _ st =>
             exists pages,
               commitPagesOf (trace (commitWorld st))
               = commitPagesOf (trace w) ++ pages
               /\ inOrder pages
               /\ (limit = 0 -> pages = [])
         | OutOfFuel => False
         end).
Proof.
  split.
  - intros w.
    pose proof (collectFromContributors_spec api owner repo w) as Hend.
    pose proof (contributorsLoop_pages (contributorPagesOf (trace w))
                  (3 * maxPages + 1) (contributorsStart w) []) as Hp.
    unfold collectFromContributors in *.
    assert (H0 : contributorPagesOf (trace (world (contributorsStart w)))
                 = contributorPagesOf (trace w) ++ []).
    { cbn [contributorsStart world emit trace].
      rewrite contributorPagesOf_app. reflexivity. }
    specialize (Hp H0 I (Forall_nil _) (or_introl eq_refl) (fun _ => eq_refl)).
    destruct (contributorsLoop api owner repo (3 * maxPages + 1) (contributorsStart w))
      as [st|e st|]; [| |exact Hend];
      destruct Hp as (pages & P1 & P2 & P3 & P4);
      (destruct pages as [|p rest];
       [exfalso; apply P4; [right; split; [reflexivity | cbn; unfold maxPages; lia]
                           | reflexivity]|]);
      destruct P2 as [-> P2]; exists rest;
      (split; [exact P1|]); (split; [exact P2|]);
      inversion P3; assumption.
  - intros limit w.
    pose proof (collectFromCommits_ends api owner repo limit w) as Hend.
    pose proof (commitsLoop_pages limit (commitPagesOf (trace w))
                  (3 * limit + 1) (commitsStart w) []) as Hp.
    unfold collectFromCommits in *.
    assert (H0 : commitPagesOf (trace (commitWorld (commitsStart w)))
                 = commitPagesOf (trace w) ++ []).
    { cbn [commitsStart commitWorld emit trace].
      rewrite commitPagesOf_app. reflexivity. }
    specialize (Hp H0 I (or_introl eq_refl) (fun _ => eq_refl)).
    destruct (commitsLoop api owner repo limit (3 * limit + 1) (commitsStart w))
      as [st|e st|]; [| |exact (Hend eq_refl)];
      destruct Hp as (pages & P1 & P2 & P3);
      exists pages; (split; [exact P1|]); (split; [exact P2|]);
      intros ->; apply P3; reflexivity.
Qed.

End PageOrder.

(** ** How many calls a pass makes *)

Section CallBudget.
Import JS Filter Collector.
Local Open Scope nat_scope.
Local Open Scope list_scope.

Variable api : Api.
Variables owner repo : string.

(** One iteration of the contributors pass makes one call; when the pass
    goes on, what holds at the head of the loop holds again and the number
    of iterations that are left has gone down. *)
Lemma contributorsStep_measure (st : ContributorsState) :
  passInvariant st ->
  hasMore st = true ->
  match contributorsStep api owner repo st with
  | Continue st' =>
      passInvariant st'
      /\ passMeasure st' < passMeasure st
      /\ contributorCalls (world st') = S (contributorCalls (world st))
  | Break st' | Throws _ st' =>
      contributorCalls (world st') = S (contributorCalls (world st))
      /\ 1 <= passMeasure st
  end.
Proof.
  pose proof maxPages_pos as Hmax.
  intros (Hpage & Hrun & Hstop) Hm.
  destruct (Hrun Hm) as [Hep Her].
  assert (Hpos : 1 <= passMeasure st).
  { unfold passMeasure. rewrite Hm. unfold maxConsecutiveErrors in Her. lia. }
  destruct (getContributorsWithPagination api (contributorCalls (world st))
              owner repo (page st) 100) as [pg|e] eqn:Hget.
  - destruct (Nat.eq_dec (page st) maxPages) as [Hlast|Hnot].
    + unfold contributorsStep. rewrite Hget.
      assert (E2 : (maxPages <=? page st) = true) by (apply Nat.leb_le; lia).
      rewrite E2. cbn [world countContributorCall contributorCalls emit].
      split; [reflexivity | exact Hpos].
    + destruct (contributorsStep_got api owner repo st pg Hget ltac:(lia))
        as (st' & -> & Hep' & _ & Her' & Hm' & Hp' & Hc' & _).
      split; [|split; [|exact Hc']].
      * unfold passInvariant, stopReason.
        rewrite Hm', Hp', Her'. rewrite Hm.
        unfold maxConsecutiveEmptyPages, maxConsecutiveErrors in *.
        destruct (3 <=? consecutiveEmptyPages st') eqn:E3.
        -- apply Nat.leb_le in E3.
           assert (consecutiveEmptyPages st' = 3)
             by (destruct (contributorCountOf pg =? 0); lia).
           repeat split; try lia; try discriminate; try (intros _; left; assumption).
        -- apply Nat.leb_gt in E3.
           repeat split; try lia; discriminate.
      * unfold passMeasure in *. rewrite Hm', Hp', Her'. rewrite Hm in *.
        unfold maxConsecutiveErrors in *.
        destruct (maxConsecutiveEmptyPages <=? consecutiveEmptyPages st'); lia.
  - unfold contributorsStep. rewrite Hget.
    destruct (includes (message e) "rate limit");
      [cbn [world countContributorCall contributorCalls emit];
       split; [reflexivity | exact Hpos]|].
    unfold maxConsecutiveErrors in *.
    destruct (3 <=? S (consecutiveErrors st)) eqn:E3.
    + apply Nat.leb_le in E3. split; [|split].
      * unfold passInvariant, stopReason, maxConsecutiveErrors.
        cbn [page hasMore consecutiveErrors consecutiveEmptyPages].
        repeat split; try lia; try discriminate; try (intros _; right; right; lia).
      * unfold passMeasure in *. cbn [hasMore]. lia.
      * reflexivity.
    + apply Nat.leb_gt in E3. split; [|split].
      * unfold passInvariant, stopReason, maxConsecutiveErrors.
        cbn [page hasMore consecutiveErrors consecutiveEmptyPages].
        rewrite Hm. repeat split; try lia; discriminate.
      * unfold passMeasure in *.
        cbn [page hasMore consecutiveErrors]. rewrite Hm in *. lia.
      * reflexivity.
Qed.

Lemma contributorsLoop_calls (fuel : nat) :
  forall st : ContributorsState,
    passInvariant st ->
    match contributorsLoop api owner repo fuel st with
    | Finished st' | Threw _ st' =>
        contributorCalls (world st') <= contributorCalls (world st) + passMeasure st
    | OutOfFuel => True
    end.
Proof.
  induction fuel as [|fuel IH]; intros st Hinv; cbn [contributorsLoop].
  - destruct (hasMore st && (page st <=? maxPages)); [exact I | lia].
  - destruct (hasMore st && (page st <=? maxPages)) eqn:G; [|lia].
    apply andb_prop in G as [Hm _].
    pose proof (contributorsStep_measure st Hinv Hm) as Hstep.
    destruct (contributorsStep api owner repo st) as [st'|st'|e st'].
    + destruct Hstep as (Hinv' & Hdec & Hc).
      specialize (IH st' Hinv').
      destruct (contributorsLoop api owner repo fuel st'); [lia | lia | exact I].
    + lia.
    + lia.
Qed.

Lemma processContributor_lookup_bound (name : string) (c : Contributor) (w : World) :
  userCalls (snd (processContributor api name c w)) <= userCalls w + 1.
Proof.
  unfold processContributor.
  destruct (login c) as [[|a l]|];
    [destruct (contributorEmail c) as [[|? ?]|]
    |destruct (getUser api (userCalls w) (String a l)) as [u|e];
       [destruct (extractEmailFromUser u)|]
    |destruct (contributorEmail c) as [[|? ?]|]];
    repeat match goal with
           | |- context [if ?b then _ else _] => destruct b
           end; cbn [snd countUserCall emit userCalls]; lia.
Qed.

Lemma processBatch_lookup_bound (name : string) (batch : list Contributor) :
  forall w : World,
    userCalls (snd (processBatch api name batch w)) <= userCalls w + List.length batch.
Proof.
  induction batch as [|c batch IH]; intros w; cbn [processBatch]; [cbn; lia|].
  pose proof (processContributor_lookup_bound name c w) as H1.
  destruct (processContributor api name c w) as [r w1].
  pose proof (IH w1) as H2.
  destruct (processBatch api name batch w1) as [rs w2].
  cbn [snd List.length] in *. lia.
Qed.

Lemma processPage_lookup_bound (name : string) (cs : list Contributor)
    (pg fetched fuel : nat) :
  forall (i : nat) (acc : list EmailData) (w : World),
    userCalls (snd (processPage api name cs pg fetched fuel i acc w))
    <= userCalls w + (List.length cs - i).
Proof.
  induction fuel as [|fuel IH]; intros i acc w; cbn [processPage].
  - destruct (i <? List.length cs); cbn [snd]; lia.
  - destruct (i <? List.length cs) eqn:E; [|cbn [snd]; lia].
    apply Nat.ltb_lt in E.
    pose proof (processBatch_lookup_bound name (slice i (i + 5) cs) w) as H1.
    assert (Hs : List.length (slice i (i + 5) cs) <= 5
                 /\ List.length (slice i (i + 5) cs) <= List.length cs - i).
    { unfold slice. rewrite length_firstn, length_skipn. lia. }
    destruct (processBatch api name (slice i (i + 5) cs) w) as [rs w1].
    cbn [snd] in H1.
    match goal with
    | |- context [processPage _ _ _ _ _ fuel ?j ?a ?w'] =>
        pose proof (IH j a w') as H2
    end.
    cbn [emit userCalls] in H2.
    destruct Hs as [Hs1 Hs2].
    assert (Hsl : List.length (slice i (i + 5) cs) = Nat.min 5 (List.length cs - i)).
    { unfold slice. rewrite length_firstn, length_skipn. f_equal. lia. }
    lia.
Qed.

(** One iteration looks up at most as many users as it adds to the number of
    contributors fetched. *)
Lemma contributorsStep_lookups (base : nat) (st : ContributorsState) :
  userCalls (world st) <= base + totalContributorsFetched st ->
  match contributorsStep api owner repo st with
  | Continue st' | Break st' | Throws _ st' =>
      userCalls (world st') <= base + totalContributorsFetched st'
  end.
Proof.
  intros H. unfold contributorsStep.
  destruct (getContributorsWithPagination api _ owner repo _ _) as [pg|e].
  - destruct (maxPages <=? page st); [exact H|].
    set (cs := match contributors pg with Some l => l | None => [] end).
    destruct (0 <? List.length cs) eqn:E0.
    + apply Nat.ltb_lt in E0.
      assert (En : (List.length cs =? 0) = false) by (apply Nat.eqb_neq; lia).
      rewrite En.
      match goal with
      | |- context [processPage ?a ?n ?c ?p ?f ?fu ?i ?acc ?w] =>
          pose proof (processPage_lookup_bound n c p f fu i acc w) as Hp;
          destruct (processPage a n c p f fu i acc w) as [emails1 w2]
      end.
      cbn [snd world totalContributorsFetched emit userCalls countContributorCall] in *.
      lia.
    + cbn [world totalContributorsFetched emit userCalls countContributorCall].
      destruct (List.length cs =? 0); lia.
  - destruct (includes (message e) "rate limit"); [exact H|].
    destruct (maxConsecutiveErrors <=? S (consecutiveErrors st)); exact H.
Qed.

Lemma commitsLoop_calls (limit fuel : nat) :
  forall st : CommitsState,
    (commitHasMore st = true -> commitErrors st < maxConsecutiveErrors) ->
    match commitsLoop api owner repo limit fuel st with
    | Finished st' | Threw _ st' =>
        commitCalls (commitWorld st')
        <= commitCalls (commitWorld st) + commitsMeasure limit st
    | OutOfFuel => True
    end.
Proof.
  induction fuel as [|fuel IH]; intros st Herr; cbn [commitsLoop].
  - destruct (commitHasMore st && (totalCommits st <? limit)); [exact I | lia].
  - destruct (commitHasMore st && (totalCommits st <? limit)) eqn:G; [|lia].
    apply andb_prop in G as [Hm Ht]. apply Nat.ltb_lt in Ht.
    pose proof (commitsStep_spec api owner repo limit st Hm Ht (Herr Hm)) as Hstep.
    cbv zeta in Hstep.
    assert (Hpos : 1 <= commitsMeasure limit st).
    { unfold commitsMeasure. rewrite Hm. specialize (Herr Hm).
      unfold maxConsecutiveErrors in Herr. lia. }
    destruct (commitsStep api owner repo limit st) as [st'|st'|e st'].
    + destruct Hstep as ((_ & Hc) & Herr' & Hdec).
      specialize (IH st' Herr').
      destruct (commitsLoop api owner repo limit fuel st'); [lia | lia | exact I].
    + destruct Hstep as (_ & Hc). lia.
    + destruct Hstep as ((_ & Hc) & _). lia.
Qed.

(** X23. The calls of a pass are bounded, whatever the API answers. The
    contributors pass makes at most 3000 page requests (three times its
    ceiling of 1000 pages) and at most one user lookup for each contributor
    fetched; the commits pass makes at most three page requests for each
    commit of its limit. *)
Theorem passes_call_budget :
  (forall w : World,
      match collectFromContributors api owner repo w with
      | Finished st | Threw _ st =>
          contributorCalls (world st) <= contributorCalls w + 3 * maxPages
          /\ userCalls (world st) <= userCalls w + totalContributorsFetched st
      | OutOfFuel => False
      end)
  /\ (forall (limit : nat) (w : World),
         match collectFromCommits api owner repo limit w with
         | Finished st | Threw _ st =>
             commitCalls (commitWorld st) <= commitCalls w + 3 * limit
         | OutOfFuel => False
         end).
Proof.
  split.
  - intros w.
    pose proof (collectFromContributors_spec api owner repo w) as Hend.
    assert (Hinv : passInvariant (contributorsStart w)).
    { unfold passInvariant, contributorsStart, stopReason, maxPages,
        maxConsecutiveEmptyPages, maxConsecutiveErrors. cbn.
      repeat split; try lia; discriminate. }
    pose proof (contributorsLoop_calls (3 * maxPages + 1) (contributorsStart w) Hinv)
      as Hc.
    pose proof (contributorsLoop_keeps api owner repo _
                  (contributorsStep_lookups (userCalls w)) (3 * maxPages + 1)
                  (contributorsStart w)) as Hu.
    unfold collectFromContributors in *.
    assert (Hm0 : passMeasure (contributorsStart w) = 3 * maxPages)
      by (unfold passMeasure, contributorsStart, maxPages; cbn; lia).
    rewrite Hm0 in Hc.
    destruct (contributorsLoop api owner repo (3 * maxPages + 1) (contributorsStart w));
      [| |exact Hend];
      (split; [exact Hc | apply Hu; cbn; lia]).
  - intros limit w.
    pose proof (collectFromCommits_ends api owner repo limit w) as Hend.
    pose proof (commitsLoop_calls limit (3 * limit + 1) (commitsStart w)) as Hc.
    unfold collectFromCommits in *.
    assert (Hm0 : commitsMeasure limit (commitsStart w) = 3 * limit)
      by (unfold commitsMeasure, commitsStart; cbn; lia).
    rewrite Hm0 in Hc.
    destruct (commitsLoop api owner repo limit (3 * limit + 1) (commitsStart w));
      [| |exact (Hend eq_refl)];
      (apply Hc; cbn; unfold maxConsecutiveErrors; lia).
Qed.

End CallBudget.

(** ** The contributors pass: when it stops *)

Section StopPolicy.
Import JS Filter Collector.
Local Open Scope nat_scope.
Local Open Scope list_scope.

Variable api : Api.
Variables owner repo : string.

(** The pass of the model is a run of the loop, whenever its fuel is not
    used up. *)
Lemma contributorsLoop_run (fuel : nat) :
  forall st : ContributorsState,
    contributorsLoop api owner repo fuel st <> OutOfFuel ->
    contributorsRun api owner repo st (contributorsLoop api owner repo fuel st).
Proof.
  induction fuel as [|fuel IH]; intros st Hfuel.
  - cbn [contributorsLoop] in *.
    destruct (hasMore st && (page st <=? maxPages)) eqn:G; [congruence|].
    apply RunExit. exact G.
  - rewrite contributorsLoop_eq in *.
    destruct (hasMore st && (page st <=? maxPages)) eqn:G;
      [|apply RunExit; exact G].
    destruct (contributorsStep api owner repo st) as [st'|st'|e st'] eqn:Hstep.
    + apply (RunContinue api owner repo st st' _ G Hstep). apply IH. exact Hfuel.
    + apply (RunBreak api owner repo st st' G Hstep).
    + apply (RunThrow api owner repo st st' e G Hstep).
Qed.

(** One more page: the loop goes on from the state after the page. *)
Lemma contributorsLoop_advance (fuel : nat) (st : ContributorsState) (pg : Page) :
  hasMore st = true ->
  page st < maxPages ->
  getContributorsWithPagination api (contributorCalls (world st)) owner repo
    (page st) 100 = Got pg ->
  exists st',
    contributorsLoop api owner repo (S fuel) st
    = contributorsLoop api owner repo fuel st'
    /\ consecutiveEmptyPages st'
       = (if contributorCountOf pg =? 0 then S (consecutiveEmptyPages st) else 0)
    /\ totalContributorsFetched st'
       = totalContributorsFetched st + contributorCountOf pg
    /\ hasMore st'
       = (if maxConsecutiveEmptyPages <=? consecutiveEmptyPages st'
          then false else true)
    /\ page st'
       = (if maxConsecutiveEmptyPages <=? consecutiveEmptyPages st'
          then page st else S (page st))
    /\ contributorCalls (world st') = S (contributorCalls (world st))
    /\ contributorPagesOf (trace (world st'))
       = contributorPagesOf (trace (world st)) ++ [page st].
Proof.
  intros Hm Hp Hget.
  destruct (contributorsStep_got api owner repo st pg Hget Hp)
    as (st' & Hstep & H1 & H2 & _ & H4 & H5 & H6 & _).
  pose proof (contributorsStep_pages api owner repo st) as Hpages.
  rewrite Hstep in Hpages. destruct Hpages as [Hpages _].
  exists st'. rewrite contributorsLoop_eq, Hm, Hstep.
  assert (E : (page st <=? maxPages) = true) by (apply Nat.leb_le; lia).
  rewrite E. cbn [andb]. rewrite Hm in H4. repeat split; assumption.
Qed.

Lemma contributorsLoop_done (fuel : nat) (st : ContributorsState) :
  hasMore st = false -> contributorsLoop api owner repo fuel st = Finished st.
Proof. intros H. destruct fuel; cbn [contributorsLoop]; rewrite H; reflexivity. Qed.

(** Two full pages and three empty ones: the pages 1 to 5 are asked for,
    then the pass is over. *)
Lemma contributorsLoop_two_full_three_empty (w : World)
    (p1 p2 p3 p4 p5 : Page) (fuel : nat) :
  5 <= fuel ->
  getContributorsWithPagination api (contributorCalls w) owner repo 1 100 = Got p1 ->
  getContributorsWithPagination api (contributorCalls w + 1) owner repo 2 100 = Got p2 ->
  getContributorsWithPagination api (contributorCalls w + 2) owner repo 3 100 = Got p3 ->
  getContributorsWithPagination api (contributorCalls w + 3) owner repo 4 100 = Got p4 ->
  getContributorsWithPagination api (contributorCalls w + 4) owner repo 5 100 = Got p5 ->
  map contributorCountOf [p1; p2; p3; p4; p5] = [100; 100; 0; 0; 0] ->
  exists st,
    contributorsLoop api owner repo fuel (contributorsStart w) = Finished st
    /\ contributorCalls (world st) = contributorCalls w + 5
    /\ page st = 5
    /\ consecutiveEmptyPages st = 3
    /\ totalContributorsFetched st = 200
    /\ hasMore st = false
    /\ contributorPagesOf (trace (world st))
       = contributorPagesOf (trace w) ++ [1; 2; 3; 4; 5].
Proof.
  intros Hfuel G1 G2 G3 G4 G5 Hsizes.
  cbn [map] in Hsizes. injection Hsizes as S1 S2 S3 S4 S5.
  destruct fuel as [|[|[|[|[|fuel]]]]]; try lia. clear Hfuel.
  pose proof maxPages_pos as Hmax.
  assert (Hbig : 5 < maxPages) by (unfold maxPages; lia).
  unfold maxConsecutiveEmptyPages in *.
  set (st0 := contributorsStart w).
  assert (T0 : contributorPagesOf (trace (world st0)) = contributorPagesOf (trace w)).
  { subst st0. cbn [contributorsStart world emit trace].
    rewrite contributorPagesOf_app. cbn. apply app_nil_r. }
  destruct (contributorsLoop_advance (S (S (S (S fuel)))) st0 p1 eq_refl
              ltac:(cbn; lia) G1) as (st1 & -> & E1 & T1 & M1 & P1 & C1 & Q1).
  rewrite S1 in E1, T1. cbn [Nat.eqb] in E1. rewrite E1 in M1, P1.
  unfold maxConsecutiveEmptyPages in M1, P1.
  cbn in M1, P1, C1, T1. rewrite T0 in Q1. cbn [page st0 contributorsStart] in Q1.
  assert (G2' : getContributorsWithPagination api (contributorCalls (world st1))
                  owner repo (page st1) 100 = Got p2).
  { rewrite C1, P1. rewrite <- G2. f_equal. lia. }
  destruct (contributorsLoop_advance (S (S (S fuel))) st1 p2 M1 ltac:(lia) G2')
    as (st2 & -> & E2 & T2 & M2 & P2 & C2 & Q2).
  rewrite S2, E1 in E2. rewrite S2, T1 in T2.
  rewrite P1 in P2. rewrite C1 in C2. rewrite Q1, P1 in Q2.
  cbn [Nat.eqb] in E2. rewrite E2 in M2, P2.
  unfold maxConsecutiveEmptyPages in M2, P2. cbn [Nat.leb] in M2, P2.
  assert (G3' : getContributorsWithPagination api (contributorCalls (world st2))
                  owner repo (page st2) 100 = Got p3).
  { rewrite C2, P2. rewrite <- G3. f_equal. lia. }
  destruct (contributorsLoop_advance (S (S fuel)) st2 p3 M2 ltac:(lia) G3')
    as (st3 & -> & E3 & T3 & M3 & P3 & C3 & Q3).
  rewrite S3, E2 in E3. rewrite S3, T2 in T3.
  rewrite P2 in P3. rewrite C2 in C3. rewrite Q2, P2 in Q3.
  cbn [Nat.eqb] in E3. rewrite E3 in M3, P3.
  unfold maxConsecutiveEmptyPages in M3, P3. cbn [Nat.leb] in M3, P3.
  assert (G4' : getContributorsWithPagination api (contributorCalls (world st3))
                  owner repo (page st3) 100 = Got p4).
  { rewrite C3, P3. rewrite <- G4. f_equal. lia. }
  destruct (contributorsLoop_advance (S fuel) st3 p4 M3 ltac:(lia) G4')
    as (st4 & -> & E4 & T4 & M4 & P4 & C4 & Q4).
  rewrite S4, E3 in E4. rewrite S4, T3 in T4.
  rewrite P3 in P4. rewrite C3 in C4. rewrite Q3, P3 in Q4.
  cbn [Nat.eqb] in E4. rewrite E4 in M4, P4.
  unfold maxConsecutiveEmptyPages in M4, P4. cbn [Nat.leb] in M4, P4.
  assert (G5' : getContributorsWithPagination api (contributorCalls (world st4))
                  owner repo (page st4) 100 = Got p5).
  { rewrite C4, P4. rewrite <- G5. f_equal. lia. }
  destruct (contributorsLoop_advance fuel st4 p5 M4 ltac:(lia) G5')
    as (st5 & -> & E5 & T5 & M5 & P5 & C5 & Q5).
  rewrite S5, E4 in E5. rewrite S5, T4 in T5.
  rewrite P4 in P5. rewrite C4 in C5. rewrite Q4, P4 in Q5.
  cbn [Nat.eqb] in E5. rewrite E5 in M5, P5.
  unfold maxConsecutiveEmptyPages in M5, P5. cbn [Nat.leb] in M5, P5.
  exists st5. rewrite (contributorsLoop_done fuel st5 M5).
  repeat split; try assumption; try lia.
  rewrite Q5, <- !app_assoc. reflexivity.
Qed.

End StopPolicy.

Section ContributorsClaims.
Import JS Filter Collector.
Local Open Scope nat_scope.
Local Open Scope list_scope.

(** C1. In the contributors pass a page without items adds one to
    [consecutiveEmptyPages] and any other page resets it to zero. The pass
    returns only when [consecutiveEmptyPages] has reached 3, or the page
    ceiling of 1000 has been reached, or [consecutiveErrors] has reached 3
    (the only other way out is a rate-limit error, which is thrown). Below
    the ceiling a page of exactly 100 items always leads to the next page,
    whatever the pagination link says. A page request that fails with
    another error than a rate-limit error adds one to [consecutiveErrors]
    and stops the pass when that makes 3; a page that arrives at the ceiling
    stops it at once. The pass is the loop of these iterations, started at
    page 1 with all counters at zero: it goes on as long as its condition
    holds and is left only when the condition fails, at the [break] of the
    ceiling, or by the error thrown. For pages of sizes 100, 100, 0, 0, 0
    the pass asks for the pages 1, 2, 3, 4 and 5 in five calls, counts 200
    contributors and then returns without a sixth request. *)
Theorem contributors_pass_stop_policy :
  (forall api owner repo st pg,
      getContributorsWithPagination api (contributorCalls (world st)) owner repo
        (page st) 100 = Got pg ->
      page st < maxPages ->
      exists st',
        contributorsStep api owner repo st = Continue st'
        /\ consecutiveEmptyPages st'
           = (if contributorCountOf pg =? 0
              then S (consecutiveEmptyPages st) else 0)
        /\ consecutiveErrors st' = 0
        /\ hasMore st'
           = (if 3 <=? consecutiveEmptyPages st' then false else hasMore st)
        /\ page st'
           = (if 3 <=? consecutiveEmptyPages st' then page st else S (page st)))
  /\ (forall api owner repo w,
         match collectFromContributors api owner repo w with
         | Finished st =>
             hasMore st = false
             /\ (consecutiveEmptyPages st = 3
                 \/ page st = 1000
                 \/ consecutiveErrors st = 3)
         | Threw e _ => includes (message e) "rate limit" = true
         | OutOfFuel => False
         end)
  /\ (forall api owner repo st pg,
         getContributorsWithPagination api (contributorCalls (world st)) owner repo
           (page st) 100 = Got pg ->
         contributorCountOf pg = 100 ->
         hasMore st = true ->
         page st < maxPages ->
         exists st',
           contributorsStep api owner repo st = Continue st'
           /\ hasMore st' = true
           /\ page st' = S (page st))
  /\ (forall api owner repo w,
         contributorsRun api owner repo (contributorsStart w)
           (collectFromContributors api owner repo w))
  /\ (forall api owner repo p1 p2 p3 p4 p5,
         getContributorsWithPagination api 0 owner repo 1 100 = Got p1 ->
         getContributorsWithPagination api 1 owner repo 2 100 = Got p2 ->
         getContributorsWithPagination api 2 owner repo 3 100 = Got p3 ->
         getContributorsWithPagination api 3 owner repo 4 100 = Got p4 ->
         getContributorsWithPagination api 4 owner repo 5 100 = Got p5 ->
         map contributorCountOf [p1; p2; p3; p4; p5] = [100; 100; 0; 0; 0] ->
         exists st,
           collectFromContributors api owner repo newWorld = Finished st
           /\ contributorCalls (world st) = 5
           /\ page st = 5
           /\ consecutiveEmptyPages st = 3
           /\ totalContributorsFetched st = 200
           /\ hasMore st = false
           /\ contributorPagesOf (trace (world st)) = [1; 2; 3; 4; 5])
  /\ (forall api owner repo st e,
         getContributorsWithPagination api (contributorCalls (world st)) owner repo
           (page st) 100 = Failed e ->
         includes (message e) "rate limit" = false ->
         exists st',
           contributorsStep api owner repo st = Continue st'
           /\ consecutiveErrors st' = S (consecutiveErrors st)
           /\ consecutiveEmptyPages st' = consecutiveEmptyPages st
           /\ page st' = page st
           /\ hasMore st'
              = (if 3 <=? consecutiveErrors st' then false else hasMore st))
  /\ (forall api owner repo st pg,
         getContributorsWithPagination api (contributorCalls (world st)) owner repo
           (page st) 100 = Got pg ->
         maxPages <= page st ->
         exists st',
           contributorsStep api owner repo st = Break st'
           /\ hasMore st' = false
           /\ page st' = page st)
  /\ (forall w,
         let st := contributorsStart w in
         page st = 1 /\ hasMore st = true /\ consecutiveEmptyPages st = 0
         /\ consecutiveErrors st = 0 /\ totalContributorsFetched st = 0
         /\ emails st = []).
Proof.
  split; [|split; [|split; [|split; [|split; [|split; [|split]]]]]].
  - intros api owner repo st pg Hget Hpage.
    destruct (contributorsStep_got api owner repo st pg Hget Hpage)
      as (st' & Hstep & He & _ & Herr & Hm & Hp & _).
    exists st'. repeat split; assumption.
  - intros api owner repo w.
    pose proof (collectFromContributors_spec api owner repo w) as H.
    destruct (collectFromContributors api owner repo w); exact H.
  - intros api owner repo st pg Hget Hcount Hm Hpage.
    destruct (contributorsStep_got api owner repo st pg Hget Hpage)
      as (st' & Hstep & He & _ & _ & Hm' & Hp' & _).
    exists st'. rewrite Hcount in He. cbn [Nat.eqb] in He.
    rewrite He in Hm', Hp'. unfold maxConsecutiveEmptyPages in Hm', Hp'.
    cbn [Nat.leb] in Hm', Hp'. rewrite Hm in Hm'. repeat split; assumption.
  - intros api owner repo w. unfold collectFromContributors.
    apply contributorsLoop_run.
    pose proof (collectFromContributors_spec api owner repo w) as H.
    unfold collectFromContributors in H. intros Hout. rewrite Hout in H. exact H.
  - intros api owner repo p1 p2 p3 p4 p5 G1 G2 G3 G4 G5 Hsizes.
    destruct (contributorsLoop_two_full_three_empty api owner repo newWorld
                p1 p2 p3 p4 p5 (3 * maxPages + 1))
      as (st & Hrun & Hc & Hp & He & Ht & Hm & Hpages); try assumption.
    + unfold maxPages. lia.
    + exists st. unfold collectFromContributors. rewrite Hrun.
      repeat split; assumption.
  - intros api owner repo st e Hget Hrl.
    unfold contributorsStep. rewrite Hget, Hrl.
    unfold maxConsecutiveErrors.
    destruct (3 <=? S (consecutiveErrors st)) eqn:E;
      eexists; (split; [reflexivity|]);
      cbn [consecutiveErrors consecutiveEmptyPages page hasMore];
      rewrite E; repeat split.
  - intros api owner repo st pg Hget Hpage.
    unfold contributorsStep. rewrite Hget.
    assert (E : (maxPages <=? page st) = true) by (apply Nat.leb_le; exact Hpage).
    rewrite E. eexists. split; [reflexivity|]. split; reflexivity.
  - intros w. repeat split.
Qed.

Lemma contributors_pass_stop_policy_witness :
  (exists st,
      collectFromContributors CollectorFixtures.twoFullPages "octo" "repo" newWorld
      = Finished st
      /\ contributorCalls (world st) = 5
      /\ page st = 5
      /\ consecutiveEmptyPages st = 3
      /\ contributorPagesOf (trace (world st)) = [1; 2; 3; 4; 5])
  /\ exists st',
      contributorsStep CollectorFixtures.twoFullPages "octo" "repo"
        (contributorsStart newWorld) = Continue st'
      /\ hasMore st' = true
      /\ page st' = 2.
Proof.
  destruct contributors_pass_stop_policy as (_ & _ & Hfull & _ & H & _).
  split.
  - destruct (H CollectorFixtures.twoFullPages "octo" "repo"
                (mkPage (Some CollectorFixtures.fullPage) false)
                (mkPage (Some CollectorFixtures.fullPage) false)
                (mkPage (Some []) false) (mkPage (Some []) false)
                (mkPage (Some []) false) eq_refl eq_refl eq_refl eq_refl eq_refl
                eq_refl)
      as (st & Hrun & Hc & Hp & He & _ & _ & Hpages).
    exists st. repeat split; assumption.
  - apply (Hfull CollectorFixtures.twoFullPages "octo" "repo"
             (contributorsStart newWorld)
             (mkPage (Some CollectorFixtures.fullPage) false));
      try reflexivity.
    unfold maxPages. cbn. lia.
Defined.

End ContributorsClaims.

(** ** The error the bulk route reports *)

Section RouteErrors.
Import JS Sender Route.
Local Open Scope list_scope.

(** X24. When the verification of the SMTP connection fails, whatever the
    reason, [sendBulkEmails] throws an error whose message is
    [Failed to verify SMTP connection: ] followed by the reason, without
    handing a mail to the transport, and the client of the bulk route is told
    the same text about the SMTP connection for every reason: the handler
    takes its first branch and never gets to its texts for authentication
    failures and timeouts. *)
Theorem bulk_route_reports_connection_error :
  forall (env : Env) (emails : list EmailItem) (subj htmlTemplate : string)
         (textTemplate : option string) (opts : Options) (msg : string),
    verifyError env = Some msg ->
    let e := newError ("Failed to verify SMTP connection: " ++ msg)%string in
    exists tr : list Event,
      sendBulkEmails env emails subj htmlTemplate textTemplate opts = Thrown e tr
      /\ mailsOf tr = []
      /\ message e = ("Failed to verify SMTP connection: " ++ msg)%string
      /\ bulkSendError (message e)
         = "Failed to verify SMTP connection. Please check your SMTP configuration.".
Proof.
  intros env emails subj htmlTemplate textTemplate opts msg Hv e.
  unfold sendBulkEmails. rewrite Hv. fold e.
  eexists. split; [reflexivity|]. split; [reflexivity|]. split; [reflexivity|].
  unfold bulkSendError. subst e. cbn [message newError].
  rewrite (includes_app_l "Failed to verify SMTP connection: " msg "SMTP connection"
             eq_refl).
  reflexivity.
Qed.

Lemma bulk_route_reports_connection_error_witness :
  exists e tr,
    sendBulkEmails SenderFixtures.badLogin SenderFixtures.twelve "Hello" "<p>Hi</p>"
      None SenderFixtures.batchesOfFive = Thrown e tr
    /\ includes (message e) "EAUTH" = true
    /\ bulkSendError (message e)
       = "Failed to verify SMTP connection. Please check your SMTP configuration.".
Proof.
  destruct (bulk_route_reports_connection_error SenderFixtures.badLogin
              SenderFixtures.twelve "Hello" "<p>Hi</p>" None
              SenderFixtures.batchesOfFive
              "Invalid login: 535 authentication failed (EAUTH)" eq_refl)
    as (tr & Hrun & _ & _ & Hroute).
  eexists _, tr. split; [exact Hrun|]. split; [reflexivity | exact Hroute].
Defined.

End RouteErrors.
